(** * YSRN core: decomposition engine, gated retriever and query pipeline

    A shallow embedding of

      - [ysrn/domain/service/ysrn_engine.py]      (class [YSRNEngine])
      - [ysrn/domain/service/gated_retrieval.py]  (class [GatedContextRetriever])
      - [ysrn/application/query_handler.py]       ([QueryHandler.submit_query])
      - [ysrn/domain/model/*.py], [ysrn/domain/value_object/embedding.py]

    Python floats are read in two ways.  The main development reads them as
    the real numbers they approximate (exact arithmetic): numpy
    one-dimensional arrays are [list R], two-dimensional arrays the list of
    their rows, and the only non-finite value kept is the [nan] that
    [np.mean] returns for an empty list, a separate constructor of [pyfloat].
    What is proved there about numeric values holds exactly over the reals;
    it carries over to the running code where the statement leaves room for
    rounding (weak bounds with a margin, zeros produced by zero operands,
    shapes, counts and errors).  Module [F64] reads the engine over IEEE-754
    binary64 and replays the exact statements on concrete inputs; where a
    replay contradicts one, the statement is marked as holding in exact
    arithmetic only.  Exceptions are values of a small error monad. *)

From Stdlib Require Import PrimFloat.
From Stdlib Require Import String.
From Stdlib Require Import Reals Lra Lia List ZArith Bool Psatz.
From Stdlib Require Import Permutation Sorted.
From Stdlib Require Import DecimalString.
Import ListNotations.
Open Scope R_scope.

(** ** Exceptions *)

Inductive error : Type :=
| EmbeddingRequired   (* ValueError("Both context and query must have embeddings") *)
| ShapeMismatch       (* numpy ValueError: shapes not aligned / cannot broadcast *)
| IndexError          (* IndexError: index out of bounds *)
| AttributeError.     (* attribute access on None *)

Inductive result (A : Type) : Type :=
| Ok (a : A)
| Raise (e : error).
Arguments Ok {A} a.
Arguments Raise {A} e.

Definition bind {A B : Type} (m : result A) (k : A -> result B) : result B :=
  match m with
  | Ok a => k a
  | Raise e => Raise e
  end.

Notation "x <- m ;; k" := (bind m (fun x => k))
  (at level 61, m at next level, right associativity).
Notation "' p <- m ;; k" := (bind m (fun x => let p := x in k))
  (at level 61, p pattern, m at next level, right associativity).

(** ** numpy kernels *)

Module Np.

Definition vec := list R.
Definition matrix := list (list R).

(** The additive guard [1e-8] used in every division of the engine. *)
Definition eps : R := 1e-8.

Fixpoint sum (v : vec) : R :=
  match v with
  | [] => 0
  | x :: v' => x + sum v'
  end.

Definition sq (x : R) : R := x * x.

Definition sumsq (v : vec) : R := sum (map sq v).

(** [np.linalg.norm] of a vector (and the Frobenius norm of a column). *)
Definition norm (v : vec) : R := sqrt (sumsq v).

Definition zeros (n : nat) : vec := repeat 0 n.

(** [v / c] and [c * v] for a scalar [c]. *)
Definition vdiv (v : vec) (c : R) : vec := map (fun x => x / c) v.
Definition scale (c : R) (v : vec) : vec := map (fun x => c * x) v.

Fixpoint zip_with (f : R -> R -> R) (a b : vec) : vec :=
  match a, b with
  | x :: a', y :: b' => f x y :: zip_with f a' b'
  | _, _ => []
  end.

(** Elementwise binary operation with numpy broadcasting for 1-d operands. *)
Definition broadcast (f : R -> R -> R) (a b : vec) : result vec :=
  if Nat.eqb (length a) (length b) then Ok (zip_with f a b)
  else match a, b with
       | [x], _ => Ok (map (f x) b)
       | _, [y] => Ok (map (fun x => f x y) a)
       | _, _ => Raise ShapeMismatch
       end.

(** In-place [a += x]: [x] must broadcast to the shape of [a]. *)
Definition iadd (a x : vec) : result vec :=
  if Nat.eqb (length x) (length a) then Ok (zip_with Rplus a x)
  else match x with
       | [y] => Ok (map (fun t => t + y) a)
       | _ => Raise ShapeMismatch
       end.

Definition dot_raw (a b : vec) : R := sum (zip_with Rmult a b).

(** [np.dot] of two 1-d arrays. *)
Definition dot (a b : vec) : result R :=
  if Nat.eqb (length a) (length b) then Ok (dot_raw a b)
  else Raise ShapeMismatch.

(** [np.cumsum]. *)
Fixpoint cumsum_from (acc : R) (v : vec) : vec :=
  match v with
  | [] => []
  | x :: v' => (acc + x) :: cumsum_from (acc + x) v'
  end.
Definition cumsum (v : vec) : vec := cumsum_from 0 v.

Definition Rgtb (a b : R) : bool := if Rlt_dec b a then true else false.

(** [np.where(mask)[0]]: positions of the true entries. *)
Fixpoint where_from (i : nat) (mask : list bool) : list nat :=
  match mask with
  | [] => []
  | b :: m' => if b then i :: where_from (S i) m' else where_from (S i) m'
  end.
Definition where_ (mask : list bool) : list nat := where_from 0 mask.

(** [U[:, i]]: column [i] of a matrix given by its rows. *)
Fixpoint col (U : matrix) (i : nat) : result vec :=
  match U with
  | [] => Ok []
  | row :: U' =>
      match nth_error row i with
      | None => Raise IndexError
      | Some x => c <- col U' i ;; Ok (x :: c)
      end
  end.

(** [W @ x] for a 2-d [W] and a 1-d [x]. *)
Fixpoint matvec (W : matrix) (x : vec) : result vec :=
  match W with
  | [] => Ok []
  | row :: W' => y <- dot row x ;; ys <- matvec W' x ;; Ok (y :: ys)
  end.

(** [np.dot(x, W)] for a 1-d [x] and a 2-d [W] (rows of [W] scaled and
    added).  A matrix is the list of its rows, so one without rows is taken
    to have no columns either. *)
Fixpoint vecmat_rows (x : vec) (W : matrix) (acc : vec) : vec :=
  match x, W with
  | xi :: x', row :: W' => vecmat_rows x' W' (zip_with Rplus acc (scale xi row))
  | _, _ => acc
  end.
Definition vecmat (x : vec) (W : matrix) : result vec :=
  if Nat.eqb (length x) (length W)
  then Ok (vecmat_rows x W (zeros (length (hd [] W))))
  else Raise ShapeMismatch.

(** [np.stack] of 1-d arrays: all must have the same shape. *)
Definition stack (rows : list vec) : result matrix :=
  match rows with
  | [] => Raise ShapeMismatch
  | r :: rest =>
      if forallb (fun r' => Nat.eqb (length r') (length r)) rest
      then Ok rows else Raise ShapeMismatch
  end.

(** [np.dot(q, keys.T)]: one dot product per row of [keys]. *)
Fixpoint dot_rows (q : vec) (keys : matrix) : result vec :=
  match keys with
  | [] => Ok []
  | k :: keys' => y <- dot q k ;; ys <- dot_rows q keys' ;; Ok (y :: ys)
  end.

(** [np.dot(w, values)] for 1-d [w] and 2-d [values]. *)
Definition weighted_rows (w : vec) (values : matrix) : result vec :=
  vecmat w values.

Fixpoint maximum (x : R) (v : vec) : R :=
  match v with
  | [] => x
  | y :: v' => maximum (Rmax x y) v'
  end.

(** [np.max]; raises on an empty array. *)
Definition amax (v : vec) : result R :=
  match v with
  | [] => Raise ShapeMismatch
  | x :: v' => Ok (maximum x v')
  end.

Definition clip (lo hi x : R) : R := Rmin hi (Rmax lo x).

(** [np.resize(g, n)]: repeat [g] cyclically up to length [n] (zeros when
    [g] is empty). *)
Fixpoint cycle (fuel : nat) (g : vec) (n : nat) : vec :=
  match fuel with
  | O => []
  | S fuel' =>
      if Nat.leb n (length g) then firstn n g
      else g ++ cycle fuel' g (n - length g)
  end.
Definition resize (g : vec) (n : nat) : vec :=
  match g with
  | [] => zeros n
  | _ => cycle (S n) g n
  end.

(** Mean of a non-empty array, as a real. *)
Definition mean_R (v : vec) : R := sum v / INR (length v).

End Np.

(** A Python float that may be [nan]. *)
Inductive pyfloat : Type :=
| Fin (x : R)
| NaN.

(** [float(np.mean(xs))]: [nan] (with a warning, no exception) on an empty
    list. *)
Definition np_mean (xs : list R) : pyfloat :=
  match xs with
  | [] => NaN
  | _ => Fin (Np.mean_R xs)
  end.

(** Python slice [l[:k]] for an integer [k] (negative [k] counts from the
    end). *)
Definition slice_to {A : Type} (k : Z) (l : list A) : list A :=
  if (k <? 0)%Z then firstn (Z.to_nat (Z.of_nat (length l) + k)) l
  else firstn (Z.to_nat k) l.

Import Np.

(** ** Data model *)

(** [value_object/embedding.py] *)
Record ContextEmbedding : Type := {
  ctx_vector : vec;
  ctx_dimension : Z;
  model_id : string
}.

Record QueryEmbedding : Type := {
  q_vector : vec;
  q_dimension : Z
}.

Definition ctx_to_numpy (e : ContextEmbedding) : vec := ctx_vector e.
Definition q_to_numpy (e : QueryEmbedding) : vec := q_vector e.

(** [model/context.py].  The free-form [metadata] and the [created_at] stamp
    are never read by the modelled code and are left out. *)
Record ContextBlock : Type := {
  block_id : string;
  content : string;
  embedding : option ContextEmbedding;
  relevance_score : option R;
  superfluous_score : option R;
  noise_score : option R
}.

Definition is_classified (c : ContextBlock) : bool :=
  match relevance_score c with Some _ => true | None => false end.

(** [model/query.py] *)
Record Query : Type := {
  query_id : string;
  text : string;
  query_embedding : option QueryEmbedding;
  constraints : list string
}.

(** [model/decomposition.py] *)
Record DecompositionResult : Type := {
  dr_Y : vec;
  dr_R : vec;
  dr_S : vec;
  dr_N : vec;
  relevance_ratio : R;
  superfluous_ratio : R;
  noise_ratio : R;
  signal_quality : R;
  confidence : R;
  r_components : Z;
  s_components : Z;
  n_components : Z
}.

(** ** The decomposition engine, [ysrn_engine.py] *)

Record YSRNEngine : Type := {
  relevance_threshold : R;
  noise_threshold : R;
  num_components : Z;
  W_relevance : option matrix;
  W_superfluous : option matrix
}.

(** [YSRNEngine.__init__] *)
Definition YSRNEngine_init (relevance_threshold noise_threshold : R)
    (num_components : Z) : YSRNEngine :=
  {| relevance_threshold := relevance_threshold;
     noise_threshold := noise_threshold;
     num_components := num_components;
     W_relevance := None;
     W_superfluous := None |}.

Definition svd_result : Type := (matrix * vec * matrix)%type.

Section Engine.

(** [np.linalg.svd(a, full_matrices=False)] applied to the column [a] whose
    entries are the given vector; [None] stands for a raised [LinAlgError]. *)
Variable svd : vec -> option svd_result.

(** The [try ... except] around the call (lines 78-82). *)
Definition svd_or_fallback (residual : vec) : svd_result :=
  match svd residual with
  | Some usv => usv
  | None => ([[1]], [norm residual], [[1]])
  end.

(** The loop of lines 95-97 over [noise_indices]. *)
Fixpoint accumulate_noise (U : matrix) (s : vec) (Vt : matrix)
    (noise_indices : list nat) (N : vec) : result vec :=
  match noise_indices with
  | [] => Ok N
  | i :: rest =>
      if Nat.ltb i (length s) then
        if Nat.ltb i (length Vt) then
          u <- col U i ;;
          x <- broadcast Rmult (scale (nth i s 0) u) (nth i Vt []) ;;
          N' <- iadd N x ;;
          accumulate_noise U s Vt rest N'
        else accumulate_noise U s Vt rest N
      else accumulate_noise U s Vt rest N
  end.

Definition decompose (self : YSRNEngine)
    (context_embedding query_embedding : vec) : result DecompositionResult :=
  (* Normalize inputs *)
  let Y := vdiv context_embedding (norm context_embedding + eps) in
  let q := vdiv query_embedding (norm query_embedding + eps) in
  (* Step 1: query-aligned projection *)
  relevance_coeff <- dot Y q ;;
  let R_init := scale relevance_coeff q in
  (* Step 2: orthogonal complement *)
  residual <- broadcast Rminus Y R_init ;;
  (* Step 3: separate noise using SVD *)
  let '(U, s, Vt) := svd_or_fallback residual in
  let total_energy := sum (map sq s) in
  let cumulative_energy := vdiv (cumsum (map sq s)) (total_energy + eps) in
  let noise_mask :=
    map (fun e => Rgtb e (1 - noise_threshold self)) cumulative_energy in
  let noise_indices := where_ noise_mask in
  N <- (match noise_indices with
        | [] => Ok (zeros (length residual))
        | _ => accumulate_noise U s Vt noise_indices (zeros (length residual))
        end) ;;
  S <- broadcast Rminus residual N ;;
  (* Step 4: refine R using learned projections (if available) *)
  R <- (match W_relevance self with
        | Some W => matvec W R_init
        | None => Ok R_init
        end) ;;
  (* Compute metrics *)
  let R_norm := norm R in
  let S_norm := norm S in
  let N_norm := norm N in
  let total_norm := R_norm + S_norm + N_norm + eps in
  Ok {| dr_Y := Y;
        dr_R := R;
        dr_S := S;
        dr_N := N;
        relevance_ratio := R_norm / total_norm;
        superfluous_ratio := S_norm / total_norm;
        noise_ratio := N_norm / total_norm;
        signal_quality := R_norm / (S_norm + N_norm + eps);
        confidence := Rabs relevance_coeff;
        r_components := 1;
        s_components :=
          Z.max 0 (Z.of_nat (length s) - Z.of_nat (length noise_indices) - 1);
        n_components := Z.of_nat (length noise_indices) |}.

(** [batch_decompose]: one [decompose] per row, in order. *)
Fixpoint batch_decompose (self : YSRNEngine) (context_embeddings : matrix)
    (query_embedding : vec) : result (list DecompositionResult) :=
  match context_embeddings with
  | [] => Ok []
  | ctx :: rest =>
      r <- decompose self ctx query_embedding ;;
      rs <- batch_decompose self rest query_embedding ;;
      Ok (r :: rs)
  end.

(** [classify_context].  The block is mutated in place and returned; the
    returned record is the state of that object after the call. *)
Definition classify_context (self : YSRNEngine) (context : ContextBlock)
    (query : Query) : result ContextBlock :=
  match embedding context, query_embedding query with
  | Some ce, Some qe =>
      res <- decompose self (ctx_to_numpy ce) (q_to_numpy qe) ;;
      Ok {| block_id := block_id context;
            content := content context;
            embedding := embedding context;
            relevance_score := Some (relevance_ratio res);
            superfluous_score := Some (superfluous_ratio res);
            noise_score := Some (noise_ratio res) |}
  | _, _ => Raise EmbeddingRequired
  end.

Fixpoint batch_classify (self : YSRNEngine) (contexts : list ContextBlock)
    (query : Query) : result (list ContextBlock) :=
  match contexts with
  | [] => Ok []
  | ctx :: rest =>
      c <- classify_context self ctx query ;;
      cs <- batch_classify self rest query ;;
      Ok (c :: cs)
  end.

(** [context_classifier.py]: [ContextClassifier.classify] delegates. *)
Definition classify (ysrn_engine : YSRNEngine) (context : ContextBlock)
    (query : Query) : result ContextBlock :=
  classify_context ysrn_engine context query.

(** The vector [N] of lines 78-99, as a function of [residual]. *)
Definition noise_component (noise_threshold : R) (residual : vec)
    : result vec :=
  let '(U, s, Vt) := svd_or_fallback residual in
  let total_energy := sum (map sq s) in
  let cumulative_energy := vdiv (cumsum (map sq s)) (total_energy + eps) in
  let noise_mask :=
    map (fun e => Rgtb e (1 - noise_threshold)) cumulative_energy in
  let noise_indices := where_ noise_mask in
  match noise_indices with
  | [] => Ok (zeros (length residual))
  | _ => accumulate_noise U s Vt noise_indices (zeros (length residual))
  end.

(** The array [noise_indices] of line 90 and the length of [s], as functions
    of [residual]. *)
Definition noise_indices_of (noise_threshold : R) (residual : vec)
    : list nat :=
  let '(U, s, Vt) := svd_or_fallback residual in
  let total_energy := sum (map sq s) in
  let cumulative_energy := vdiv (cumsum (map sq s)) (total_energy + eps) in
  where_ (map (fun e => Rgtb e (1 - noise_threshold)) cumulative_energy).

Definition singular_values_of (residual : vec) : vec :=
  let '(U, s, Vt) := svd_or_fallback residual in s.

(** The vector [residual] of line 71, as a function of the two inputs. *)
Definition residual_of (context_embedding query_embedding : vec)
    : result vec :=
  let Y := vdiv context_embedding (norm context_embedding + eps) in
  let q := vdiv query_embedding (norm query_embedding + eps) in
  relevance_coeff <- dot Y q ;;
  broadcast Rminus Y (scale relevance_coeff q).

End Engine.

(** ** The gated retriever, [gated_retrieval.py] *)

Record GatedContextRetriever : Type := {
  num_heads : Z;
  head_dim : Z;
  W_gate : matrix;
  gate_bias : vec
}.

(** [GatedContextRetriever.__init__]; [randn] is the sample drawn by
    [np.random.randn(hidden_dim, hidden_dim)]. *)
Definition GatedContextRetriever_init (num_heads head_dim : Z)
    (gate_init_bias : R) (randn : matrix) : GatedContextRetriever :=
  let hidden_dim := (num_heads * head_dim)%Z in
  {| num_heads := num_heads;
     head_dim := head_dim;
     W_gate := map (map (fun x => x * 0.02)) randn;
     gate_bias := repeat gate_init_bias (Z.to_nat hidden_dim) |}.

Definition _softmax (x : vec) : result vec :=
  m <- amax x ;;
  let exp_x := map (fun t => exp (t - m)) x in
  Ok (vdiv exp_x (sum exp_x + eps)).

Definition _sigmoid (x : vec) : vec :=
  map (fun t => 1 / (1 + exp (- clip (-500) 500 t))) x.

Definition compute_gated_attention (self : GatedContextRetriever)
    (query : vec) (keys values : matrix) : result (vec * vec) :=
  (* Standard SDPA *)
  let d_k := length query in
  raw <- dot_rows query keys ;;
  let scores := vdiv raw (sqrt (INR d_k + eps)) in
  attention_weights <- _softmax scores ;;
  sdpa_output <- weighted_rows attention_weights values ;;
  (* Compute gate (query-dependent) *)
  proj <- vecmat query (W_gate self) ;;
  gate_logits <- broadcast Rplus proj (gate_bias self) ;;
  let gate := _sigmoid gate_logits in
  (* Apply gate (element-wise) *)
  gated_output <-
    (if Nat.leb (length sdpa_output) (length gate)
     then broadcast Rmult sdpa_output (firstn (length sdpa_output) gate)
     else broadcast Rmult sdpa_output (resize gate (length sdpa_output))) ;;
  Ok (gated_output, gate).

Definition has_embedding (c : ContextBlock) : bool :=
  match embedding c with Some _ => true | None => false end.

(** [c.embedding.to_numpy()] *)
Definition embedding_to_numpy (c : ContextBlock) : result vec :=
  match embedding c with
  | Some e => Ok (ctx_to_numpy e)
  | None => Raise AttributeError
  end.

Fixpoint embeddings_to_numpy (cs : list ContextBlock) : result (list vec) :=
  match cs with
  | [] => Ok []
  | c :: cs' =>
      v <- embedding_to_numpy c ;;
      vs <- embeddings_to_numpy cs' ;;
      Ok (v :: vs)
  end.

(** [ctx.relevance_score = x].  Blocks are passed by value: the record
    returned stands for the state of the same object after the assignment.
    The value written depends only on the (immutable) embedding, so a block
    that occurs twice in a list receives the same score at both places and
    the by-value reading agrees with in-place mutation. *)
Definition set_relevance_score (c : ContextBlock) (x : R) : ContextBlock :=
  {| block_id := block_id c;
     content := content c;
     embedding := embedding c;
     relevance_score := Some x;
     superfluous_score := superfluous_score c;
     noise_score := noise_score c |}.

(** Lines 91-94: the final scores, given the stacked keys. *)
Definition final_scores_of (self : GatedContextRetriever) (q_vec : vec)
    (keys : matrix) : result vec :=
  '(gated_out, gates) <- compute_gated_attention self q_vec keys keys ;;
  relevance <- dot_rows q_vec keys ;;
  let mean_gate :=
    if Nat.ltb 0 (length gates)
    then mean_R (firstn (length relevance) gates)
    else 0.5 in
  Ok (map (fun r => r * mean_gate) relevance).

(** The loop of lines 99-103. *)
Fixpoint collect_results (valid_candidates : list ContextBlock)
    (final_scores : vec) (sorted_indices : list nat)
    : result (list ContextBlock) :=
  match sorted_indices with
  | [] => Ok []
  | idx :: rest =>
      match nth_error valid_candidates idx, nth_error final_scores idx with
      | Some ctx, Some sc =>
          results <- collect_results valid_candidates final_scores rest ;;
          Ok (set_relevance_score ctx sc :: results)
      | _, _ => Raise IndexError
      end
  end.

Section Retriever.

(** [np.argsort] with its default (unstable) sorting kind. *)
Variable argsort : vec -> list nat.

Definition retrieve (self : GatedContextRetriever) (query : Query)
    (candidates : list ContextBlock) (top_k : Z)
    : result (list ContextBlock) :=
  match candidates, query_embedding query with
  | [], _ => Ok []
  | _, None => Ok []
  | _, Some qe =>
      let q_vec := q_to_numpy qe in
      (* Get embeddings for candidates *)
      let valid_candidates := filter has_embedding candidates in
      match valid_candidates with
      | [] => Ok []
      | _ =>
          rows <- embeddings_to_numpy valid_candidates ;;
          keys <- stack rows ;;
          (* Compute gated attention and final scores *)
          final_scores <- final_scores_of self q_vec keys ;;
          (* Sort and return top-k *)
          let sorted_indices := slice_to top_k (rev (argsort final_scores)) in
          collect_results valid_candidates final_scores sorted_indices
      end
  end.

End Retriever.

(** ** The query pipeline, [query_handler.py] *)

Record DecompositionStats : Type := {
  avg_relevance : pyfloat;
  avg_noise : pyfloat
}.

Record QueryResult : Type := {
  result_query_id : string;
  contexts : list ContextBlock;
  total_candidates : Z;
  decomposition_stats : DecompositionStats
}.

(** [x or 0] for an optional float. *)
Definition or_0 (x : option R) : R :=
  match x with Some v => v | None => 0 end.

(** [list.sort(key=..., reverse=True)]: stable, descending. *)
Fixpoint insert_desc (key : ContextBlock -> R) (x : ContextBlock)
    (l : list ContextBlock) : list ContextBlock :=
  match l with
  | [] => [x]
  | y :: l' =>
      if Rlt_dec (key x) (key y) then y :: insert_desc key x l'
      else x :: l
  end.

Definition sort_desc (key : ContextBlock -> R) (l : list ContextBlock)
    : list ContextBlock :=
  fold_right (insert_desc key) [] l.

(** [QueryEmbedding.from_numpy] *)
Definition QueryEmbedding_from_numpy (arr : vec) : QueryEmbedding :=
  {| q_vector := arr; q_dimension := Z.of_nat (length arr) |}.

Section Pipeline.

Variable svd : vec -> option svd_result.
Variable argsort : vec -> list nat.

(** [QueryHandler.submit_query].  The collaborators are inputs: [new_id] is
    the generated identifier, [encoded] the encoder's output for [text],
    [candidates] the list returned by [persistence.search_similar].  The
    stored [QueryResult] is returned; the elapsed time is left out. *)
Definition submit_query (ysrn : YSRNEngine) (retriever : GatedContextRetriever)
    (new_id : string) (text : string) (constraints : list string)
    (encoded : vec) (candidates : list ContextBlock) : result QueryResult :=
  let query :=
    {| query_id := new_id;
       text := text;
       query_embedding := Some (QueryEmbedding_from_numpy encoded);
       constraints := constraints |} in
  (* Apply gated retrieval *)
  results <- retrieve argsort retriever query candidates 10 ;;
  (* Classify with YSRN *)
  classified <- batch_classify svd ysrn results query ;;
  (* Sort by relevance *)
  let classified := sort_desc (fun x => or_0 (relevance_score x)) classified in
  Ok {| result_query_id := new_id;
        contexts := classified;
        total_candidates := Z.of_nat (length candidates);
        decomposition_stats :=
          {| avg_relevance :=
               np_mean (map (fun c => or_0 (relevance_score c)) classified);
             avg_noise :=
               np_mean (map (fun c => or_0 (noise_score c)) classified) |} |}.

End Pipeline.

(** ** Contracts of the two numpy routines taken as parameters *)

(** Reduced SVD of an [n x 1] column [a]: [U] is [n x k], [s] has [k]
    non-negative entries, [Vt] is [k x 1] with [k = min n 1], the columns of
    [U] and the rows of [Vt] are orthonormal and [a = U diag(s) Vt]. *)
Definition svd_sound (svd : vec -> option svd_result) : Prop :=
  forall a U s Vt, svd a = Some (U, s, Vt) ->
    match a with
    | [] => U = [] /\ s = [] /\ Vt = []
    | _ :: _ =>
        exists u s0 v,
          U = map (fun x => [x]) u /\ s = [s0] /\ Vt = [[v]] /\
          length u = length a /\ 0 <= s0 /\ sumsq u = 1 /\ v * v = 1 /\
          a = map (fun x => x * s0 * v) u
    end.

(** The routine returns normally on every non-empty real column. *)
Definition svd_converges (svd : vec -> option svd_result) : Prop :=
  forall a, a <> [] -> svd a <> None.

(** [np.argsort]: a permutation of the positions that lists the values in
    ascending order; nothing is promised about equal values. *)
Definition argsort_sound (argsort : vec -> list nat) : Prop :=
  forall v,
    Permutation (argsort v) (seq 0 (length v)) /\
    StronglySorted (fun i j => nth i v 0 <= nth j v 0) (argsort v).

(** *** Reference instances *)

(** An SVD of a column: [u = a / |a|] (the first unit vector when [a = 0]),
    [s = [|a|]], [Vt = [[1]]]; an empty column is rejected. *)
Definition svd_col (a : vec) : option svd_result :=
  match a with
  | [] => None
  | _ :: a' =>
      if Req_dec_T (norm a) 0
      then Some (map (fun x => [x]) (1 :: zeros (length a')), [0], [[1]])
      else Some (map (fun x => [x]) (vdiv a (norm a)), [norm a], [[1]])
  end.

(** A stable ascending argsort by insertion (what the default kind does on
    short arrays). *)
Fixpoint insert_idx (v : vec) (i : nat) (l : list nat) : list nat :=
  match l with
  | [] => [i]
  | j :: l' =>
      if Rlt_dec (nth j v 0) (nth i v 0) then j :: insert_idx v i l'
      else i :: l
  end.

Definition argsort_insertion (v : vec) : list nat :=
  fold_right (insert_idx v) [] (seq 0 (length v)).

(** *** Preconditions and sample inputs *)

(** The optional projection [W_relevance] can be applied to a vector of
    length [n] (every row has [n] entries). *)
Definition projection_applicable (self : YSRNEngine) (n : nat) : Prop :=
  match W_relevance self with
  | Some W => Forall (fun row => length row = n) W
  | None => True
  end.

(** The engine as wired in [rest_api/app.py]. *)
Definition engine0 : YSRNEngine := YSRNEngine_init 0.3 0.1 64.

Definition all_zero (v : vec) : Prop := Forall (fun x => x = 0) v.

(** A computation that does not raise the missing-embedding error. *)
Definition not_missing {A : Type} (m : result A) : Prop :=
  m <> Raise EmbeddingRequired.

(** The retriever as [__init__] builds it, for hidden dimension [h]:
    [W_gate] is [h x h] and [gate_bias] has [h] entries. *)
Definition wf_retriever (self : GatedContextRetriever) (h : nat) : Prop :=
  length (W_gate self) = h /\
  Forall (fun row => length row = h) (W_gate self) /\
  length (gate_bias self) = h.

(** Every candidate that carries an embedding carries one of length [h]. *)
Definition embeddings_of_dim (candidates : list ContextBlock) (h : nat)
    : Prop :=
  Forall (fun c => match embedding c with
                   | Some e => length (ctx_vector e) = h
                   | None => True
                   end) candidates.

(** The vector of a candidate that has an embedding. *)
Definition embedding_vec (c : ContextBlock) : vec :=
  match embedding c with
  | Some e => ctx_to_numpy e
  | None => []
  end.

(** The array [gate] of line 58 as a function of the query vector. *)
Definition gate_of (self : GatedContextRetriever) (q_vec : vec) : vec :=
  _sigmoid (zip_with Rplus
              (vecmat_rows q_vec (W_gate self)
                 (zeros (length (hd [] (W_gate self)))))
              (gate_bias self)).

(** The scalar [mean_gate] of line 93 for [n] valid candidates. *)
Definition mean_gate_of (self : GatedContextRetriever) (q_vec : vec)
    (n : nat) : R :=
  if Nat.ltb 0 (length (gate_of self q_vec))
  then mean_R (firstn n (gate_of self q_vec))
  else 0.5.

(** The array [final_scores] of line 94 for the valid candidates. *)
Definition scores_of (self : GatedContextRetriever) (q_vec : vec)
    (valid : list ContextBlock) : vec :=
  map (fun c => dot_raw q_vec (embedding_vec c) *
                mean_gate_of self q_vec (length valid)) valid.

(** Sample inputs: a retriever with hidden dimension 1 and one with hidden
    dimension 2, built by [__init__] from given draws. *)
Definition retriever1 : GatedContextRetriever :=
  GatedContextRetriever_init 1 1 (-2) [[1]].

Definition retriever2 : GatedContextRetriever :=
  GatedContextRetriever_init 1 2 (-2) [[50; 0]; [0; 0]].

Definition block (name : string) (v : vec) : ContextBlock :=
  {| block_id := name;
     content := name;
     embedding := Some {| ctx_vector := v;
                          ctx_dimension := Z.of_nat (length v);
                          model_id := "default" |};
     relevance_score := None;
     superfluous_score := None;
     noise_score := None |}.

Definition query_of (v : vec) : Query :=
  {| query_id := "q";
     text := "q";
     query_embedding := Some (QueryEmbedding_from_numpy v);
     constraints := [] |}.

(** The state of the three classification scores of a candidate. *)
Definition all_scores_set (c : ContextBlock) : Prop :=
  relevance_score c <> None /\ superfluous_score c <> None /\
  noise_score c <> None.

Definition all_scores_unset (c : ContextBlock) : Prop :=
  relevance_score c = None /\ superfluous_score c = None /\
  noise_score c = None.

(** A computation whose only possible failure is numpy's shape error. *)
Definition only_shape_error {A : Type} (m : result A) : Prop :=
  forall e, m = Raise e -> e = ShapeMismatch.

(** [QueryResult.top_context] *)
Definition top_context (r : QueryResult) : option ContextBlock :=
  match contexts r with
  | [] => None
  | c :: _ => Some c
  end.

(** ** Collaborators of the pipeline and other services *)

(** [list.sort(key=..., reverse=True)] for any element type: stable,
    descending. *)
Fixpoint insert_desc_by {A : Type} (key : A -> R) (x : A) (l : list A)
    : list A :=
  match l with
  | [] => [x]
  | y :: l' =>
      if Rlt_dec (key x) (key y) then y :: insert_desc_by key x l'
      else x :: l
  end.

Definition sort_desc_by {A : Type} (key : A -> R) (l : list A) : list A :=
  fold_right (insert_desc_by key) [] l.

(** *** [adapters/secondary/persistence/in_memory_adapter.py] *)

Module Persistence.

(** The dict [contexts]: keys in insertion order, each key once. *)
Definition store : Type := list (string * ContextBlock).

(** [d.get(k)] *)
Fixpoint dict_get (k : string) (d : store) : option ContextBlock :=
  match d with
  | [] => None
  | (k', v) :: d' => if String.eqb k' k then Some v else dict_get k d'
  end.

(** [d[k] = v]: an existing key keeps its place, a new key goes last. *)
Fixpoint dict_set (k : string) (v : ContextBlock) (d : store) : store :=
  match d with
  | [] => [(k, v)]
  | (k', v') :: d' =>
      if String.eqb k' k then (k, v) :: d' else (k', v') :: dict_set k v d'
  end.

Definition save_context (contexts : store) (context : ContextBlock) : store :=
  dict_set (block_id context) context contexts.

Definition load_context (contexts : store) (context_id : string)
    : option ContextBlock :=
  dict_get context_id contexts.

(** Line 33: the cosine similarity with its guarded denominator ([emb] is
    the parameter [embedding] of [search_similar]). *)
Definition similarity (emb ctx_vec : vec) : result R :=
  d <- dot emb ctx_vec ;;
  Ok (d / (norm emb * norm ctx_vec + 1e-8)).

(** The loop of lines 30-36 over [contexts.values()]. *)
Fixpoint score_contexts (emb : vec) (values : list ContextBlock)
    : result (list (ContextBlock * R)) :=
  match values with
  | [] => Ok []
  | ctx :: rest =>
      match embedding ctx with
      | Some e =>
          sim <- similarity emb (ctx_to_numpy e) ;;
          scores <- score_contexts emb rest ;;
          Ok ((ctx, sim) :: scores)
      | None => score_contexts emb rest
      end
  end.

Definition search_similar (contexts : store) (emb : vec) (top_k : Z)
    : result (list ContextBlock) :=
  match contexts with
  | [] => Ok []
  | _ =>
      scores <- score_contexts emb (map snd contexts) ;;
      let scores := sort_desc_by snd scores in
      Ok (map fst (slice_to top_k scores))
  end.

End Persistence.

(** The similarity that [search_similar] computes for a stored context. *)
Definition cosine (emb : vec) (c : ContextBlock) : R :=
  dot_raw emb (embedding_vec c) /
  (norm emb * norm (embedding_vec c) + 1e-8).

(** *** [domain/model/constraint.py], [application/feedback_handler.py] *)

Module Feedback.

(** The [metadata] dict of a constraint is never read and is left out. *)
Record Constraint : Type := {
  c_type : string;
  weight : R;
  source : string
}.

(** [ConstraintSet.constraints] *)
Definition ConstraintSet : Type := list Constraint.

Fixpoint get_weight (constraints : ConstraintSet) (constraint_type : string)
    : R :=
  match constraints with
  | [] => 0
  | c :: rest =>
      if String.eqb (c_type c) constraint_type then weight c
      else get_weight rest constraint_type
  end.

(** [ConstraintSet.add]: replace if it exists, then append. *)
Definition add (constraints : ConstraintSet) (constraint : Constraint)
    : ConstraintSet :=
  filter (fun c => negb (String.eqb (c_type c) (c_type constraint)))
    constraints ++ [constraint].

(** [ConstraintUpdatedEvent] as published by the handler. *)
Record ConstraintUpdatedEvent : Type := {
  constraint_type : string;
  old_weight : R;
  new_weight : R;
  event_source : string
}.

(** [FeedbackHandler._load_constraints]: the set after [__init__]. *)
Definition load_constraints : ConstraintSet :=
  fold_left add
    [ {| c_type := "basic"; weight := 1; source := "manual" |};
      {| c_type := "moderate"; weight := 0.5; source := "manual" |};
      {| c_type := "advanced"; weight := 0.2; source := "manual" |} ]
    [].

(** [FeedbackHandler.set_constraint_weight]: the new constraint set and the
    event handed to the event bus. *)
Definition set_constraint_weight (constraint_set : ConstraintSet)
    (constraint : string) (w : R) : ConstraintSet * ConstraintUpdatedEvent :=
  (* Clamp weight to valid range *)
  let w := Rmax 0 (Rmin 1 w) in
  let old := get_weight constraint_set constraint in
  let constraint_obj :=
    {| c_type := constraint; weight := w; source := "human" |} in
  (add constraint_set constraint_obj,
   {| constraint_type := constraint;
      old_weight := old;
      new_weight := w;
      event_source := "human_feedback" |}).

(** [FeedbackHandler.submit_feedback]; a Python string is true when it is
    not empty. *)
Definition submit_feedback (constraint_set : ConstraintSet)
    (feedback_type : string) (constraint : option string) (rating : option R)
    (comment : string) : ConstraintSet * option ConstraintUpdatedEvent :=
  match constraint, rating with
  | Some c, Some r =>
      if String.eqb feedback_type "constraint_weight"
         && negb (String.eqb c "")
      then let '(cs, ev) := set_constraint_weight constraint_set c r in
           (cs, Some ev)
      else (constraint_set, None)
  | _, _ => (constraint_set, None)
  end.

(** One call of [submit_feedback], as data. *)
Record feedback : Type := {
  fb_type : string;
  fb_constraint : option string;
  fb_rating : option R;
  fb_comment : string
}.

(** The constraint set of a handler after a sequence of feedback calls. *)
Definition after_feedback (calls : list feedback) : ConstraintSet :=
  fold_left
    (fun cs f =>
       fst (submit_feedback cs (fb_type f) (fb_constraint f) (fb_rating f)
              (fb_comment f)))
    calls load_constraints.

End Feedback.

(** *** [domain/model/curriculum.py], [application/curriculum_handler.py] *)

Module Curriculum.

Record CurriculumStage : Type := {
  stage_number : Z;
  name : string;
  description : string;
  active_constraints : list string;
  difficulty_level : R
}.

(** The [last_updated] stamp is left out. *)
Record LearningProgress : Type := {
  current_stage : Z;
  accuracy_history : list R;
  solve_time_history : list R
}.

Definition add_result (p : LearningProgress) (accuracy solve_time : R)
    : LearningProgress :=
  {| current_stage := current_stage p;
     accuracy_history := accuracy_history p ++ [accuracy];
     solve_time_history := solve_time_history p ++ [solve_time] |}.

(** [l[-n:]] *)
Definition last_n (n : nat) (l : list R) : list R :=
  skipn (length l - n) l.

(** Python's [sum]: a left fold from 0. *)
Definition py_sum (l : list R) : R := fold_left Rplus l 0.

Definition Rleb (a b : R) : bool := if Rle_dec a b then true else false.

Definition should_advance (p : LearningProgress)
    (threshold_accuracy threshold_time : R) : bool :=
  if Nat.ltb (length (accuracy_history p)) 10 then false
  else
    let recent_accuracy := py_sum (last_n 10 (accuracy_history p)) / 10 in
    let recent_time := py_sum (last_n 10 (solve_time_history p)) / 10 in
    Rleb threshold_accuracy recent_accuracy && Rleb recent_time threshold_time.

Record CurriculumHandler : Type := {
  stages : list CurriculumStage;
  progress : option LearningProgress
}.

(** [CurriculumHandler.__init__] followed by [_load_progress]. *)
Definition init : CurriculumHandler :=
  {| stages :=
       [ {| stage_number := 1; name := "Basic";
            description := "Basic constraints only";
            active_constraints := ["basic"%string];
            difficulty_level := 0.2 |};
         {| stage_number := 2; name := "Intermediate";
            description := "Add moderate constraints";
            active_constraints := ["basic"%string; "moderate"%string];
            difficulty_level := 0.5 |};
         {| stage_number := 3; name := "Advanced";
            description := "All constraints active";
            active_constraints :=
              ["basic"%string; "moderate"%string; "advanced"%string];
            difficulty_level := 0.8 |} ];
     progress := Some {| current_stage := 1;
                         accuracy_history := [];
                         solve_time_history := [] |} |}.

Definition get_current_stage (self : CurriculumHandler) : Z :=
  match progress self with
  | None => 1
  | Some p => current_stage p
  end.

(** [get_stage_info]: the stage with the current number, else the first
    stage ([IndexError] when there is no stage at all). *)
Definition get_stage_info (self : CurriculumHandler)
    : result CurriculumStage :=
  let stage_num := get_current_stage self in
  match find (fun st => Z.eqb (stage_number st) stage_num) (stages self) with
  | Some st => Ok st
  | None =>
      match stages self with
      | st :: _ => Ok st
      | [] => Raise IndexError
      end
  end.

Definition get_active_constraints (self : CurriculumHandler)
    : result (list string) :=
  st <- get_stage_info self ;; Ok (active_constraints st).

(** [str(n)] for an integer. *)
Definition str_of_int (n : Z) : string := NilZero.string_of_int (Z.to_int n).

(** [evaluate_progression] with the default thresholds of [should_advance];
    returns the handler after the call and the status message. *)
Definition evaluate_progression (self : CurriculumHandler)
    (accuracy solve_time : R) : CurriculumHandler * string :=
  let p0 :=
    match progress self with
    | None => {| current_stage := 1; accuracy_history := [];
                 solve_time_history := [] |}
    | Some p => p
    end in
  (* Add result *)
  let p := add_result p0 accuracy solve_time in
  (* Check if should advance *)
  let current_stage_num := current_stage p in
  let max_stage := Z.of_nat (length (stages self)) in
  if Z.ltb current_stage_num max_stage && should_advance p 0.9 5 then
    let p' := {| current_stage := current_stage p + 1;
                 accuracy_history := accuracy_history p;
                 solve_time_history := solve_time_history p |} in
    ({| stages := stages self; progress := Some p' |},
     ("Advanced to stage " ++ str_of_int (current_stage p'))%string)
  else
    ({| stages := stages self; progress := Some p |},
     ("Remaining at stage " ++ str_of_int current_stage_num)%string).

Definition reset_curriculum (self : CurriculumHandler) : CurriculumHandler :=
  {| stages := stages self;
     progress := Some {| current_stage := 1; accuracy_history := [];
                         solve_time_history := [] |} |}.

(** The handler after a sequence of [evaluate_progression] calls, each given
    as (accuracy, solve time). *)
Definition after_results (self : CurriculumHandler) (results : list (R * R))
    : CurriculumHandler :=
  fold_left (fun h r => fst (evaluate_progression h (fst r) (snd r)))
    results self.

End Curriculum.

(** *** [infrastructure/circuit_breaker.py] *)

Module Breaker.

Inductive CircuitState : Type := CLOSED | OPEN | HALF_OPEN.

(** [expected_exception] is reflected in the outcome of the protected
    function below. *)
Record CircuitBreakerConfig : Type := {
  failure_threshold : Z;
  success_threshold : Z;
  timeout : R
}.

Definition default_config : CircuitBreakerConfig :=
  {| failure_threshold := 5; success_threshold := 2; timeout := 60 |}.

(** Times are readings of the clock [datetime.utcnow()], in seconds; the
    name of the breaker is only used for logging and is left out. *)
Record CircuitBreaker : Type := {
  config : CircuitBreakerConfig;
  state : CircuitState;
  failure_count : Z;
  success_count : Z;
  last_failure_time : option R;
  last_state_change : R
}.

(** [CircuitBreaker.__init__] at clock reading [now]. *)
Definition init (cfg : CircuitBreakerConfig) (now : R) : CircuitBreaker :=
  {| config := cfg; state := CLOSED; failure_count := 0; success_count := 0;
     last_failure_time := None; last_state_change := now |}.

Definition is_open (s : CircuitState) : bool :=
  match s with OPEN => true | _ => false end.

Definition _should_attempt_reset (self : CircuitBreaker) (now : R) : bool :=
  if negb (is_open (state self)) then false
  else match last_failure_time self with
       | None => true
       | Some t =>
           let elapsed := now - t in
           if Rle_dec (timeout (config self)) elapsed then true else false
       end.

Definition _open_circuit (self : CircuitBreaker) (now : R) : CircuitBreaker :=
  {| config := config self; state := OPEN;
     failure_count := failure_count self; success_count := 0;
     last_failure_time := last_failure_time self;
     last_state_change := now |}.

Definition _close_circuit (self : CircuitBreaker) (now : R) : CircuitBreaker :=
  {| config := config self; state := CLOSED;
     failure_count := 0; success_count := 0;
     last_failure_time := last_failure_time self;
     last_state_change := now |}.

Definition _half_open_circuit (self : CircuitBreaker) (now : R)
    : CircuitBreaker :=
  {| config := config self; state := HALF_OPEN;
     failure_count := failure_count self; success_count := 0;
     last_failure_time := last_failure_time self;
     last_state_change := now |}.

Definition _on_success (self : CircuitBreaker) (now : R) : CircuitBreaker :=
  match state self with
  | HALF_OPEN =>
      let self1 :=
        {| config := config self; state := state self;
           failure_count := failure_count self;
           success_count := success_count self + 1;
           last_failure_time := last_failure_time self;
           last_state_change := last_state_change self |} in
      if Z.leb (success_threshold (config self1)) (success_count self1)
      then _close_circuit self1 now else self1
  | CLOSED =>
      {| config := config self; state := state self;
         failure_count := 0;
         success_count := success_count self;
         last_failure_time := last_failure_time self;
         last_state_change := last_state_change self |}
  | OPEN => self
  end.

Definition _on_failure (self : CircuitBreaker) (now : R) : CircuitBreaker :=
  let self1 :=
    {| config := config self; state := state self;
       failure_count := failure_count self + 1;
       success_count := success_count self;
       last_failure_time := Some now;
       last_state_change := last_state_change self |} in
  match state self1 with
  | HALF_OPEN => _open_circuit self1 now
  | CLOSED =>
      if Z.leb (failure_threshold (config self1)) (failure_count self1)
      then _open_circuit self1 now else self1
  | OPEN => self1
  end.

(** What the protected function does when it is called. *)
Inductive outcome : Type :=
| Returns            (* returns a value *)
| RaisesExpected     (* raises an instance of [expected_exception] *)
| RaisesOther.       (* raises something else *)

(** What [call] does for its caller. *)
Inductive call_result : Type :=
| Returned           (* the value of the function *)
| Reraised           (* the exception of the function *)
| Rejected.          (* [CircuitBreakerOpenError]; the function was not called *)

(** [CircuitBreaker.call] ([call_async] is the same code with [await]);
    [now] is the clock reading during the call. *)
Definition call (self : CircuitBreaker) (now : R) (func : outcome)
    : CircuitBreaker * call_result :=
  let attempt (self : CircuitBreaker) :=
    match func with
    | Returns => (_on_success self now, Returned)
    | RaisesExpected => (_on_failure self now, Reraised)
    | RaisesOther => (self, Reraised)
    end in
  if is_open (state self) then
    if _should_attempt_reset self now
    then attempt (_half_open_circuit self now)
    else (self, Rejected)
  else attempt self.

(** A run of calls, each with its clock reading and what the function does. *)
Definition run (self : CircuitBreaker) (calls : list (R * outcome))
    : CircuitBreaker :=
  fold_left (fun cb c => fst (call cb (fst c) (snd c))) calls self.

End Breaker.

(** *** [infrastructure/retry.py] *)

Module Retry.

Record RetryConfig : Type := {
  max_attempts : Z;
  initial_delay : R;
  max_delay : R;
  exponential_base : R
}.

(** [RetryConfig()] *)
Definition default_config : RetryConfig :=
  {| max_attempts := 3; initial_delay := 1; max_delay := 60;
     exponential_base := 2 |}.

(** What one call of the wrapped function does. *)
Inductive attempt_outcome (V : Type) : Type :=
| Returns (v : V)
| RaisesRetryable      (* an exception of one of [retryable_exceptions] *)
| RaisesOther.         (* any other exception *)
Arguments Returns {V} v.
Arguments RaisesRetryable {V}.
Arguments RaisesOther {V}.

(** What the wrapper does for its caller; [attempt] numbers start at 1. *)
Inductive wrapper_result (V : Type) : Type :=
| Value (v : V)
| Raised (attempt : Z)       (* the exception of that attempt is re-raised *)
| SleepRaised (attempt : Z)  (* [time.sleep] raised after that attempt *)
| ReturnsNone.               (* the loop body never ran *)
Arguments Value {V} v.
Arguments Raised {V} attempt.
Arguments SleepRaised {V} attempt.
Arguments ReturnsNone {V}.

(** [time.sleep] is a parameter [time_sleep : R -> bool], true when the call
    returns.  It raises [ValueError] for a negative delay and
    [OverflowError] for a delay beyond the range of the platform's clock;
    raised inside the [except] block, either exception leaves the wrapper. *)
Definition sleep_sound (time_sleep : R -> bool) : Prop :=
  forall d, d < 0 -> time_sleep d = false.

(** A clock without an upper limit. *)
Definition sleep_nonneg (d : R) : bool :=
  if Rlt_dec d 0 then false else true.

(** The loop of [retry_sync] ([retry_async] is the same code with [await]),
    for a configuration without an [on_retry] callback (the default), so that
    a retry only logs a warning before it sleeps.  [func k] is what the
    [k]-th call of the function does; [todo] counts the attempts still to
    make, [attempt] is the current attempt number.  The result comes with the
    delays of the sleeps that returned, in order. *)
Fixpoint retry_loop {V : Type} (config : RetryConfig)
    (time_sleep : R -> bool) (func : Z -> attempt_outcome V)
    (todo : nat) (attempt : Z) (delay : R) : wrapper_result V * list R :=
  match todo with
  | O => (ReturnsNone, [])
  | S todo' =>
      match func attempt with
      | Returns v => (Value v, [])
      | RaisesOther => (Raised attempt, [])
      | RaisesRetryable =>
          if Z.ltb attempt (max_attempts config) then
            if time_sleep delay then
              let '(r, sleeps) :=
                retry_loop config time_sleep func todo' (attempt + 1)
                  (Rmin (delay * exponential_base config) (max_delay config))
              in (r, delay :: sleeps)
            else (SleepRaised attempt, [])
          else (Raised attempt, [])
      end
  end.

Definition retry_sync {V : Type} (config : RetryConfig)
    (time_sleep : R -> bool) (func : Z -> attempt_outcome V)
    : wrapper_result V * list R :=
  retry_loop config time_sleep func (Z.to_nat (max_attempts config)) 1
    (initial_delay config).

End Retry.

(** ** The binary64 reading of the engine

    The definitions above read Python floats as the real numbers they
    approximate.  Module [F64] is the same code of [decompose] read over
    IEEE-754 binary64, with the kernel's primitive floats: every numpy
    operation rounds to nearest, [np.dot] and [np.linalg.norm] (the square
    root of [x.dot(x)]) accumulate one rounded product after the other in
    index order, and a decimal literal stands for the nearest binary64
    number.  It is used to test, on concrete inputs, which statements that
    are exact over the reals survive rounding, overflow and the absorption of
    the [1e-8] guards. *)

Module F64.

Import PrimFloat.
Local Open Scope float_scope.
Local Set Warnings "-inexact-float".

Definition vec := list float.
Definition matrix := list (list float).

Definition eps : float := 1e-8.

Definition sum (v : vec) : float := fold_left PrimFloat.add v 0.

Definition sq (x : float) : float := x * x.

Fixpoint zip_with (f : float -> float -> float) (a b : vec) : vec :=
  match a, b with
  | x :: a', y :: b' => f x y :: zip_with f a' b'
  | _, _ => []
  end.

Definition dot_raw (a b : vec) : float := sum (zip_with PrimFloat.mul a b).

Definition dot (a b : vec) : result float :=
  if Nat.eqb (length a) (length b) then Ok (dot_raw a b)
  else Raise ShapeMismatch.

Definition norm (v : vec) : float := PrimFloat.sqrt (dot_raw v v).

Definition zeros (n : nat) : vec := repeat 0 n.

Definition vdiv (v : vec) (c : float) : vec := map (fun x => x / c) v.
Definition scale (c : float) (v : vec) : vec := map (fun x => c * x) v.

Definition broadcast (f : float -> float -> float) (a b : vec) : result vec :=
  if Nat.eqb (length a) (length b) then Ok (zip_with f a b)
  else match a, b with
       | [x], _ => Ok (map (f x) b)
       | _, [y] => Ok (map (fun x => f x y) a)
       | _, _ => Raise ShapeMismatch
       end.

Definition iadd (a x : vec) : result vec :=
  if Nat.eqb (length x) (length a) then Ok (zip_with PrimFloat.add a x)
  else match x with
       | [y] => Ok (map (fun t => t + y) a)
       | _ => Raise ShapeMismatch
       end.

Fixpoint cumsum_from (acc : float) (v : vec) : vec :=
  match v with
  | [] => []
  | x :: v' => (acc + x) :: cumsum_from (acc + x) v'
  end.
Definition cumsum (v : vec) : vec := cumsum_from 0 v.

(** [a > b] *)
Definition gtb (a b : float) : bool := PrimFloat.ltb b a.

Fixpoint col (U : matrix) (i : nat) : result vec :=
  match U with
  | [] => Ok []
  | row :: U' =>
      match nth_error row i with
      | None => Raise IndexError
      | Some x => c <- col U' i ;; Ok (x :: c)
      end
  end.

Fixpoint matvec (W : matrix) (x : vec) : result vec :=
  match W with
  | [] => Ok []
  | row :: W' => y <- dot row x ;; ys <- matvec W' x ;; Ok (y :: ys)
  end.

Record DecompositionResult : Type := {
  dr_Y : vec;
  dr_R : vec;
  dr_S : vec;
  dr_N : vec;
  relevance_ratio : float;
  superfluous_ratio : float;
  noise_ratio : float;
  signal_quality : float;
  confidence : float;
  r_components : Z;
  s_components : Z;
  n_components : Z
}.

Record YSRNEngine : Type := {
  relevance_threshold : float;
  noise_threshold : float;
  num_components : Z;
  W_relevance : option matrix;
  W_superfluous : option matrix
}.

Definition YSRNEngine_init (relevance_threshold noise_threshold : float)
    (num_components : Z) : YSRNEngine :=
  {| relevance_threshold := relevance_threshold;
     noise_threshold := noise_threshold;
     num_components := num_components;
     W_relevance := None;
     W_superfluous := None |}.

Definition svd_result : Type := (matrix * vec * matrix)%type.

Section Engine.

(** [np.linalg.svd] on a column, as in the real reading. *)
Variable svd : vec -> option svd_result.

Definition svd_or_fallback (residual : vec) : svd_result :=
  match svd residual with
  | Some usv => usv
  | None => ([[1]], [norm residual], [[1]])
  end.

Fixpoint accumulate_noise (U : matrix) (s : vec) (Vt : matrix)
    (noise_indices : list nat) (N : vec) : result vec :=
  match noise_indices with
  | [] => Ok N
  | i :: rest =>
      if Nat.ltb i (length s) then
        if Nat.ltb i (length Vt) then
          u <- col U i ;;
          x <- broadcast PrimFloat.mul (scale (nth i s 0) u) (nth i Vt []) ;;
          N' <- iadd N x ;;
          accumulate_noise U s Vt rest N'
        else accumulate_noise U s Vt rest N
      else accumulate_noise U s Vt rest N
  end.

Definition decompose (self : YSRNEngine)
    (context_embedding query_embedding : vec) : result DecompositionResult :=
  (* Normalize inputs *)
  let Y := vdiv context_embedding (norm context_embedding + eps) in
  let q := vdiv query_embedding (norm query_embedding + eps) in
  (* Step 1: query-aligned projection *)
  relevance_coeff <- dot Y q ;;
  let R_init := scale relevance_coeff q in
  (* Step 2: orthogonal complement *)
  residual <- broadcast PrimFloat.sub Y R_init ;;
  (* Step 3: separate noise using SVD *)
  let '(U, s, Vt) := svd_or_fallback residual in
  let total_energy := sum (map sq s) in
  let cumulative_energy := vdiv (cumsum (map sq s)) (total_energy + eps) in
  let noise_mask :=
    map (fun e => gtb e (1 - noise_threshold self)) cumulative_energy in
  let noise_indices := where_ noise_mask in
  N <- (match noise_indices with
        | [] => Ok (zeros (length residual))
        | _ => accumulate_noise U s Vt noise_indices (zeros (length residual))
        end) ;;
  S <- broadcast PrimFloat.sub residual N ;;
  (* Step 4: refine R using learned projections (if available) *)
  R <- (match W_relevance self with
        | Some W => matvec W R_init
        | None => Ok R_init
        end) ;;
  (* Compute metrics *)
  let R_norm := norm R in
  let S_norm := norm S in
  let N_norm := norm N in
  let total_norm := R_norm + S_norm + N_norm + eps in
  Ok {| dr_Y := Y;
        dr_R := R;
        dr_S := S;
        dr_N := N;
        relevance_ratio := R_norm / total_norm;
        superfluous_ratio := S_norm / total_norm;
        noise_ratio := N_norm / total_norm;
        signal_quality := R_norm / (S_norm + N_norm + eps);
        confidence := PrimFloat.abs relevance_coeff;
        r_components := 1;
        s_components :=
          Z.max 0 (Z.of_nat (length s) - Z.of_nat (length noise_indices) - 1);
        n_components := Z.of_nat (length noise_indices) |}.

End Engine.

(** A rounded SVD of a column, the counterpart of [svd_col]: [s = [|a|]],
    [u = a / |a|] entry by entry, [Vt = [[1]]]. *)
Definition svd_col (a : vec) : option svd_result :=
  match a with
  | [] => None
  | _ :: a' =>
      if PrimFloat.eqb (norm a) 0
      then Some (map (fun x => [x]) (1 :: zeros (length a')), [0], [[1]])
      else Some (map (fun x => [x]) (vdiv a (norm a)), [norm a], [[1]])
  end.

(** The engine as wired in [rest_api/app.py]. *)
Definition engine0 : YSRNEngine := YSRNEngine_init 0.3 0.1 64.

(** [np.array_equal] *)
Definition array_equal (a b : vec) : bool :=
  Nat.eqb (length a) (length b) &&
  forallb (fun p => PrimFloat.eqb (fst p) (snd p)) (combine a b).

(** [R + S + N], evaluated from the left as Python does. *)
Definition add3 (R S N : vec) : vec :=
  zip_with PrimFloat.add (zip_with PrimFloat.add R S) N.

(** The vector [residual] of line 71. *)
Definition residual_of (context_embedding query_embedding : vec) : vec :=
  let Y := vdiv context_embedding (norm context_embedding + eps) in
  let q := vdiv query_embedding (norm query_embedding + eps) in
  zip_with PrimFloat.sub Y (scale (dot_raw Y q) q).

(** *** Inputs of the replays *)

(** An integer below [2^53] as a float (exact). *)
Fixpoint of_pos (p : positive) : float :=
  match p with
  | xH => 1
  | xO p' => 2 * of_pos p'
  | xI p' => 2 * of_pos p' + 1
  end.

Definition of_Z (z : Z) : float :=
  match z with
  | Z0 => 0
  | Zpos p => of_pos p
  | Zneg p => - of_pos p
  end.

Definition ctx_large : vec := [1e9; 1e9; 1e9].

Definition ctx_near : vec := [1.0; 9e-05; -4e-05].
Definition q_near : vec := [1.0; -0.00013; -3e-05].

(** 256 integer entries: [38000000000] followed by
    [(i * 2654435761) mod 2^32 + 1] for [i = 2 .. 256]. *)
Definition ctx_wide : vec :=
  of_Z 38000000000 ::
  map (fun i => of_Z ((Z.of_nat i * 2654435761) mod 4294967296 + 1))
    (seq 2 255).

(** The first unit vector of length 256. *)
Definition e1_wide : vec := 1 :: zeros 255.

(** *** Rank-one reconstruction

    When the single component is classified as noise, entry [j] of [N] is
    [(s * u_j) * v] with [v = 1] or [v = -1], that is [s * u] rounded for
    some float [u].  [not_a_product s r] certifies that no float [u] gives
    [s * u = r] after rounding, for [s > 0]: rounding is monotone in [u],
    and two neighbouring floats around [r / s] give products strictly on
    either side of [r]. *)
Definition not_a_product (s r : float) : bool :=
  let u0 := r / s in
  let um1 := next_down u0 in
  let um2 := next_down um1 in
  let up1 := next_up u0 in
  let up2 := next_up up1 in
  let gap a b := (s * a <? r) && (r <? s * b) in
  gap um2 um1 || gap um1 u0 || gap u0 up1 || gap up1 up2.

(** Some entry of [r] is not [s * u] rounded, whatever [u]. *)
Definition no_reconstruction (s : float) (r : vec) : bool :=
  existsb (not_a_product s) r.

(** The same for the [k] floats from [lo] downwards and the [k] floats from
    [hi] upwards. *)
Definition no_reconstruction_step (r : vec) (st : float * float * bool)
    : float * float * bool :=
  let '(lo, hi, ok) := st in
  (next_down lo, next_up hi,
   ok && no_reconstruction lo r && no_reconstruction hi r).

Definition no_reconstruction_near (k : positive) (lo hi : float) (r : vec)
    : bool :=
  snd (Pos.iter (no_reconstruction_step r) (lo, hi, true) k).

End F64.

(** *** Invariants of the stateful collaborators *)

(** What every constraint set of a feedback handler satisfies. *)
Definition constraint_set_ok (cs : Feedback.ConstraintSet) : Prop :=
  NoDup (map Feedback.c_type cs) /\
  Forall (fun d => 0 <= Feedback.weight d <= 1) cs /\
  In "basic"%string (map Feedback.c_type cs) /\
  In "moderate"%string (map Feedback.c_type cs) /\
  In "advanced"%string (map Feedback.c_type cs) /\
  ~ In ""%string (map Feedback.c_type cs).

(** What every circuit breaker reached from [init] satisfies, state by
    state. *)
Definition breaker_ok (cb : Breaker.CircuitBreaker) : Prop :=
  match Breaker.state cb with
  | Breaker.CLOSED =>
      (0 <= Breaker.failure_count cb
         < Breaker.failure_threshold (Breaker.config cb))%Z /\
      Breaker.success_count cb = 0%Z
  | Breaker.OPEN =>
      (Breaker.failure_threshold (Breaker.config cb)
         <= Breaker.failure_count cb)%Z /\
      Breaker.success_count cb = 0%Z /\
      Breaker.last_failure_time cb <> None
  | Breaker.HALF_OPEN =>
      (Breaker.failure_threshold (Breaker.config cb)
         <= Breaker.failure_count cb)%Z /\
      (0 <= Breaker.success_count cb
         < Breaker.success_threshold (Breaker.config cb))%Z /\
      Breaker.last_failure_time cb <> None
  end.

(** * Lemmas *)

Section VectorFacts.

Lemma eps_pos : 0 < eps.
Proof. unfold eps; lra. Qed.

Lemma sq_nonneg (x : R) : 0 <= sq x.
Proof. unfold sq; nra. Qed.

Lemma sumsq_nonneg (v : vec) : 0 <= sumsq v.
Proof.
  unfold sumsq; induction v as [|x v IH]; simpl; [lra|].
  pose proof (sq_nonneg x); lra.
Qed.

Lemma sumsq_cons (x : R) (v : vec) : sumsq (x :: v) = x * x + sumsq v.
Proof. reflexivity. Qed.

Lemma norm_nonneg (v : vec) : 0 <= norm v.
Proof. apply sqrt_pos. Qed.

Lemma norm_sq (v : vec) : norm v * norm v = sumsq v.
Proof. apply sqrt_sqrt, sumsq_nonneg. Qed.

Lemma sumsq_zeros (n : nat) : sumsq (zeros n) = 0.
Proof.
  induction n as [|n IH]; [reflexivity|].
  change (zeros (S n)) with (0 :: zeros n). rewrite sumsq_cons, IH. ring.
Qed.

Lemma norm_zeros (n : nat) : norm (zeros n) = 0.
Proof. unfold norm. rewrite sumsq_zeros. apply sqrt_0. Qed.

Lemma length_vdiv (v : vec) (c : R) : length (vdiv v c) = length v.
Proof. apply length_map. Qed.

Lemma length_scale (c : R) (v : vec) : length (scale c v) = length v.
Proof. apply length_map. Qed.

Lemma length_zip_with (f : R -> R -> R) (a b : vec) :
  length a = length b -> length (zip_with f a b) = length a.
Proof.
  revert b; induction a as [|x a IH]; intros [|y b] H; simpl in *;
    try discriminate; auto.
Qed.

Lemma length_zeros (n : nat) : length (zeros n) = n.
Proof. apply repeat_length. Qed.

Lemma broadcast_same (f : R -> R -> R) (a b : vec) :
  length a = length b -> broadcast f a b = Ok (zip_with f a b).
Proof.
  intros H. unfold broadcast. rewrite H, Nat.eqb_refl. reflexivity.
Qed.

Lemma dot_same (a b : vec) :
  length a = length b -> dot a b = Ok (dot_raw a b).
Proof.
  intros H. unfold dot. rewrite H, Nat.eqb_refl. reflexivity.
Qed.

Lemma sumsq_vdiv (v : vec) (c : R) :
  sumsq (vdiv v c) = sumsq v * (/ c * / c).
Proof.
  induction v as [|x v IH]; [unfold sumsq; simpl; ring|].
  unfold vdiv in *. simpl. rewrite !sumsq_cons, IH. unfold Rdiv. ring.
Qed.

Lemma sumsq_scale (c : R) (v : vec) :
  sumsq (scale c v) = c * c * sumsq v.
Proof.
  induction v as [|x v IH]; [unfold sumsq; simpl; ring|].
  unfold scale in *. simpl. rewrite !sumsq_cons, IH. ring.
Qed.

(** Cauchy-Schwarz for the dot product of two lists. *)
Lemma cauchy_schwarz (a b : vec) :
  dot_raw a b * dot_raw a b <= sumsq a * sumsq b.
Proof.
  revert b; induction a as [|x a IH]; intros [|y b].
  - unfold dot_raw, sumsq; simpl; lra.
  - unfold dot_raw; simpl. pose proof (sumsq_nonneg (y :: b)).
    unfold sumsq at 1; simpl. lra.
  - unfold dot_raw; simpl. pose proof (sumsq_nonneg (x :: a)).
    unfold sumsq at 2; simpl. lra.
  - specialize (IH b).
    pose proof (sumsq_nonneg a) as Ha. pose proof (sumsq_nonneg b) as Hb.
    rewrite !sumsq_cons.
    change (dot_raw (x :: a) (y :: b)) with (x * y + dot_raw a b).
    set (D := dot_raw a b) in *. set (A := sumsq a) in *. set (B := sumsq b) in *.
    assert (H2 : 2 * (x * y) * D <= x * x * B + y * y * A).
    { destruct (Rle_dec (2 * (x * y) * D) 0) as [Hn|Hp].
      - nra.
      - apply Rnot_le_lt in Hp.
        apply Rnot_lt_le. intros Hlt.
        assert (HP : 0 <= x * x * B + y * y * A).
        { pose proof (sq_nonneg x). pose proof (sq_nonneg y). unfold sq in *.
          apply Rplus_le_le_0_compat; apply Rmult_le_pos; assumption. }
        assert (Hs : (x * x * B + y * y * A) * (x * x * B + y * y * A)
                     < (2 * (x * y) * D) * (2 * (x * y) * D))
          by (apply Rmult_le_0_lt_compat; assumption).
        assert (Hk : (x * y) * (x * y) * (D * D) <= (x * y) * (x * y) * (A * B)).
        { apply Rmult_le_compat_l; [|assumption].
          pose proof (sq_nonneg (x * y)). unfold sq in *. assumption. }
        assert (Hsq : 0 <= (x * x * B - y * y * A) * (x * x * B - y * y * A)).
        { pose proof (sq_nonneg (x * x * B - y * y * A)). unfold sq in *.
          assumption. }
        lra. }
    lra.
Qed.

Lemma sumsq_zip_plus (a b : vec) :
  length a = length b ->
  sumsq (zip_with Rplus a b) = sumsq a + 2 * dot_raw a b + sumsq b.
Proof.
  revert b; induction a as [|x a IH]; intros [|y b] H; simpl in *;
    try discriminate.
  - unfold sumsq, dot_raw; simpl; ring.
  - rewrite !sumsq_cons, IH by lia.
    change (dot_raw (x :: a) (y :: b)) with (x * y + dot_raw a b). ring.
Qed.

(** Triangle inequality for the Euclidean norm. *)
Lemma norm_triangle (a b : vec) :
  length a = length b ->
  norm (zip_with Rplus a b) <= norm a + norm b.
Proof.
  intros H.
  pose proof (norm_nonneg a) as Ha. pose proof (norm_nonneg b) as Hb.
  pose proof (norm_sq a) as Hsa. pose proof (norm_sq b) as Hsb.
  pose proof (cauchy_schwarz a b) as Hcs.
  assert (Hd : dot_raw a b <= norm a * norm b).
  { apply Rnot_lt_le; intros Hlt.
    assert (0 <= norm a * norm b) by nra.
    assert ((norm a * norm b) * (norm a * norm b) < dot_raw a b * dot_raw a b)
      by nra.
    nra. }
  unfold norm at 1. rewrite sumsq_zip_plus by assumption.
  rewrite <- (sqrt_square (norm a + norm b)) by lra.
  apply sqrt_le_1_alt. nra.
Qed.

End VectorFacts.

(** ** The spectral split *)

Section SpectralSplit.

Variable svd : vec -> option svd_result.
Hypothesis svd_ok : svd_sound svd.

Lemma zip_plus_zeros (x : vec) :
  zip_with Rplus (zeros (length x)) x = x.
Proof.
  unfold zeros. induction x as [|a x IH]; [reflexivity|].
  simpl. rewrite IH. f_equal. ring.
Qed.

Lemma col_singletons (u : vec) : col (map (fun x => [x]) u) 0 = Ok u.
Proof.
  induction u as [|x u IH]; [reflexivity|].
  simpl. rewrite IH. reflexivity.
Qed.

Lemma length_broadcast_scalar (f : R -> R -> R) (a : vec) (y : R) :
  exists x, broadcast f a [y] = Ok x /\ length x = length a /\
            x = map (fun t => f t y) a.
Proof.
  unfold broadcast. destruct a as [|a0 [|a1 a]]; simpl.
  - exists []. auto.
  - exists [f a0 y]. auto.
  - eexists; split; [reflexivity|]. split; [|reflexivity].
    simpl. rewrite length_map. reflexivity.
Qed.

Lemma iadd_length (a x : vec) :
  length x = length a \/ length x = 1%nat ->
  exists a', iadd a x = Ok a' /\ length a' = length a.
Proof.
  intros [H|H]; unfold iadd.
  - rewrite H, Nat.eqb_refl. eexists; split; [reflexivity|].
    apply length_zip_with. auto.
  - destruct (Nat.eqb (length x) (length a)) eqn:E.
    + apply Nat.eqb_eq in E. eexists; split; [reflexivity|].
      apply length_zip_with. auto.
    + destruct x as [|y [|z x]]; simpl in H; try discriminate.
      eexists; split; [reflexivity|]. apply length_map.
Qed.

(** The singular value is the norm of the column. *)
Lemma svd_singular_value (a u : vec) (s0 v : R) :
  0 <= s0 -> sumsq u = 1 -> v * v = 1 ->
  a = map (fun x => x * s0 * v) u -> s0 = norm a.
Proof.
  intros Hs Hu Hv Ha.
  assert (E : sumsq a = s0 * s0).
  { subst a. transitivity (s0 * s0 * (v * v) * sumsq u); [|rewrite Hu, Hv; ring].
    clear Hu. induction u as [|x u IH]; [unfold sumsq; simpl; ring|].
    simpl. rewrite !sumsq_cons, IH. ring. }
  unfold norm. rewrite E. symmetry. apply sqrt_square. assumption.
Qed.

(** Whatever the SVD returns, and also when it fails, the loop produces a
    vector of the length of the residual. *)
Lemma noise_component_total (t : R) (r : vec) :
  exists Nv, noise_component svd t r = Ok Nv /\ length Nv = length r.
Proof.
  unfold noise_component, svd_or_fallback.
  destruct (svd r) as [[[U s] Vt]|] eqn:E.
  - pose proof (svd_ok _ _ _ _ E) as Hc.
    destruct r as [|r0 r'].
    + destruct Hc as (-> & -> & ->). simpl. exists []. auto.
    + destruct Hc as (u & s0 & v & -> & -> & -> & Hl & Hs & Hu & Hv & Ha).
      set (n := length (r0 :: r')) in *.
      cbn [map cumsum cumsum_from vdiv where_ where_from].
      destruct (Rgtb _ _).
      * cbn [accumulate_noise length Nat.ltb Nat.leb nth].
        rewrite col_singletons. cbn [bind].
        destruct (length_broadcast_scalar Rmult (scale s0 u) v)
          as (x & Hx & Hlx & _).
        rewrite Hx. cbn [bind].
        destruct (iadd_length (zeros n) x) as (a' & Ha' & Hla').
        { left. rewrite Hlx, length_scale, length_zeros. assumption. }
        rewrite Ha'. cbn [bind]. exists a'. split; [reflexivity|].
        rewrite Hla'. apply length_zeros.
      * exists (zeros n). split; [reflexivity|].
        apply length_zeros.
  - set (n := length r).
    cbn [map cumsum cumsum_from vdiv where_ where_from].
    destruct (Rgtb _ _).
    + cbn [accumulate_noise length Nat.ltb Nat.leb nth col nth_error bind scale map].
      rewrite broadcast_same by reflexivity. cbn [bind zip_with].
      destruct (iadd_length (zeros n) [norm r * 1 * 1]) as (a' & Ha' & Hla').
      { right. reflexivity. }
      rewrite Ha'. cbn [bind]. exists a'. split; [reflexivity|].
      rewrite Hla'. apply length_zeros.
    + exists (zeros n). split; [reflexivity|]. apply length_zeros.
Qed.

End SpectralSplit.

(** ** Shape of a result of [decompose] *)

Section DecomposeFacts.

Variable svd : vec -> option svd_result.
Hypothesis svd_ok : svd_sound svd.

(** The three cases of the noise vector: no component selected, the whole
    residual (SVD path), or the broadcast singular value (fallback path). *)
Lemma noise_component_cases (t : R) (r Nv : vec) :
  noise_component svd t r = Ok Nv ->
  Nv = zeros (length r) \/ Nv = r \/
  (svd r = None /\ Nv = map (fun x => x + norm r * 1 * 1) (zeros (length r))).
Proof.
  unfold noise_component, svd_or_fallback.
  destruct (svd r) as [[[U s] Vt]|] eqn:E.
  - pose proof (svd_ok _ _ _ _ E) as Hc.
    destruct r as [|r0 r'].
    + destruct Hc as (-> & -> & ->). simpl. intros H; inversion H. auto.
    + destruct Hc as (u & s0 & v & -> & -> & -> & Hl & Hs & Hu & Hv & Ha).
      remember (length (r0 :: r')) as n eqn:Hn.
      cbn [map cumsum cumsum_from vdiv where_ where_from].
      destruct (Rgtb _ _).
      * cbn [accumulate_noise length Nat.ltb Nat.leb nth].
        rewrite col_singletons. cbn [bind].
        destruct (length_broadcast_scalar Rmult (scale s0 u) v)
          as (x & Hx & Hlx & Hxe).
        rewrite Hx. cbn [bind]. unfold iadd.
        rewrite Hlx, length_scale, length_zeros, Hl, Nat.eqb_refl.
        cbn [bind]. intros [= <-].
        right; left.
        replace n with (length x)
          by (rewrite Hlx, length_scale; assumption).
        rewrite zip_plus_zeros, Hxe, Ha. unfold scale. rewrite map_map.
        apply map_ext. intros a. ring.
      * intros H; inversion H. auto.
  - set (n := length r).
    cbn [map cumsum cumsum_from vdiv where_ where_from].
    destruct (Rgtb _ _).
    + cbn [accumulate_noise length Nat.ltb Nat.leb nth col nth_error bind scale map].
      rewrite broadcast_same by reflexivity. cbn [bind zip_with].
      unfold iadd. rewrite length_zeros. cbn [length].
      destruct (Nat.eqb 1 n) eqn:En.
      * apply Nat.eqb_eq in En. rewrite <- En. simpl.
        intros H; inversion H. right; right. auto.
      * cbn [bind]. intros H; inversion H. right; right. auto.
    + intros H; inversion H. auto.
Qed.

(** With a converging SVD and enough energy in the residual, the single
    component is selected and [N] is the residual itself. *)
Lemma noise_component_degenerate (t : R) (r : vec) :
  svd_converges svd -> 0 < t < 1 ->
  sumsq r > (1 - t) / t * eps ->
  noise_component svd t r = Ok r.
Proof.
  intros Hconv Ht Hr.
  assert (Hpos : 0 < (1 - t) / t * eps).
  { apply Rmult_lt_0_compat; [|apply eps_pos].
    apply Rdiv_lt_0_compat; lra. }
  assert (Hne : r <> []).
  { intros ->. unfold sumsq in Hr; simpl in Hr. lra. }
  unfold noise_component, svd_or_fallback.
  destruct (svd r) as [[[U s] Vt]|] eqn:E; [|exfalso; exact (Hconv r Hne E)].
  pose proof (svd_ok _ _ _ _ E) as Hc.
  destruct r as [|r0 r']; [congruence|].
  destruct Hc as (u & s0 & v & -> & -> & -> & Hl & Hs & Hu & Hv & Ha).
  pose proof (svd_singular_value _ _ _ _ Hs Hu Hv Ha) as Hs0.
  remember (length (r0 :: r')) as n eqn:Hn.
  cbn [map cumsum cumsum_from vdiv where_ where_from sum].
  assert (Hm : Rgtb ((0 + sq s0) / (sq s0 + 0 + eps)) (1 - t) = true).
  { unfold Rgtb. destruct (Rlt_dec _ _) as [|Hnlt]; [reflexivity|].
    exfalso; apply Hnlt.
    assert (Hq : sq s0 = sumsq (r0 :: r')).
    { unfold sq. rewrite Hs0. apply norm_sq. }
    rewrite Hq. set (e := sumsq (r0 :: r')) in *.
    pose proof eps_pos as He.
    assert (Hte : (1 - t) * eps < t * e).
    { apply (Rmult_lt_compat_l t) in Hr; [|lra].
      replace (t * ((1 - t) / t * eps)) with ((1 - t) * eps) in Hr
        by (field; lra).
      lra. }
    apply (Rmult_lt_reg_r (e + 0 + eps)); [lra|].
    replace ((0 + e) / (e + 0 + eps) * (e + 0 + eps)) with e by (field; lra).
    lra. }
  rewrite Hm.
  cbn [accumulate_noise length Nat.ltb Nat.leb nth].
  rewrite col_singletons. cbn [bind].
  destruct (length_broadcast_scalar Rmult (scale s0 u) v)
    as (x & Hx & Hlx & Hxe).
  rewrite Hx. cbn [bind]. unfold iadd.
  rewrite Hlx, length_scale, length_zeros, Hl, Nat.eqb_refl.
  cbn [bind]. f_equal.
  replace n with (length x) by (rewrite Hlx, length_scale; assumption).
  rewrite zip_plus_zeros, Hxe, Ha. unfold scale. rewrite map_map.
  apply map_ext. intros a. ring.
Qed.

End DecomposeFacts.

Section DecomposeShape.

Variable svd : vec -> option svd_result.
Hypothesis svd_ok : svd_sound svd.

Ltac enter_decompose H Hl :=
  unfold decompose in H;
  rewrite dot_same in H by (rewrite !length_vdiv; exact Hl);
  cbn [bind] in H;
  rewrite broadcast_same in H
    by (rewrite length_scale, !length_vdiv; exact Hl);
  cbn [bind] in H.

Lemma length_residual (ctx q : vec) (c : R) :
  length ctx = length q ->
  length (zip_with Rminus (vdiv ctx (norm ctx + eps))
            (scale c (vdiv q (norm q + eps)))) = length ctx.
Proof.
  intros Hl. rewrite length_zip_with; [apply length_vdiv|].
  rewrite length_scale, !length_vdiv. exact Hl.
Qed.

(** Every successful call has the shape read off the source: the result is
    determined by the normalised inputs, the noise vector and the (possibly
    refined) relevant vector. *)
Lemma decompose_inv (self : YSRNEngine) (ctx q : vec)
    (res : DecompositionResult) :
  length ctx = length q ->
  decompose svd self ctx q = Ok res ->
  let Y := vdiv ctx (norm ctx + eps) in
  let qn := vdiv q (norm q + eps) in
  let c := dot_raw Y qn in
  let Ri := scale c qn in
  let r := zip_with Rminus Y Ri in
  exists Nv Rv,
    noise_component svd (noise_threshold self) r = Ok Nv /\
    length Nv = length ctx /\
    match W_relevance self with
    | Some W => matvec W Ri = Ok Rv
    | None => Rv = Ri
    end /\
    dr_Y res = Y /\ dr_R res = Rv /\
    dr_S res = zip_with Rminus r Nv /\ dr_N res = Nv /\
    relevance_ratio res =
      norm (dr_R res) / (norm (dr_R res) + norm (dr_S res) + norm (dr_N res) + eps) /\
    superfluous_ratio res =
      norm (dr_S res) / (norm (dr_R res) + norm (dr_S res) + norm (dr_N res) + eps) /\
    noise_ratio res =
      norm (dr_N res) / (norm (dr_R res) + norm (dr_S res) + norm (dr_N res) + eps) /\
    signal_quality res =
      norm (dr_R res) / (norm (dr_S res) + norm (dr_N res) + eps) /\
    confidence res = Rabs c /\
    n_components res =
      Z.of_nat (length (noise_indices_of svd (noise_threshold self) r)) /\
    s_components res =
      Z.max 0 (Z.of_nat (length (singular_values_of svd r))
               - Z.of_nat (length (noise_indices_of svd (noise_threshold self) r))
               - 1).
Proof.
  intros Hl H Y qn c Ri r.
  enter_decompose H Hl.
  fold Y qn c Ri r in H.
  destruct (noise_component_total svd svd_ok (noise_threshold self) r)
    as (Nv & HN & HlN).
  assert (Hlr : length r = length ctx) by (apply length_residual; exact Hl).
  pose proof HN as HN0.
  unfold noise_component in HN.
  unfold noise_indices_of, singular_values_of.
  remember (svd_or_fallback svd r) as usv eqn:Husv.
  destruct usv as [[U s] Vt].
  cbv zeta in HN. cbv beta iota zeta in H.
  rewrite HN in H. cbn [bind] in H.
  rewrite broadcast_same in H by congruence. cbn [bind] in H.
  exists Nv.
  destruct (W_relevance self) as [W|].
  - destruct (matvec W Ri) as [Rv|e] eqn:EW; cbn [bind] in H; [|discriminate].
    exists Rv. injection H as <-. cbn.
    repeat split; try reflexivity; try assumption; congruence.
  - cbn [bind] in H. exists Ri. injection H as <-. cbn.
    repeat split; try reflexivity; try assumption; congruence.
Qed.

(** [decompose] returns on equal-length inputs as soon as the optional
    projection can be applied. *)
Lemma decompose_returns (self : YSRNEngine) (ctx q : vec) :
  length ctx = length q ->
  projection_applicable self (length q) ->
  exists res, decompose svd self ctx q = Ok res.
Proof.
  intros Hl HW. unfold projection_applicable in HW.
  set (Y := vdiv ctx (norm ctx + eps)).
  set (qn := vdiv q (norm q + eps)).
  set (c := dot_raw Y qn). set (Ri := scale c qn).
  set (r := zip_with Rminus Y Ri).
  destruct (noise_component_total svd svd_ok (noise_threshold self) r)
    as (Nv & HN & HlN).
  assert (Hlr : length r = length ctx) by (apply length_residual; exact Hl).
  assert (HR : exists Rv, match W_relevance self with
                          | Some W => matvec W Ri
                          | None => Ok Ri
                          end = Ok Rv).
  { destruct (W_relevance self) as [W|]; [|eauto].
    assert (HlR : length Ri = length q)
      by (unfold Ri, qn; rewrite length_scale, length_vdiv; reflexivity).
    clear - HW HlR. induction W as [|row W IH]; [simpl; eauto|].
    inversion HW as [|? ? Hrow HW']; subst.
    destruct (IH HW') as (ys & Hys). simpl.
    rewrite dot_same by congruence. cbn [bind]. rewrite Hys. cbn [bind]. eauto. }
  destruct HR as (Rv & HRv).
  unfold decompose.
  rewrite dot_same by (rewrite !length_vdiv; exact Hl). cbn [bind].
  rewrite broadcast_same by (rewrite length_scale, !length_vdiv; exact Hl).
  cbn [bind]. fold Y qn c Ri r.
  unfold noise_component in HN.
  destruct (svd_or_fallback svd r) as [[U s] Vt].
  cbv zeta in HN. cbv beta iota zeta.
  rewrite HN. cbn [bind].
  rewrite broadcast_same by congruence. cbn [bind].
  rewrite HRv. cbn [bind]. eauto.
Qed.

End DecomposeShape.

(** ** The reference instances meet their contracts *)

Section Instances.

Lemma sumsq_zero_all (v : vec) : sumsq v = 0 -> Forall (fun x => x = 0) v.
Proof.
  induction v as [|x v IH]; [constructor|].
  rewrite sumsq_cons. intros H.
  pose proof (sumsq_nonneg v) as Hv.
  assert (Hx : 0 <= x * x) by nra.
  constructor; [nra|]. apply IH. lra.
Qed.

Lemma svd_col_sound : svd_sound svd_col.
Proof.
  intros a U s Vt H. destruct a as [|a0 a']; [discriminate|].
  unfold svd_col in H.
  destruct (Req_dec_T (norm (a0 :: a')) 0) as [Hz|Hnz];
    injection H as <- <- <-.
  - exists (1 :: zeros (length a')), 0, 1.
    repeat split; try reflexivity; try lra.
    + simpl. rewrite length_zeros. reflexivity.
    + rewrite sumsq_cons, sumsq_zeros. ring.
    + assert (Hs : sumsq (a0 :: a') = 0).
      { rewrite <- norm_sq, Hz. ring. }
      apply sumsq_zero_all in Hs. inversion Hs as [|? ? H0 Hrest]; subst.
      simpl. f_equal; [ring|].
      clear - Hrest. unfold zeros.
      induction a' as [|x a' IH]; [reflexivity|].
      inversion Hrest; subst. simpl. f_equal; [ring|auto].
  - exists (vdiv (a0 :: a') (norm (a0 :: a'))), (norm (a0 :: a')), 1.
    repeat split; try reflexivity; try lra.
    + apply length_vdiv.
    + apply norm_nonneg.
    + rewrite sumsq_vdiv, <- norm_sq. field. exact Hnz.
    + unfold vdiv. rewrite map_map.
      rewrite <- (map_id (a0 :: a')) at 1. apply map_ext.
      intros x. field. exact Hnz.
Qed.

Lemma svd_col_converges : svd_converges svd_col.
Proof.
  intros a Ha. destruct a as [|a0 a']; [congruence|].
  unfold svd_col. destruct (Req_dec_T _ _); discriminate.
Qed.

End Instances.

(** * The decomposition engine *)

Lemma zip_recompose (Y Ri Nv : vec) :
  length Ri = length Y -> length Nv = length Y ->
  zip_with Rplus
    (zip_with Rplus Ri (zip_with Rminus (zip_with Rminus Y Ri) Nv)) Nv = Y.
Proof.
  revert Ri Nv; induction Y as [|y Y IH]; intros [|a Ri] [|n Nv] H1 H2;
    simpl in *; try discriminate; try reflexivity.
  rewrite IH by lia. f_equal. ring.
Qed.

(** C8 (amended).  In exact real arithmetic: with no learned projection
    ([W_relevance] is [None]) and inputs of equal dimension, [decompose]
    returns and the returned vectors add up, [R + S + N = Y] (numpy [+] on
    the three arrays).  In binary64 the sum equals [Y] only up to rounding,
    see [decompose_sum_differs_from_context]. *)
Theorem decompose_additive_identity
    (svd : vec -> option svd_result) (self : YSRNEngine) (ctx q : vec) :
  svd_sound svd ->
  W_relevance self = None ->
  length ctx = length q ->
  exists res,
    decompose svd self ctx q = Ok res /\
    (rs <- broadcast Rplus (dr_R res) (dr_S res) ;;
     broadcast Rplus rs (dr_N res)) = Ok (dr_Y res).
Proof.
  intros Hsvd HW Hl.
  destruct (decompose_returns svd Hsvd self ctx q Hl) as (res & Hres).
  { unfold projection_applicable. rewrite HW. exact I. }
  exists res. split; [exact Hres|].
  destruct (decompose_inv svd Hsvd self ctx q res Hl Hres)
    as (Nv & Rv & _ & HlN & HR & HY & HRv & HS & HNv & _).
  rewrite HW in HR. subst Rv.
  rewrite HY, HRv, HS, HNv.
  set (Y := vdiv ctx (norm ctx + eps)) in *.
  set (Ri := scale (dot_raw Y (vdiv q (norm q + eps))) (vdiv q (norm q + eps))) in *.
  assert (HlY : length Y = length ctx) by apply length_vdiv.
  assert (HlR : length Ri = length Y).
  { unfold Ri. rewrite length_scale, length_vdiv. congruence. }
  assert (Hlr : length (zip_with Rminus Y Ri) = length Y)
    by (apply length_zip_with; congruence).
  assert (HlS : length (zip_with Rminus (zip_with Rminus Y Ri) Nv) = length Y).
  { rewrite length_zip_with; congruence. }
  rewrite broadcast_same by congruence. cbn [bind].
  rewrite broadcast_same.
  - f_equal. apply zip_recompose; congruence.
  - rewrite length_zip_with; congruence.
Qed.

Lemma decompose_additive_identity_witness :
  exists res,
    decompose svd_col engine0 [3; 4] [1; 0] = Ok res /\
    (rs <- broadcast Rplus (dr_R res) (dr_S res) ;;
     broadcast Rplus rs (dr_N res)) = Ok (dr_Y res).
Proof.
  apply (decompose_additive_identity svd_col engine0 [3; 4] [1; 0]).
  - exact svd_col_sound.
  - reflexivity.
  - reflexivity.
Defined.

Section Normalisation.

Lemma normalised_sumsq_le_1 (v : vec) :
  sumsq (vdiv v (norm v + eps)) <= 1.
Proof.
  rewrite sumsq_vdiv, <- norm_sq.
  pose proof (norm_nonneg v) as Hm. pose proof eps_pos as He.
  set (m := norm v) in *.
  assert (Hk : / (m + eps) * (m + eps) = 1) by (field; lra).
  assert (Hkpos : 0 < / (m + eps)) by (apply Rinv_0_lt_compat; lra).
  set (k := / (m + eps)) in *.
  assert (Hmk : m * k <= 1) by nra.
  assert (Hmk0 : 0 <= m * k) by nra.
  replace (m * m * (k * k)) with ((m * k) * (m * k)) by ring. nra.
Qed.

Lemma normalised_norm (v : vec) :
  norm (vdiv v (norm v + eps)) = norm v / (norm v + eps).
Proof.
  unfold norm at 1. rewrite sumsq_vdiv, <- norm_sq.
  pose proof (norm_nonneg v) as Hm. pose proof eps_pos as He.
  set (m := norm v) in *.
  assert (Hkpos : 0 < / (m + eps)) by (apply Rinv_0_lt_compat; lra).
  replace (m * m * (/ (m + eps) * / (m + eps)))
    with ((m / (m + eps)) * (m / (m + eps))) by (unfold Rdiv; ring).
  apply sqrt_square. unfold Rdiv. nra.
Qed.

Lemma Rabs_le_1_of_sq (c : R) : c * c <= 1 -> 0 <= Rabs c <= 1.
Proof.
  intros H. split; [apply Rabs_pos|].
  unfold Rabs. destruct (Rcase_abs c); nra.
Qed.

End Normalisation.



(** C10.  [decompose] is total on equal-dimension real vectors (the zero
    vector included): it returns a result and raises nothing; every
    denominator it divides by is at least the guard [1e-8]; and when the SVD
    call fails the values used are the single-component fallback whose
    singular value is the norm of the residual. *)
Theorem decompose_total
    (svd : vec -> option svd_result) (self : YSRNEngine) (ctx q : vec) :
  svd_sound svd ->
  length ctx = length q ->
  projection_applicable self (length q) ->
  (exists res,
     decompose svd self ctx q = Ok res /\
     eps <= norm (dr_R res) + norm (dr_S res) + norm (dr_N res) + eps /\
     eps <= norm (dr_S res) + norm (dr_N res) + eps) /\
  eps <= norm ctx + eps /\
  eps <= norm q + eps /\
  (forall r, eps <= sum (map sq (singular_values_of svd r)) + eps) /\
  (forall r, svd r = None ->
             svd_or_fallback svd r = ([[1]], [norm r], [[1]])).
Proof.
  intros Hsvd Hl HW. repeat split.
  - destruct (decompose_returns svd Hsvd self ctx q Hl HW) as (res & Hres).
    exists res. split; [exact Hres|].
    pose proof (norm_nonneg (dr_R res)). pose proof (norm_nonneg (dr_S res)).
    pose proof (norm_nonneg (dr_N res)). split; lra.
  - pose proof (norm_nonneg ctx). lra.
  - pose proof (norm_nonneg q). lra.
  - intros r. pose proof (sumsq_nonneg (singular_values_of svd r)) as H.
    unfold sumsq in H. lra.
  - intros r H. unfold svd_or_fallback. rewrite H. reflexivity.
Qed.

Lemma decompose_total_witness :
  (exists res,
     decompose svd_col engine0 [0; 0; 0] [0; 0; 0] = Ok res /\
     eps <= norm (dr_R res) + norm (dr_S res) + norm (dr_N res) + eps /\
     eps <= norm (dr_S res) + norm (dr_N res) + eps) /\
  eps <= norm [0; 0; 0] + eps /\
  eps <= norm [0; 0; 0] + eps /\
  (forall r, eps <= sum (map sq (singular_values_of svd_col r)) + eps) /\
  (forall r, svd_col r = None ->
             svd_or_fallback svd_col r = ([[1]], [norm r], [[1]])).
Proof.
  apply (decompose_total svd_col engine0 [0; 0; 0] [0; 0; 0]).
  - exact svd_col_sound.
  - reflexivity.
  - exact I.
Defined.

Section Degenerate.

Variable svd : vec -> option svd_result.
Hypothesis svd_ok : svd_sound svd.
Hypothesis svd_conv : svd_converges svd.

(** Under the energy condition the mask selects the single component. *)
Lemma noise_indices_degenerate (t : R) (r : vec) :
  0 < t < 1 ->
  sumsq r > (1 - t) / t * eps ->
  noise_indices_of svd t r = [0%nat] /\
  length (singular_values_of svd r) = 1%nat.
Proof.
  intros Ht Hr.
  assert (Hpos : 0 < (1 - t) / t * eps).
  { apply Rmult_lt_0_compat; [|apply eps_pos].
    apply Rdiv_lt_0_compat; lra. }
  assert (Hne : r <> []).
  { intros ->. unfold sumsq in Hr; simpl in Hr. lra. }
  unfold noise_indices_of, singular_values_of, svd_or_fallback.
  destruct (svd r) as [[[U s] Vt]|] eqn:E; [|exfalso; exact (svd_conv r Hne E)].
  pose proof (svd_ok _ _ _ _ E) as Hc.
  destruct r as [|r0 r']; [congruence|].
  destruct Hc as (u & s0 & v & -> & -> & -> & Hl & Hs & Hu & Hv & Ha).
  pose proof (svd_singular_value _ _ _ _ Hs Hu Hv Ha) as Hs0.
  cbn [map cumsum cumsum_from vdiv where_ where_from sum length].
  split; [|reflexivity].
  assert (Hm : Rgtb ((0 + sq s0) / (sq s0 + 0 + eps)) (1 - t) = true).
  { unfold Rgtb. destruct (Rlt_dec _ _) as [|Hnlt]; [reflexivity|].
    exfalso; apply Hnlt.
    assert (Hq : sq s0 = sumsq (r0 :: r')).
    { unfold sq. rewrite Hs0. apply norm_sq. }
    rewrite Hq. set (e := sumsq (r0 :: r')) in *.
    pose proof eps_pos as He.
    assert (Hte : (1 - t) * eps < t * e).
    { apply (Rmult_lt_compat_l t) in Hr; [|lra].
      replace (t * ((1 - t) / t * eps)) with ((1 - t) * eps) in Hr
        by (field; lra).
      lra. }
    apply (Rmult_lt_reg_r (e + 0 + eps)); [lra|].
    replace ((0 + e) / (e + 0 + eps) * (e + 0 + eps)) with e by (field; lra).
    lra. }
  rewrite Hm. reflexivity.
Qed.

Lemma zip_minus_self (r : vec) : zip_with Rminus r r = zeros (length r).
Proof.
  unfold zeros. induction r as [|x r IH]; [reflexivity|].
  simpl. rewrite IH. f_equal. ring.
Qed.

End Degenerate.


Lemma norm_0_1 : norm [0; 1] = 1.
Proof.
  unfold norm. replace (sumsq [0; 1]) with 1; [apply sqrt_1|].
  unfold sumsq, sq; simpl; ring.
Qed.

Lemma norm_1_0 : norm [1; 0] = 1.
Proof.
  unfold norm. replace (sumsq [1; 0]) with 1; [apply sqrt_1|].
  unfold sumsq, sq; simpl; ring.
Qed.


(** ** Ratios *)

Section Ratios.

Lemma all_zero_vdiv (v : vec) (c : R) : all_zero v -> all_zero (vdiv v c).
Proof.
  unfold all_zero, vdiv. induction 1 as [|x v Hx _ IH]; simpl; constructor; auto.
  subst x. unfold Rdiv. ring.
Qed.

Lemma all_zero_dot (a b : vec) : all_zero a -> dot_raw a b = 0.
Proof.
  unfold all_zero. intros H. revert b.
  induction H as [|x a Hx _ IH]; intros [|y b]; try reflexivity.
  change (dot_raw (x :: a) (y :: b)) with (x * y + dot_raw a b).
  rewrite IH, Hx. ring.
Qed.

Lemma all_zero_scale_0 (v : vec) : all_zero (scale 0 v).
Proof.
  unfold all_zero, scale. induction v; simpl; constructor; auto. ring.
Qed.

Lemma all_zero_zip_minus (a b : vec) :
  all_zero a -> all_zero b -> all_zero (zip_with Rminus a b).
Proof.
  unfold all_zero. intros Ha. revert b.
  induction Ha as [|x a Hx _ IH]; intros b Hb; [constructor|].
  destruct Hb as [|y b Hy Hb]; [constructor|].
  simpl. constructor; [subst; ring|auto].
Qed.

Lemma all_zero_zeros (n : nat) : all_zero (zeros n).
Proof. unfold all_zero, zeros. induction n; simpl; constructor; auto. Qed.

Lemma all_zero_sumsq (v : vec) : all_zero v -> sumsq v = 0.
Proof.
  unfold all_zero. induction 1 as [|x v Hx _ IH]; [reflexivity|].
  rewrite sumsq_cons, IH, Hx. ring.
Qed.

Lemma all_zero_norm (v : vec) : all_zero v -> norm v = 0.
Proof.
  intros H. unfold norm. rewrite all_zero_sumsq by assumption. apply sqrt_0.
Qed.

Lemma all_zero_map_plus_0 (c : R) (n : nat) :
  c = 0 -> all_zero (map (fun x => x + c * 1 * 1) (zeros n)).
Proof.
  intros ->. unfold all_zero, zeros.
  induction n; simpl; constructor; auto. ring.
Qed.

(** A zero context embedding gives three zero ratios. *)
Lemma decompose_zero_context
    (svd : vec -> option svd_result) (self : YSRNEngine) (ctx q : vec)
    (res : DecompositionResult) :
  svd_sound svd -> W_relevance self = None ->
  length ctx = length q -> all_zero ctx ->
  decompose svd self ctx q = Ok res ->
  relevance_ratio res = 0 /\ superfluous_ratio res = 0 /\ noise_ratio res = 0.
Proof.
  intros Hsvd HW Hl Hz Hres.
  destruct (decompose_inv svd Hsvd self ctx q res Hl Hres)
    as (Nv & Rv & HN & _ & HR & _ & HRv & HS & HNv & Hrr & Hsr & Hnr & _).
  rewrite HW in HR. subst Rv.
  set (Y := vdiv ctx (norm ctx + eps)) in *.
  set (qn := vdiv q (norm q + eps)) in *.
  assert (HY : all_zero Y) by (apply all_zero_vdiv; exact Hz).
  assert (Hc : dot_raw Y qn = 0) by (apply all_zero_dot; exact HY).
  rewrite Hc in *.
  assert (HRi : all_zero (scale 0 qn)) by apply all_zero_scale_0.
  assert (Hr : all_zero (zip_with Rminus Y (scale 0 qn)))
    by (apply all_zero_zip_minus; assumption).
  assert (HNz : all_zero Nv).
  { destruct (noise_component_cases svd Hsvd _ _ _ HN) as [->|[->|[_ ->]]].
    - apply all_zero_zeros.
    - exact Hr.
    - apply all_zero_map_plus_0. apply all_zero_norm. exact Hr. }
  assert (HSz : all_zero (dr_S res)).
  { rewrite HS. apply all_zero_zip_minus; assumption. }
  rewrite Hrr, Hsr, Hnr.
  rewrite (all_zero_norm (dr_S res)) by exact HSz.
  rewrite (all_zero_norm (dr_N res)) by (rewrite HNv; exact HNz).
  rewrite (all_zero_norm (dr_R res)) by (rewrite HRv; exact HRi).
  unfold Rdiv. repeat split; ring.
Qed.

Lemma ratio_sum (a b c : R) :
  0 <= a -> 0 <= b -> 0 <= c ->
  let D := a + b + c + eps in
  0 <= a / D /\ 0 <= b / D /\ 0 <= c / D /\
  a / D + b / D + c / D < 1 /\
  (1 - 1e-6 <= a / D + b / D + c / D <-> 1e-2 - eps <= a + b + c).
Proof.
  intros Ha Hb Hc D. pose proof eps_pos as He.
  assert (HD : 0 < D) by (unfold D; lra).
  assert (Hi : 0 < / D) by (apply Rinv_0_lt_compat; exact HD).
  assert (Hs : a / D + b / D + c / D = 1 - eps / D)
    by (unfold D; field; unfold D in HD; lra).
  repeat split.
  - unfold Rdiv; nra.
  - unfold Rdiv; nra.
  - unfold Rdiv; nra.
  - rewrite Hs. assert (0 < eps / D) by (unfold Rdiv; nra). lra.
  - rewrite Hs. intros H.
    assert (H1 : eps / D <= 1e-6) by lra.
    apply (Rmult_le_compat_r D) in H1; [|lra].
    replace (eps / D * D) with eps in H1 by (field; lra).
    unfold D, eps in *. lra.
  - rewrite Hs. intros H.
    assert (H1 : eps / D <= 1e-6).
    { apply (Rmult_le_reg_r D); [exact HD|].
      replace (eps / D * D) with eps by (field; lra).
      unfold D, eps in *. lra. }
    lra.
Qed.

End Ratios.




(** ** Errors of single-item classification *)

Section Errors.

Lemma not_missing_bind {A B : Type} (m : result A) (k : A -> result B) :
  not_missing m -> (forall a, not_missing (k a)) -> not_missing (bind m k).
Proof.
  unfold not_missing. destruct m as [a|e]; simpl; intros Hm Hk; [apply Hk|].
  congruence.
Qed.

Lemma not_missing_ok {A : Type} (a : A) : not_missing (Ok a).
Proof. discriminate. Qed.

Lemma not_missing_dot (a b : vec) : not_missing (dot a b).
Proof. unfold dot. destruct (Nat.eqb _ _); discriminate. Qed.

Lemma not_missing_broadcast (f : R -> R -> R) (a b : vec) :
  not_missing (broadcast f a b).
Proof.
  unfold broadcast. destruct (Nat.eqb _ _); [discriminate|].
  destruct a as [|x [|x' a]]; destruct b as [|y [|y' b]]; discriminate.
Qed.

Lemma not_missing_iadd (a x : vec) : not_missing (iadd a x).
Proof.
  unfold iadd. destruct (Nat.eqb _ _); [discriminate|].
  destruct x as [|y [|y' x]]; discriminate.
Qed.

Lemma not_missing_col (U : matrix) (i : nat) : not_missing (col U i).
Proof.
  induction U as [|row U IH]; simpl; [discriminate|].
  destruct (nth_error row i); [|discriminate].
  apply not_missing_bind; [exact IH|intros; discriminate].
Qed.

Lemma not_missing_matvec (W : matrix) (x : vec) : not_missing (matvec W x).
Proof.
  induction W as [|row W IH]; simpl; [discriminate|].
  apply not_missing_bind; [apply not_missing_dot|intros y].
  apply not_missing_bind; [exact IH|intros; discriminate].
Qed.

Lemma not_missing_accumulate (U : matrix) (s : vec) (Vt : matrix)
    (idx : list nat) (N : vec) :
  not_missing (accumulate_noise U s Vt idx N).
Proof.
  revert N; induction idx as [|i idx IH]; intros N; simpl; [discriminate|].
  destruct (Nat.ltb i (length s)); [|apply IH].
  destruct (Nat.ltb i (length Vt)); [|apply IH].
  apply not_missing_bind; [apply not_missing_col|intros u].
  apply not_missing_bind; [apply not_missing_broadcast|intros x].
  apply not_missing_bind; [apply not_missing_iadd|intros N']. apply IH.
Qed.

(** [decompose] itself never raises the missing-embedding error. *)
Lemma not_missing_decompose (svd : vec -> option svd_result)
    (self : YSRNEngine) (ctx q : vec) :
  not_missing (decompose svd self ctx q).
Proof.
  unfold decompose.
  apply not_missing_bind; [apply not_missing_dot|intros c].
  apply not_missing_bind; [apply not_missing_broadcast|intros r].
  destruct (svd_or_fallback svd r) as [[U s] Vt].
  apply not_missing_bind.
  { destruct (where_ _); [discriminate|apply not_missing_accumulate]. }
  intros N.
  apply not_missing_bind; [apply not_missing_broadcast|intros S].
  apply not_missing_bind; [|intros; discriminate].
  destruct (W_relevance self); [apply not_missing_matvec|discriminate].
Qed.

End Errors.

(** C7.  Single-item classification ([classify_context], and [classify]
    which delegates to it) raises the missing-embedding error exactly when
    the embedding of the candidate or of the query is absent.  The test comes
    first: with an embedding absent the error is raised whatever the other
    vector is, and with both present that error is not raised. *)
Theorem classify_context_missing_embedding
    (svd : vec -> option svd_result) (self : YSRNEngine)
    (context : ContextBlock) (query : Query) :
  (classify_context svd self context query = Raise EmbeddingRequired <->
   embedding context = None \/ query_embedding query = None) /\
  classify svd self context query = classify_context svd self context query.
Proof.
  split; [|reflexivity].
  unfold classify_context.
  destruct (embedding context) as [ce|]; destruct (query_embedding query) as [qe|].
  - split.
    + intros H. exfalso.
      pose proof (not_missing_decompose svd self (ctx_to_numpy ce) (q_to_numpy qe)) as Hd.
      destruct (decompose svd self (ctx_to_numpy ce) (q_to_numpy qe)) as [res|e];
        simpl in H; [discriminate|].
      apply Hd. injection H as ->. reflexivity.
    + intros [H|H]; discriminate.
  - split; auto.
  - split; auto.
  - split; auto.
Qed.

(** * The gated retriever *)

Section RetrieverFacts.

Lemma embeddings_to_numpy_valid (cs : list ContextBlock) :
  embeddings_to_numpy (filter has_embedding cs) =
  Ok (map embedding_vec (filter has_embedding cs)).
Proof.
  induction cs as [|c cs IH]; [reflexivity|].
  simpl. destruct (has_embedding c) eqn:E; [|exact IH].
  simpl. unfold embedding_to_numpy, embedding_vec at 1.
  unfold has_embedding in E.
  destruct (embedding c); [|discriminate].
  cbn [bind]. rewrite IH. reflexivity.
Qed.

Lemma stack_same_length (rows : list vec) (h : nat) :
  rows <> [] -> Forall (fun r => length r = h) rows -> stack rows = Ok rows.
Proof.
  intros Hne Hall. destruct rows as [|r rest]; [congruence|].
  unfold stack. inversion Hall as [|? ? Hr Hrest]; subst.
  replace (forallb _ rest) with true; [reflexivity|].
  symmetry. apply forallb_forall. intros r' Hin.
  rewrite Forall_forall in Hrest. apply Nat.eqb_eq. auto.
Qed.

Lemma dot_rows_same_length (q : vec) (keys : matrix) :
  Forall (fun k => length k = length q) keys ->
  dot_rows q keys = Ok (map (dot_raw q) keys).
Proof.
  induction 1 as [|k keys Hk _ IH]; [reflexivity|].
  simpl. rewrite dot_same by congruence. cbn [bind].
  rewrite IH. reflexivity.
Qed.

Lemma length_vecmat_rows (x : vec) (W : matrix) (acc : vec) (n : nat) :
  Forall (fun row => length row = n) W -> length acc = n ->
  length (vecmat_rows x W acc) = n.
Proof.
  intros HW. revert x acc.
  induction HW as [|row W Hrow _ IH]; intros x acc Hacc.
  - destruct x; exact Hacc.
  - destruct x as [|xi x]; [exact Hacc|].
    simpl. apply IH. rewrite length_zip_with; [exact Hacc|].
    rewrite length_scale. congruence.
Qed.

Lemma length_sigmoid (x : vec) : length (_sigmoid x) = length x.
Proof. apply length_map. Qed.

Lemma length_hd (W : matrix) (h : nat) :
  length W = h -> Forall (fun row => length row = h) W ->
  length (hd [] W) = h.
Proof.
  intros Hl HW. destruct W as [|row W]; [exact Hl|].
  inversion HW; subst. assumption.
Qed.

Lemma length_gate_of (self : GatedContextRetriever) (q : vec) (h : nat) :
  wf_retriever self h -> length (gate_of self q) = h.
Proof.
  intros (HlW & HW & Hb). unfold gate_of.
  rewrite length_sigmoid, length_zip_with.
  - apply length_vecmat_rows; [exact HW|].
    rewrite length_zeros. apply length_hd; assumption.
  - rewrite Hb. apply length_vecmat_rows; [exact HW|].
    rewrite length_zeros. apply length_hd; assumption.
Qed.

(** On well-shaped inputs the attention pass returns, and its second
    component is the query-only gate. *)
Lemma compute_gated_attention_returns (self : GatedContextRetriever)
    (q : vec) (keys : matrix) (h : nat) :
  wf_retriever self h -> length q = h -> keys <> [] ->
  Forall (fun k => length k = h) keys ->
  exists g, compute_gated_attention self q keys keys = Ok (g, gate_of self q).
Proof.
  intros Hwf Hq Hne Hkeys.
  pose proof (length_gate_of self q h Hwf) as Hlg.
  destruct Hwf as (HlW & HW & Hb).
  assert (Hhd : length (hd [] keys) = h).
  { destruct keys as [|k0 keys']; [congruence|].
    apply Forall_inv in Hkeys. exact Hkeys. }
  unfold compute_gated_attention.
  rewrite dot_rows_same_length
    by (eapply Forall_impl; [|exact Hkeys]; simpl; intros; congruence).
  cbn [bind].
  remember (vdiv (map (dot_raw q) keys) (sqrt (INR (length q) + eps)))
    as scores eqn:Es.
  assert (Hls : length scores = length keys)
    by (rewrite Es, length_vdiv, length_map; reflexivity).
  unfold _softmax.
  destruct scores as [|s0 scores'].
  { destruct keys; [congruence|discriminate]. }
  cbn [amax bind].
  remember (vdiv (map (fun t => exp (t - maximum s0 scores')) (s0 :: scores'))
              (sum (map (fun t => exp (t - maximum s0 scores')) (s0 :: scores'))
               + eps)) as w eqn:Ew.
  assert (Hlw : length w = length keys).
  { rewrite Ew, length_vdiv, length_map. exact Hls. }
  unfold weighted_rows, vecmat. rewrite Hlw, Nat.eqb_refl. cbn [bind].
  replace (Nat.eqb (length q) (length (W_gate self))) with true
    by (symmetry; apply Nat.eqb_eq; congruence).
  cbn [bind].
  remember (vecmat_rows w keys (zeros (length (hd [] keys)))) as sdpa eqn:Esd.
  assert (Hsd : length sdpa = h).
  { rewrite Esd. apply length_vecmat_rows; [exact Hkeys|].
    rewrite length_zeros. exact Hhd. }
  remember (vecmat_rows q (W_gate self) (zeros (length (hd [] (W_gate self)))))
    as proj eqn:Epr.
  assert (Hpr : length proj = h).
  { rewrite Epr. apply length_vecmat_rows; [exact HW|].
    rewrite length_zeros. apply length_hd; assumption. }
  rewrite broadcast_same by congruence. cbn [bind].
  unfold gate_of in Hlg |- *. rewrite <- Epr in Hlg |- *.
  rewrite Hsd, Hlg, Nat.leb_refl.
  rewrite broadcast_same.
  - cbn [bind]. eexists. reflexivity.
  - rewrite length_firstn, Hlg, Hsd. lia.
Qed.

(** On well-shaped inputs the final scores are the raw dot products times
    the one scalar [mean_gate]. *)
Lemma final_scores_of_valid (self : GatedContextRetriever) (q : vec)
    (valid : list ContextBlock) (h : nat) :
  wf_retriever self h -> length q = h -> valid <> [] ->
  Forall (fun c => length (embedding_vec c) = h) valid ->
  final_scores_of self q (map embedding_vec valid) = Ok (scores_of self q valid).
Proof.
  intros Hwf Hq Hne Hall.
  assert (Hkeys : Forall (fun k => length k = h) (map embedding_vec valid)).
  { rewrite Forall_map. exact Hall. }
  destruct (compute_gated_attention_returns self q (map embedding_vec valid) h)
    as (g & Hg); try assumption.
  { destruct valid; [congruence|discriminate]. }
  unfold final_scores_of. rewrite Hg. cbn [bind].
  rewrite dot_rows_same_length
    by (eapply Forall_impl; [|exact Hkeys]; simpl; intros; congruence).
  cbn [bind]. unfold scores_of, mean_gate_of.
  rewrite !length_map, !map_map. reflexivity.
Qed.

Lemma collect_results_indices (valid : list ContextBlock) (scores : vec)
    (idxs : list nat) (d : ContextBlock) :
  length scores = length valid ->
  Forall (fun i => (i < length valid)%nat) idxs ->
  collect_results valid scores idxs =
  Ok (map (fun i => set_relevance_score (nth i valid d) (nth i scores 0)) idxs).
Proof.
  intros Hl. induction 1 as [|i idxs Hi _ IH]; [reflexivity|].
  simpl.
  destruct (nth_error valid i) as [c|] eqn:Ec;
    [|apply nth_error_None in Ec; lia].
  destruct (nth_error scores i) as [x|] eqn:Ex;
    [|apply nth_error_None in Ex; lia].
  rewrite IH. cbn [bind].
  rewrite (nth_error_nth _ _ d Ec), (nth_error_nth _ _ 0 Ex). reflexivity.
Qed.

End RetrieverFacts.

Section Ordering.

Lemma slice_to_firstn {A : Type} (k : Z) (l : list A) :
  exists m, slice_to k l = firstn m l /\ ((0 <= k)%Z -> m = Z.to_nat k).
Proof.
  unfold slice_to. destruct (k <? 0)%Z eqn:E.
  - eexists; split; [reflexivity|]. intros H. apply Z.ltb_lt in E. lia.
  - eexists; split; [reflexivity|]. reflexivity.
Qed.

Lemma Forall_firstn_keep {A : Type} (P : A -> Prop) (m : nat) (l : list A) :
  Forall P l -> Forall P (firstn m l).
Proof.
  intros H. rewrite <- (firstn_skipn m l) in H.
  apply Forall_app in H. tauto.
Qed.

Lemma NoDup_firstn_keep {A : Type} (m : nat) (l : list A) :
  NoDup l -> NoDup (firstn m l).
Proof.
  intros H. rewrite <- (firstn_skipn m l) in H.
  apply NoDup_app_remove_r in H. exact H.
Qed.

Lemma StronglySorted_app_inv {A : Type} (Rel : A -> A -> Prop) (l1 l2 : list A) :
  StronglySorted Rel (l1 ++ l2) ->
  StronglySorted Rel l1 /\ StronglySorted Rel l2 /\
  (forall x y, In x l1 -> In y l2 -> Rel x y).
Proof.
  induction l1 as [|a l1 IH]; simpl; intros H.
  - repeat split; [constructor|exact H|contradiction].
  - apply StronglySorted_inv in H. destruct H as (Hs & Ha).
    destruct (IH Hs) as (H1 & H2 & H3).
    apply Forall_app in Ha. destruct Ha as (Ha1 & Ha2).
    repeat split; [constructor; assumption|exact H2|].
    intros x y [<-|Hx] Hy; [|auto].
    rewrite Forall_forall in Ha2. auto.
Qed.

Lemma StronglySorted_app {A : Type} (Rel : A -> A -> Prop) (l1 l2 : list A) :
  StronglySorted Rel l1 -> StronglySorted Rel l2 ->
  (forall x y, In x l1 -> In y l2 -> Rel x y) ->
  StronglySorted Rel (l1 ++ l2).
Proof.
  induction 1 as [|a l1 Hs IH Ha]; simpl; intros H2 H12; [exact H2|].
  constructor.
  - apply IH; [exact H2|]. intros x y Hx Hy. apply H12; [right|]; assumption.
  - apply Forall_app. split; [exact Ha|].
    apply Forall_forall. intros y Hy. apply H12; [left; reflexivity|exact Hy].
Qed.

Lemma StronglySorted_rev {A : Type} (Rel : A -> A -> Prop) (l : list A) :
  StronglySorted Rel l -> StronglySorted (fun x y => Rel y x) (rev l).
Proof.
  induction 1 as [|a l Hs IH Ha]; simpl; [constructor|].
  apply StronglySorted_app; [exact IH|repeat constructor|].
  intros x y Hx [<-|[]]. apply in_rev in Hx.
  rewrite Forall_forall in Ha. auto.
Qed.

Lemma StronglySorted_firstn {A : Type} (Rel : A -> A -> Prop) (m : nat)
    (l : list A) :
  StronglySorted Rel l -> StronglySorted Rel (firstn m l).
Proof.
  intros H. rewrite <- (firstn_skipn m l) in H.
  apply StronglySorted_app_inv in H. tauto.
Qed.

Lemma StronglySorted_map {A B : Type} (RelA : A -> A -> Prop)
    (RelB : B -> B -> Prop) (f : A -> B) (l : list A) :
  (forall x y, In x l -> In y l -> RelA x y -> RelB (f x) (f y)) ->
  StronglySorted RelA l -> StronglySorted RelB (map f l).
Proof.
  intros Hf H. induction H as [|a l Hs IH Ha]; simpl; [constructor|].
  constructor.
  - apply IH. intros x y Hx Hy. apply Hf; right; assumption.
  - apply Forall_map. rewrite Forall_forall in *. intros y Hy.
    apply Hf; [left; reflexivity|right; exact Hy|auto].
Qed.

Variable argsort : vec -> list nat.
Hypothesis argsort_ok : argsort_sound argsort.

Lemma argsort_in_range (v : vec) :
  Forall (fun i => (i < length v)%nat) (argsort v).
Proof.
  destruct (argsort_ok v) as (Hp & _).
  apply Forall_forall. intros i Hi.
  apply (Permutation_in _ Hp) in Hi. apply in_seq in Hi. lia.
Qed.

Lemma argsort_NoDup (v : vec) : NoDup (argsort v).
Proof.
  destruct (argsort_ok v) as (Hp & _).
  apply (Permutation_NoDup (Permutation_sym Hp)). apply seq_NoDup.
Qed.

Lemma argsort_length (v : vec) : length (argsort v) = length v.
Proof.
  destruct (argsort_ok v) as (Hp & _).
  rewrite (Permutation_length Hp). apply length_seq.
Qed.

(** The positions kept by [np.argsort(v)[::-1][:k]]. *)
Lemma top_indices (v : vec) (k : Z) :
  let idxs := slice_to k (rev (argsort v)) in
  Forall (fun i => (i < length v)%nat) idxs /\
  NoDup idxs /\
  StronglySorted (fun i j => nth j v 0 <= nth i v 0) idxs /\
  ((0 <= k)%Z -> (Z.to_nat k <= length v)%nat -> length idxs = Z.to_nat k).
Proof.
  intros idxs. unfold idxs.
  destruct (slice_to_firstn k (rev (argsort v))) as (m & -> & Hm).
  repeat split.
  - apply Forall_firstn_keep. apply Forall_rev. apply argsort_in_range.
  - apply NoDup_firstn_keep. apply NoDup_rev. apply argsort_NoDup.
  - apply StronglySorted_firstn.
    apply (StronglySorted_rev (fun i j => nth i v 0 <= nth j v 0)).
    apply argsort_ok.
  - intros Hk Hle. rewrite length_firstn, length_rev, argsort_length.
    rewrite (Hm Hk). lia.
Qed.

Lemma top_indices_nil (k : Z) : slice_to k (rev (argsort [])) = [].
Proof.
  pose proof (argsort_length []) as Hl. simpl in Hl.
  apply length_zero_iff_nil in Hl. rewrite Hl. simpl.
  destruct (slice_to_firstn k (@nil nat)) as (m & -> & _).
  apply firstn_nil.
Qed.

(** What [retrieve] returns on well-shaped inputs: the valid candidates at
    the kept positions, each stamped with its final score. *)
Lemma retrieve_spec (self : GatedContextRetriever) (query : Query)
    (qe : QueryEmbedding) (candidates : list ContextBlock) (k : Z) (h : nat)
    (d : ContextBlock) :
  wf_retriever self h ->
  query_embedding query = Some qe ->
  length (q_vector qe) = h ->
  embeddings_of_dim candidates h ->
  retrieve argsort self query candidates k =
  Ok (map (fun i =>
             set_relevance_score
               (nth i (filter has_embedding candidates) d)
               (nth i (scores_of self (q_vector qe)
                         (filter has_embedding candidates)) 0))
        (slice_to k
           (rev (argsort (scores_of self (q_vector qe)
                            (filter has_embedding candidates)))))).
Proof.
  intros Hwf Hqe Hq Hdim.
  assert (Hall : Forall (fun c => length (embedding_vec c) = h)
                   (filter has_embedding candidates)).
  { apply Forall_forall. intros c Hc.
    apply filter_In in Hc. destruct Hc as (Hin & Hhas).
    unfold embeddings_of_dim in Hdim. rewrite Forall_forall in Hdim.
    specialize (Hdim c Hin). unfold embedding_vec, has_embedding in *.
    destruct (embedding c); [exact Hdim|discriminate]. }
  unfold retrieve. rewrite Hqe.
  destruct candidates as [|c0 cs].
  { change (scores_of self (q_vector qe) (filter has_embedding []))
      with (@nil R).
    rewrite top_indices_nil. reflexivity. }
  remember (filter has_embedding (c0 :: cs)) as valid eqn:Ev.
  destruct valid as [|v0 vs].
  { change (scores_of self (q_vector qe) []) with (@nil R).
    rewrite top_indices_nil. reflexivity. }
  rewrite Ev at 1. rewrite embeddings_to_numpy_valid. rewrite <- Ev.
  cbn [bind].
  rewrite (stack_same_length _ h);
    [|discriminate|rewrite Forall_map; exact Hall].
  cbn [bind]. unfold q_to_numpy.
  rewrite (final_scores_of_valid self (q_vector qe) (v0 :: vs) h)
    by (try assumption; discriminate).
  cbn [bind].
  apply collect_results_indices.
  - unfold scores_of. apply length_map.
  - replace (length (v0 :: vs))
      with (length (scores_of self (q_vector qe) (v0 :: vs)))
      by (unfold scores_of; apply length_map).
    apply top_indices.
Qed.

End Ordering.

Section InsertionArgsort.

Lemma insert_idx_perm (v : vec) (i : nat) (l : list nat) :
  Permutation (insert_idx v i l) (i :: l).
Proof.
  induction l as [|j l IH]; simpl; [reflexivity|].
  destruct (Rlt_dec _ _); [|reflexivity].
  rewrite IH. apply perm_swap.
Qed.

Lemma insert_idx_sorted (v : vec) (i : nat) (l : list nat) :
  StronglySorted (fun a b => nth a v 0 <= nth b v 0) l ->
  StronglySorted (fun a b => nth a v 0 <= nth b v 0) (insert_idx v i l).
Proof.
  induction 1 as [|j l Hs IH Hj]; simpl; [repeat constructor|].
  destruct (Rlt_dec (nth j v 0) (nth i v 0)) as [Hlt|Hge].
  - constructor; [exact IH|].
    apply Forall_forall. intros x Hx.
    apply (Permutation_in _ (insert_idx_perm v i l)) in Hx.
    destruct Hx as [<-|Hx]; [lra|].
    rewrite Forall_forall in Hj. auto.
  - constructor; [constructor; assumption|].
    apply Rnot_lt_le in Hge.
    constructor; [exact Hge|].
    rewrite Forall_forall in *. intros x Hx. specialize (Hj x Hx). lra.
Qed.

Lemma argsort_insertion_sound : argsort_sound argsort_insertion.
Proof.
  intros v. unfold argsort_insertion.
  generalize (seq 0 (length v)) as l.
  induction l as [|i l (Hp & Hs)]; simpl.
  - split; constructor.
  - split.
    + rewrite insert_idx_perm. constructor. exact Hp.
    + apply insert_idx_sorted. exact Hs.
Qed.

(** Equal values come out in their original order. *)
Lemma argsort_insertion_ties (x : R) :
  argsort_insertion [x; x; x] = [0; 1; 2]%nat.
Proof.
  unfold argsort_insertion.
  repeat (simpl; destruct (Rlt_dec x x) as [Hlt|_];
          [exfalso; exact (Rlt_irrefl _ Hlt)|]).
  reflexivity.
Qed.

End InsertionArgsort.

Section Scores.

Lemma nth_scores_of (self : GatedContextRetriever) (q : vec)
    (valid : list ContextBlock) (i : nat) (d : ContextBlock) :
  (i < length valid)%nat ->
  nth i (scores_of self q valid) 0 =
  dot_raw q (embedding_vec (nth i valid d)) *
  mean_gate_of self q (length valid).
Proof.
  intros Hi. unfold scores_of.
  rewrite (nth_indep _ 0
             (dot_raw q (embedding_vec d) * mean_gate_of self q (length valid)))
    by (rewrite length_map; exact Hi).
  apply (map_nth (fun c => dot_raw q (embedding_vec c) *
                           mean_gate_of self q (length valid))).
Qed.

Lemma firstn_whole {A : Type} (n : nat) (l : list A) :
  (length l <= n)%nat -> firstn n l = l.
Proof. apply firstn_all2. Qed.

(** [__init__] builds a well-formed retriever from an [h x h] draw. *)
Lemma wf_retriever_init (num_heads head_dim : Z) (gate_init_bias : R)
    (randn : matrix) :
  let h := Z.to_nat (num_heads * head_dim) in
  length randn = h -> Forall (fun row => length row = h) randn ->
  wf_retriever
    (GatedContextRetriever_init num_heads head_dim gate_init_bias randn) h.
Proof.
  intros h Hl Hrows. unfold wf_retriever, GatedContextRetriever_init.
  cbn [W_gate gate_bias]. repeat split.
  - rewrite length_map. exact Hl.
  - apply Forall_map. eapply Forall_impl; [|exact Hrows].
    simpl. intros row Hr. rewrite length_map. exact Hr.
  - apply repeat_length.
Qed.

Lemma wf_retriever1 : wf_retriever retriever1 1.
Proof. repeat split; simpl; repeat constructor. Qed.

Lemma wf_retriever2 : wf_retriever retriever2 2.
Proof. repeat split; simpl; repeat constructor. Qed.

End Scores.

(** C2 (amended).  On well-shaped inputs [retrieve] returns, and the score
    stamped on every returned candidate is the raw dot product of the query
    embedding with that candidate's embedding times one scalar, the same for
    every candidate: the mean of the first [n] entries of the gate vector,
    where [n] is the number of candidates that have an embedding.  It is the
    mean of the whole gate vector only when [n] is at least the length of
    the gate (and 0.5 when the gate is empty). *)
Theorem retrieve_final_scores
    (argsort : vec -> list nat) (self : GatedContextRetriever)
    (query : Query) (qe : QueryEmbedding) (candidates : list ContextBlock)
    (top_k : Z) (h : nat) :
  argsort_sound argsort ->
  wf_retriever self h ->
  query_embedding query = Some qe ->
  length (q_vector qe) = h ->
  embeddings_of_dim candidates h ->
  let q := q_vector qe in
  let n := length (filter has_embedding candidates) in
  exists out,
    retrieve argsort self query candidates top_k = Ok out /\
    (forall c, In c out ->
       exists c0 e,
         In c0 candidates /\ embedding c0 = Some e /\
         c = set_relevance_score c0
               (dot_raw q (ctx_vector e) * mean_gate_of self q n)) /\
    length (gate_of self q) = h /\
    ((0 < h)%nat ->
     mean_gate_of self q n = mean_R (firstn n (gate_of self q))) /\
    ((0 < h <= n)%nat -> mean_gate_of self q n = mean_R (gate_of self q)) /\
    (h = 0%nat -> mean_gate_of self q n = 0.5).
Proof.
  intros Hsort Hwf Hqe Hq Hdim q n.
  pose proof (length_gate_of self q h Hwf) as Hlg.
  eexists. split; [apply (retrieve_spec argsort Hsort self query qe candidates
                            top_k h (block "" [])); assumption|].
  split; [|split; [exact Hlg|]].
  - intros c Hc. apply in_map_iff in Hc. destruct Hc as (i & <- & Hi).
    destruct (top_indices argsort Hsort
                (scores_of self (q_vector qe) (filter has_embedding candidates))
                top_k) as (Hrange & _).
    rewrite Forall_forall in Hrange. specialize (Hrange i Hi).
    unfold scores_of in Hrange. rewrite length_map in Hrange.
    set (c0 := nth i (filter has_embedding candidates) (block "" [])).
    assert (Hin : In c0 (filter has_embedding candidates))
      by (apply nth_In; exact Hrange).
    apply filter_In in Hin. destruct Hin as (Hin & Hhas).
    unfold has_embedding in Hhas.
    destruct (embedding c0) as [e|] eqn:Ee; [|discriminate].
    exists c0, e. repeat split; try assumption.
    rewrite (nth_scores_of self (q_vector qe) _ i (block "" [])) by exact Hrange.
    fold c0. unfold embedding_vec. rewrite Ee. reflexivity.
  - unfold mean_gate_of. rewrite Hlg. repeat split.
    + intros Hh. apply Nat.ltb_lt in Hh. rewrite Hh. reflexivity.
    + intros (Hh & Hn). pose proof Hh as Hh'. apply Nat.ltb_lt in Hh'.
      rewrite Hh'. rewrite firstn_whole by (rewrite Hlg; exact Hn).
      reflexivity.
    + intros ->. reflexivity.
Qed.

Lemma retrieve_final_scores_witness :
  exists out,
    retrieve argsort_insertion retriever2 (query_of [1; 0])
      [block "a" [1; 0]] 10 = Ok out /\
    length (gate_of retriever2 [1; 0]) = 2%nat.
Proof.
  destruct (retrieve_final_scores argsort_insertion retriever2
              (query_of [1; 0]) (QueryEmbedding_from_numpy [1; 0])
              [block "a" [1; 0]] 10 2)
    as (out & H1 & _ & H3 & _).
  - exact argsort_insertion_sound.
  - exact wf_retriever2.
  - reflexivity.
  - reflexivity.
  - repeat constructor.
  - exists out. split; assumption.
Defined.

Section GateExample.

Lemma clip_inside (x : R) : -500 <= x <= 500 -> clip (-500) 500 x = x.
Proof.
  intros (Hlo & Hhi). unfold clip.
  rewrite (Rmax_right (-500) x) by exact Hlo.
  apply Rmin_right. exact Hhi.
Qed.

Lemma gate_of_retriever2 :
  gate_of retriever2 [1; 0] = [1 / (1 + exp 1); 1 / (1 + exp 2)].
Proof.
  unfold gate_of, retriever2, GatedContextRetriever_init, _sigmoid.
  cbn [W_gate gate_bias map hd length zeros repeat vecmat_rows zip_with scale
       Z.mul Z.to_nat Pos.mul].
  change (Pos.to_nat 2) with 2%nat. cbn [repeat map].
  rewrite !clip_inside by lra.
  repeat f_equal; lra.
Qed.

Lemma sigmoid_2_lt_1 : 1 / (1 + exp 2) < 1 / (1 + exp 1).
Proof.
  pose proof (exp_pos 1) as H1.
  assert (H12 : exp 1 < exp 2) by (apply exp_increasing; lra).
  unfold Rdiv. rewrite !Rmult_1_l.
  apply Rinv_lt_contravar; [|lra].
  apply Rmult_lt_0_compat; lra.
Qed.

End GateExample.

(** [retrieve] on a single candidate. *)
Lemma retrieve_one (argsort : vec -> list nat) (self : GatedContextRetriever)
    (q : vec) (name : string) (v : vec) (h : nat) :
  argsort_sound argsort -> wf_retriever self h ->
  length q = h -> length v = h ->
  retrieve argsort self (query_of q) [block name v] 10 =
  Ok [set_relevance_score (block name v)
        (dot_raw q v * mean_gate_of self q 1)].
Proof.
  intros Hsort Hwf Hq Hv.
  rewrite (retrieve_spec argsort Hsort self (query_of q)
             (QueryEmbedding_from_numpy q) [block name v] 10 h (block name v));
    try assumption; try reflexivity; [|repeat constructor; exact Hv].
  change (filter has_embedding [block name v]) with [block name v].
  change (scores_of self (q_vector (QueryEmbedding_from_numpy q)) [block name v])
    with [dot_raw q v * mean_gate_of self q 1].
  destruct (Hsort [dot_raw q v * mean_gate_of self q 1]) as (Hp & _).
  apply Permutation_sym in Hp. simpl in Hp.
  apply Permutation_length_1_inv in Hp. rewrite Hp. reflexivity.
Qed.

(** C2, as stated, fails when there are fewer candidates than gate entries:
    with one candidate and a gate of length 2 the scalar is the first gate
    entry, not the mean of the two. *)
Lemma retrieve_final_scores_not_whole_gate_mean :
  exists c,
    retrieve argsort_insertion retriever2 (query_of [1; 0])
      [block "a" [1; 0]] 10 = Ok [c] /\
    relevance_score c <>
    Some (dot_raw [1; 0] [1; 0] * mean_R (gate_of retriever2 [1; 0])).
Proof.
  eexists. split.
  - apply (retrieve_one argsort_insertion retriever2 [1; 0] "a" [1; 0] 2).
    + exact argsort_insertion_sound.
    + exact wf_retriever2.
    + reflexivity.
    + reflexivity.
  - cbn [relevance_score set_relevance_score].
    intros H. injection H as H.
    unfold mean_gate_of in H. rewrite gate_of_retriever2 in H.
    pose proof sigmoid_2_lt_1 as Hlt.
    pose proof (exp_pos 1) as H1. pose proof (exp_pos 2) as H2.
    unfold mean_R, dot_raw in H. simpl in H.
    set (g0 := 1 / (1 + exp 1)) in *. set (g1 := 1 / (1 + exp 2)) in *.
    lra.
Qed.

Lemma filter_has_embedding_all (candidates : list ContextBlock) :
  Forall (fun c => embedding c <> None) candidates ->
  filter has_embedding candidates = candidates.
Proof.
  induction 1 as [|c cs Hc _ IH]; [reflexivity|].
  simpl. unfold has_embedding at 1.
  destruct (embedding c); [|congruence]. rewrite IH. reflexivity.
Qed.

(** C3 (amended).  For a query with an embedding, [n] candidates that all
    have embeddings and [0 <= k < n], [retrieve] returns exactly [k]
    candidates, taken from [k] distinct positions of the input list, each
    stamped with its final score, in descending order of final score.  The
    order among candidates of equal final score is whatever the reversed
    [argsort] gives; it is not the input order. *)
Theorem retrieve_top_k
    (argsort : vec -> list nat) (self : GatedContextRetriever)
    (query : Query) (qe : QueryEmbedding) (candidates : list ContextBlock)
    (top_k : Z) (h : nat) (d : ContextBlock) :
  argsort_sound argsort ->
  wf_retriever self h ->
  query_embedding query = Some qe ->
  length (q_vector qe) = h ->
  Forall (fun c => embedding c <> None) candidates ->
  embeddings_of_dim candidates h ->
  (0 <= top_k < Z.of_nat (length candidates))%Z ->
  let scores := scores_of self (q_vector qe) candidates in
  exists out idxs,
    retrieve argsort self query candidates top_k = Ok out /\
    out = map (fun i => set_relevance_score (nth i candidates d)
                          (nth i scores 0)) idxs /\
    length out = Z.to_nat top_k /\
    NoDup idxs /\
    Forall (fun i => (i < length candidates)%nat) idxs /\
    StronglySorted (fun i j => nth j scores 0 <= nth i scores 0) idxs /\
    StronglySorted
      (fun a b => or_0 (relevance_score b) <= or_0 (relevance_score a)) out.
Proof.
  intros Hsort Hwf Hqe Hq Hall Hdim Hk scores.
  pose proof (retrieve_spec argsort Hsort self query qe candidates top_k h d
                Hwf Hqe Hq Hdim) as Hspec.
  rewrite (filter_has_embedding_all candidates Hall) in Hspec.
  fold scores in Hspec.
  destruct (top_indices argsort Hsort scores top_k) as (Hrange & Hnd & Hsorted & Hlen).
  assert (Hls : length scores = length candidates)
    by (unfold scores, scores_of; apply length_map).
  rewrite Hls in Hrange, Hlen.
  eexists. exists (slice_to top_k (rev (argsort scores))).
  split; [exact Hspec|]. split; [reflexivity|].
  split; [rewrite length_map; apply Hlen; lia|].
  repeat split; try assumption.
  eapply StronglySorted_map; [|exact Hsorted].
  intros i j _ _ Hij. simpl. exact Hij.
Qed.

Lemma retrieve_top_k_witness :
  exists out,
    retrieve argsort_insertion retriever1 (query_of [1])
      [block "a" [1]; block "b" [2]] 1 = Ok out /\
    length out = 1%nat /\
    StronglySorted
      (fun a b => or_0 (relevance_score b) <= or_0 (relevance_score a)) out.
Proof.
  destruct (retrieve_top_k argsort_insertion retriever1 (query_of [1])
              (QueryEmbedding_from_numpy [1])
              [block "a" [1]; block "b" [2]] 1 1 (block "a" [1]))
    as (out & idxs & H1 & _ & H3 & _ & _ & _ & H7).
  - exact argsort_insertion_sound.
  - exact wf_retriever1.
  - reflexivity.
  - reflexivity.
  - repeat constructor; discriminate.
  - repeat constructor.
  - simpl. lia.
  - exists out. repeat split; assumption.
Defined.

(** C3, as stated, fails on ties: with three candidates of equal final score
    and [top_k = 2] (and an argsort that keeps equal values in input order)
    the output is the third candidate followed by the second. *)
Lemma retrieve_ties_reverse_order :
  argsort_sound argsort_insertion /\
  exists x,
    retrieve argsort_insertion retriever1 (query_of [1])
      [block "a" [1]; block "b" [1]; block "c" [1]] 2 =
    Ok [set_relevance_score (block "c" [1]) x;
        set_relevance_score (block "b" [1]) x].
Proof.
  split; [exact argsort_insertion_sound|].
  exists (dot_raw [1] [1] * mean_gate_of retriever1 [1] 3).
  rewrite (retrieve_spec argsort_insertion argsort_insertion_sound retriever1
             (query_of [1]) (QueryEmbedding_from_numpy [1])
             [block "a" [1]; block "b" [1]; block "c" [1]] 2 1 (block "a" [1]));
    try reflexivity; [|exact wf_retriever1|repeat constructor].
  change (filter has_embedding [block "a" [1]; block "b" [1]; block "c" [1]])
    with [block "a" [1]; block "b" [1]; block "c" [1]].
  set (x := dot_raw [1] [1] * mean_gate_of retriever1 [1] 3).
  change (scores_of retriever1 (q_vector (QueryEmbedding_from_numpy [1]))
            [block "a" [1]; block "b" [1]; block "c" [1]])
    with [x; x; x].
  rewrite argsort_insertion_ties. reflexivity.
Qed.

(** * Score fields and the pipeline *)

Section ScoreFields.

Lemma collect_results_sources (valid : list ContextBlock) (scores : vec)
    (idxs : list nat) (out : list ContextBlock) :
  collect_results valid scores idxs = Ok out ->
  forall c, In c out ->
    exists c0 x, In c0 valid /\ c = set_relevance_score c0 x.
Proof.
  revert out; induction idxs as [|i idxs IH]; simpl; intros out H.
  - injection H as <-. intros c [].
  - destruct (nth_error valid i) as [c0|] eqn:Ec; [|discriminate].
    destruct (nth_error scores i) as [x|]; [|discriminate].
    destruct (collect_results valid scores idxs) as [rest|e]; [|discriminate].
    cbn [bind] in H. injection H as <-.
    intros c [<-|Hc].
    + exists c0, x. split; [eapply nth_error_In; exact Ec|reflexivity].
    + apply (IH rest eq_refl). exact Hc.
Qed.

Lemma retrieve_sources (argsort : vec -> list nat)
    (self : GatedContextRetriever) (query : Query)
    (candidates : list ContextBlock) (top_k : Z) (out : list ContextBlock) :
  retrieve argsort self query candidates top_k = Ok out ->
  forall c, In c out ->
    exists c0 x, In c0 candidates /\ c = set_relevance_score c0 x.
Proof.
  unfold retrieve. intros H c Hc.
  destruct candidates as [|c1 cs]; [injection H as <-; destruct Hc|].
  destruct (query_embedding query) as [qe|]; [|injection H as <-; destruct Hc].
  destruct (filter has_embedding (c1 :: cs)) as [|v0 vs] eqn:Ev;
    [injection H as <-; destruct Hc|].
  destruct (embeddings_to_numpy (v0 :: vs)) as [rows|e]; [|discriminate].
  cbn [bind] in H.
  destruct (stack rows) as [keys|e]; [|discriminate].
  cbn [bind] in H.
  destruct (final_scores_of self (q_to_numpy qe) keys) as [fs|e]; [|discriminate].
  cbn [bind] in H.
  destruct (collect_results_sources _ _ _ _ H c Hc) as (c0 & x & Hin & ->).
  exists c0, x. split; [|reflexivity].
  rewrite <- Ev in Hin. apply filter_In in Hin. tauto.
Qed.

Lemma classify_context_sets (svd : vec -> option svd_result)
    (self : YSRNEngine) (context : ContextBlock) (query : Query)
    (c' : ContextBlock) :
  classify_context svd self context query = Ok c' -> all_scores_set c'.
Proof.
  unfold classify_context.
  destruct (embedding context); [|discriminate].
  destruct (query_embedding query); [|discriminate].
  destruct (decompose svd self _ _); [|discriminate].
  cbn [bind]. intros [= <-]. repeat split; discriminate.
Qed.

Lemma batch_classify_sets (svd : vec -> option svd_result)
    (self : YSRNEngine) (contexts : list ContextBlock) (query : Query)
    (cs' : list ContextBlock) :
  batch_classify svd self contexts query = Ok cs' ->
  Forall all_scores_set cs'.
Proof.
  revert cs'; induction contexts as [|c cs IH]; simpl; intros cs' H.
  - injection H as <-. constructor.
  - destruct (classify_context svd self c query) as [c'|e] eqn:Ec; [|discriminate].
    cbn [bind] in H.
    destruct (batch_classify svd self cs query) as [rest|e]; [|discriminate].
    cbn [bind] in H. injection H as <-.
    constructor; [eapply classify_context_sets; exact Ec|].
    apply IH. reflexivity.
Qed.

Lemma insert_desc_perm (key : ContextBlock -> R) (x : ContextBlock)
    (l : list ContextBlock) :
  Permutation (insert_desc key x l) (x :: l).
Proof.
  induction l as [|y l IH]; simpl; [reflexivity|].
  destruct (Rlt_dec _ _); [|reflexivity].
  rewrite IH. apply perm_swap.
Qed.

Lemma sort_desc_perm (key : ContextBlock -> R) (l : list ContextBlock) :
  Permutation (sort_desc key l) l.
Proof.
  unfold sort_desc. induction l as [|x l IH]; simpl; [reflexivity|].
  rewrite insert_desc_perm. constructor. exact IH.
Qed.

End ScoreFields.

(** C4 (amended).  Classification ([classify_context], [batch_classify]) and
    the whole pipeline leave every candidate they return with all three
    scores set.  [retrieve] alone sets only the relevance score of the
    candidates it returns and leaves their superfluous and noise scores as
    they were, so a candidate that enters [retrieve] unclassified leaves it
    with the relevance score set and the other two unset. *)
Theorem scores_after_operations
    (svd : vec -> option svd_result) (argsort : vec -> list nat)
    (ysrn : YSRNEngine) (retriever : GatedContextRetriever) (query : Query) :
  (forall context c',
     classify_context svd ysrn context query = Ok c' -> all_scores_set c') /\
  (forall contexts cs',
     batch_classify svd ysrn contexts query = Ok cs' ->
     Forall all_scores_set cs') /\
  (forall candidates top_k out,
     retrieve argsort retriever query candidates top_k = Ok out ->
     forall c, In c out ->
       exists c0, In c0 candidates /\
         relevance_score c <> None /\
         superfluous_score c = superfluous_score c0 /\
         noise_score c = noise_score c0) /\
  (forall new_id text constraints encoded candidates res,
     submit_query svd argsort ysrn retriever new_id text constraints encoded
       candidates = Ok res ->
     Forall all_scores_set (contexts res)).
Proof.
  split; [|split; [|split]].
  - intros ctx c' H. eapply classify_context_sets; exact H.
  - intros contexts cs' H. eapply batch_classify_sets; exact H.
  - intros candidates top_k out H c Hc.
    destruct (retrieve_sources _ _ _ _ _ _ H c Hc) as (c0 & x & Hin & ->).
    exists c0. repeat split; [exact Hin|discriminate].
  - intros new_id text constraints encoded candidates res H.
    unfold submit_query in H.
    destruct (retrieve argsort retriever _ candidates 10) as [results|e];
      [|discriminate].
    cbn [bind] in H.
    destruct (batch_classify svd ysrn results _) as [classified|e] eqn:Eb;
      [|discriminate].
    cbn [bind] in H. injection H as <-. cbn [contexts].
    apply batch_classify_sets in Eb.
    rewrite Forall_forall in *. intros c Hc. apply Eb.
    eapply Permutation_in; [apply sort_desc_perm|exact Hc].
Qed.

(** C4, as stated, fails for [retrieve]: a fresh candidate comes back with
    its relevance score set and the other two scores unset. *)
Lemma retrieve_sets_relevance_only :
  exists c,
    retrieve argsort_insertion retriever1 (query_of [1]) [block "a" [1]] 10
      = Ok [c] /\
    all_scores_unset (block "a" [1]) /\
    relevance_score c <> None /\
    superfluous_score c = None /\
    noise_score c = None.
Proof.
  eexists. split.
  - apply (retrieve_one argsort_insertion retriever1 [1] "a" [1] 1).
    + exact argsort_insertion_sound.
    + exact wf_retriever1.
    + reflexivity.
    + reflexivity.
  - repeat split. discriminate.
Qed.

(** C5 (the code does not do this).  With an empty candidate pool the final
    list is empty and both aggregate statistics are [nan], the value of
    [np.mean] on an empty list, not 0.0. *)
Theorem submit_query_empty_pool
    (svd : vec -> option svd_result) (argsort : vec -> list nat)
    (ysrn : YSRNEngine) (retriever : GatedContextRetriever)
    (new_id text : string) (constraints : list string) (encoded : vec) :
  exists res,
    submit_query svd argsort ysrn retriever new_id text constraints encoded []
      = Ok res /\
    contexts res = [] /\
    avg_relevance (decomposition_stats res) = NaN /\
    avg_noise (decomposition_stats res) = NaN /\
    avg_relevance (decomposition_stats res) <> Fin 0 /\
    avg_noise (decomposition_stats res) <> Fin 0.
Proof.
  eexists. split; [reflexivity|].
  repeat split; discriminate.
Qed.

Lemma scores_after_operations_witness :
  exists c',
    classify_context svd_col engine0 (block "a" [1]) (query_of [1]) = Ok c' /\
    all_scores_set c'.
Proof.
  destruct (decompose_returns svd_col svd_col_sound engine0 [1] [1] eq_refl I)
    as (res & Hres).
  assert (H : classify_context svd_col engine0 (block "a" [1]) (query_of [1])
              = Ok {| block_id := "a";
                      content := "a";
                      embedding := embedding (block "a" [1]);
                      relevance_score := Some (relevance_ratio res);
                      superfluous_score := Some (superfluous_ratio res);
                      noise_score := Some (noise_ratio res) |}).
  { unfold classify_context. cbn [embedding block query_embedding query_of].
    unfold ctx_to_numpy, q_to_numpy. cbn [ctx_vector q_vector QueryEmbedding_from_numpy].
    rewrite Hres. reflexivity. }
  eexists. split; [exact H|].
  exact (proj1 (scores_after_operations svd_col argsort_insertion engine0
                  retriever1 (query_of [1])) _ _ H).
Defined.

(** * Further properties of the decomposition engine *)

Section EngineMore.

Lemma dot_raw_comm (a b : vec) : dot_raw a b = dot_raw b a.
Proof.
  revert b; induction a as [|x a IH]; intros [|y b]; try reflexivity.
  change (dot_raw (x :: a) (y :: b)) with (x * y + dot_raw a b).
  change (dot_raw (y :: b) (x :: a)) with (y * x + dot_raw b a).
  rewrite IH. ring.
Qed.

Lemma dot_raw_vdiv (a b : vec) (x y : R) :
  dot_raw (vdiv a x) (vdiv b y) = dot_raw a b * (/ x * / y).
Proof.
  revert b; induction a as [|u a IH]; intros [|v b];
    try (unfold dot_raw; simpl; ring).
  unfold vdiv in *. simpl.
  change (dot_raw (u / x :: map (fun t => t / x) a)
            (v / y :: map (fun t => t / y) b))
    with (u / x * (v / y)
          + dot_raw (map (fun t => t / x) a) (map (fun t => t / y) b)).
  change (dot_raw (u :: a) (v :: b)) with (u * v + dot_raw a b).
  rewrite IH. unfold Rdiv. ring.
Qed.

Lemma zip_minus_zeros (r : vec) : zip_with Rminus r (zeros (length r)) = r.
Proof.
  unfold zeros. induction r as [|x r IH]; [reflexivity|].
  simpl. rewrite IH. f_equal. ring.
Qed.

(** The formulas of lines 116-121 and the constant of line 133, for any
    successful call. *)
Lemma decompose_metrics (svd : vec -> option svd_result) (self : YSRNEngine)
    (ctx q : vec) (res : DecompositionResult) :
  decompose svd self ctx q = Ok res ->
  let total := norm (dr_R res) + norm (dr_S res) + norm (dr_N res) + eps in
  relevance_ratio res = norm (dr_R res) / total /\
  superfluous_ratio res = norm (dr_S res) / total /\
  noise_ratio res = norm (dr_N res) / total /\
  signal_quality res =
    norm (dr_R res) / (norm (dr_S res) + norm (dr_N res) + eps) /\
  r_components res = 1%Z /\
  length ctx = length q.
Proof.
  unfold decompose. intros H.
  assert (Hl : length ctx = length q).
  { unfold dot in H. rewrite !length_vdiv in H.
    destruct (Nat.eqb (length ctx) (length q)) eqn:E; [|discriminate].
    apply Nat.eqb_eq. exact E. }
  destruct (dot _ _) as [c|]; [|discriminate]. cbn [bind] in H.
  destruct (broadcast Rminus _ _) as [r|]; [|discriminate]. cbn [bind] in H.
  destruct (svd_or_fallback svd r) as [[U s] Vt].
  destruct (match where_ _ with [] => _ | _ => _ end) as [Nv|];
    [|discriminate].
  cbn [bind] in H.
  destruct (broadcast Rminus r Nv) as [Sv|]; [|discriminate]. cbn [bind] in H.
  destruct (match W_relevance self with Some _ => _ | None => _ end) as [Rv|];
    [|discriminate].
  cbn [bind] in H. injection H as <-. cbn. repeat split. exact Hl.
Qed.

End EngineMore.

(* When the raw dot product of the two embeddings is 0 (over the reals), the
   relevance coefficient is 0. *)
Lemma decompose_zero_dot
    (svd : vec -> option svd_result) (self : YSRNEngine) (ctx q : vec) :
  svd_sound svd ->
  W_relevance self = None ->
  length ctx = length q ->
  dot_raw ctx q = 0 ->
  exists res,
    decompose svd self ctx q = Ok res /\
    confidence res = 0 /\
    all_zero (dr_R res) /\
    relevance_ratio res = 0 /\
    signal_quality res = 0.
Proof.
  intros Hsvd HW Hl Hdot.
  destruct (decompose_returns svd Hsvd self ctx q Hl) as (res & Hres).
  { unfold projection_applicable. rewrite HW. exact I. }
  exists res. split; [exact Hres|].
  destruct (decompose_inv svd Hsvd self ctx q res Hl Hres)
    as (Nv & Rv & _ & _ & HR & _ & HRv & _ & _ & Hrr & _ & _ & Hsq & Hc & _).
  rewrite HW in HR. subst Rv.
  rewrite dot_raw_vdiv, Hdot, Rmult_0_l in HRv, Hc.
  assert (Hz : all_zero (dr_R res)) by (rewrite HRv; apply all_zero_scale_0).
  repeat split.
  - rewrite Hc. apply Rabs_R0.
  - exact Hz.
  - rewrite Hrr, (all_zero_norm _ Hz). unfold Rdiv. ring.
  - rewrite Hsq, (all_zero_norm _ Hz). unfold Rdiv. ring.
Qed.

Lemma disjoint_support_dot (a b : vec) :
  Forall2 (fun x y => x = 0 \/ y = 0) a b -> dot_raw a b = 0.
Proof.
  unfold dot_raw. induction 1 as [|x y a b Hxy _ IH]; simpl; [reflexivity|].
  rewrite IH. destruct Hxy as [-> | ->]; ring.
Qed.

(** Inputs with disjoint supports (at every position one of the two entries
    is 0): every product of the dot product is 0, so the relevance
    coefficient is 0, the relevant component is the zero vector and
    [confidence], [relevance_ratio] and [signal_quality] are 0. *)
Theorem decompose_disjoint_support
    (svd : vec -> option svd_result) (self : YSRNEngine) (ctx q : vec) :
  svd_sound svd ->
  W_relevance self = None ->
  Forall2 (fun x y => x = 0 \/ y = 0) ctx q ->
  exists res,
    decompose svd self ctx q = Ok res /\
    confidence res = 0 /\
    all_zero (dr_R res) /\
    relevance_ratio res = 0 /\
    signal_quality res = 0.
Proof.
  intros Hsvd HW Hsupp.
  apply decompose_zero_dot; try assumption.
  - exact (Forall2_length Hsupp).
  - apply disjoint_support_dot. exact Hsupp.
Qed.

Lemma decompose_disjoint_support_witness :
  exists res,
    decompose svd_col engine0 [0; 1] [1; 0] = Ok res /\
    confidence res = 0 /\
    all_zero (dr_R res) /\
    relevance_ratio res = 0 /\
    signal_quality res = 0.
Proof.
  apply (decompose_disjoint_support svd_col engine0 [0; 1] [1; 0]).
  - exact svd_col_sound.
  - reflexivity.
  - constructor; [left; reflexivity|].
    constructor; [right; reflexivity|constructor].
Defined.

(** The signal quality bounds the relevance ratio from above: both are
    computed from the norm of [R], the signal quality with the smaller
    denominator; the relevance ratio is non-negative and below 1. *)
Theorem decompose_signal_quality_bounds
    (svd : vec -> option svd_result) (self : YSRNEngine) (ctx q : vec)
    (res : DecompositionResult) :
  decompose svd self ctx q = Ok res ->
  0 <= relevance_ratio res /\
  relevance_ratio res <= signal_quality res /\
  relevance_ratio res < 1.
Proof.
  intros H.
  destruct (decompose_metrics svd self ctx q res H)
    as (Hrr & _ & _ & Hsq & _).
  pose proof (norm_nonneg (dr_R res)) as Ha.
  pose proof (norm_nonneg (dr_S res)) as Hb.
  pose proof (norm_nonneg (dr_N res)) as Hc.
  pose proof eps_pos as He.
  set (a := norm (dr_R res)) in *. set (b := norm (dr_S res)) in *.
  set (c := norm (dr_N res)) in *.
  assert (Hi : 0 < / (b + c + eps)) by (apply Rinv_0_lt_compat; lra).
  assert (Hj : 0 < / (a + b + c + eps)) by (apply Rinv_0_lt_compat; lra).
  assert (Hij : / (a + b + c + eps) <= / (b + c + eps)).
  { apply Rinv_le_contravar; lra. }
  assert (Hk : / (a + b + c + eps) * (a + b + c + eps) = 1) by (field; lra).
  rewrite Hrr, Hsq. unfold Rdiv.
  split; [nra|]. split; nra.
Qed.

Lemma decompose_signal_quality_bounds_witness :
  exists res,
    decompose svd_col engine0 [3; 4] [1; 0] = Ok res /\
    0 <= relevance_ratio res /\
    relevance_ratio res <= signal_quality res /\
    relevance_ratio res < 1.
Proof.
  destruct (decompose_returns svd_col svd_col_sound engine0 [3; 4] [1; 0]
              eq_refl I) as (res & Hres).
  exists res. split; [exact Hres|].
  exact (decompose_signal_quality_bounds svd_col engine0 [3; 4] [1; 0] res
           Hres).
Defined.

(** The confidence is symmetric in the two embeddings. *)
Theorem decompose_confidence_symmetric
    (svd : vec -> option svd_result) (self : YSRNEngine) (ctx q : vec) :
  svd_sound svd ->
  W_relevance self = None ->
  length ctx = length q ->
  exists res res',
    decompose svd self ctx q = Ok res /\
    decompose svd self q ctx = Ok res' /\
    confidence res = confidence res'.
Proof.
  intros Hsvd HW Hl.
  assert (HP : forall n, projection_applicable self n)
    by (intros n; unfold projection_applicable; rewrite HW; exact I).
  destruct (decompose_returns svd Hsvd self ctx q Hl (HP _)) as (res & Hres).
  destruct (decompose_returns svd Hsvd self q ctx (eq_sym Hl) (HP _))
    as (res' & Hres').
  exists res, res'. repeat split; try assumption.
  destruct (decompose_inv svd Hsvd self ctx q res Hl Hres)
    as (_ & _ & _ & _ & _ & _ & _ & _ & _ & _ & _ & _ & _ & Hc & _).
  destruct (decompose_inv svd Hsvd self q ctx res' (eq_sym Hl) Hres')
    as (_ & _ & _ & _ & _ & _ & _ & _ & _ & _ & _ & _ & _ & Hc' & _).
  rewrite Hc, Hc'. f_equal. apply dot_raw_comm.
Qed.

Lemma decompose_confidence_symmetric_witness :
  exists res res',
    decompose svd_col engine0 [3; 4] [1; 0] = Ok res /\
    decompose svd_col engine0 [1; 0] [3; 4] = Ok res' /\
    confidence res = confidence res'.
Proof.
  apply (decompose_confidence_symmetric svd_col engine0 [3; 4] [1; 0]).
  - exact svd_col_sound.
  - reflexivity.
  - reflexivity.
Defined.

Section LowEnergy.

Variable svd : vec -> option svd_result.
Hypothesis svd_ok : svd_sound svd.

Lemma mask_low (e t : R) :
  0 < t < 1 -> 0 <= e -> e <= (1 - t) / t * eps ->
  Rgtb ((0 + e) / (e + 0 + eps)) (1 - t) = false.
Proof.
  intros Ht He Hle. unfold Rgtb.
  destruct (Rlt_dec _ _) as [Hlt|]; [|reflexivity].
  exfalso. pose proof eps_pos as Hp.
  assert (Hte : t * e <= (1 - t) * eps).
  { apply (Rmult_le_compat_l t) in Hle; [|lra].
    replace (t * ((1 - t) / t * eps)) with ((1 - t) * eps) in Hle
      by (field; lra).
    exact Hle. }
  apply (Rmult_lt_compat_r (e + 0 + eps)) in Hlt; [|lra].
  replace ((0 + e) / (e + 0 + eps) * (e + 0 + eps)) with e in Hlt
    by (field; lra).
  lra.
Qed.

(** Below the energy bound nothing is selected, on the SVD path and on the
    fallback path alike. *)
Lemma noise_component_low (t : R) (r : vec) :
  0 < t < 1 -> sumsq r <= (1 - t) / t * eps ->
  noise_component svd t r = Ok (zeros (length r)) /\
  noise_indices_of svd t r = [].
Proof.
  intros Ht Hr.
  unfold noise_component, noise_indices_of, svd_or_fallback.
  destruct (svd r) as [[[U s] Vt]|] eqn:E.
  - pose proof (svd_ok _ _ _ _ E) as Hc.
    destruct r as [|r0 r'].
    + destruct Hc as (-> & -> & ->). split; reflexivity.
    + destruct Hc as (u & s0 & v & -> & -> & -> & Hl & Hs & Hu & Hv & Ha).
      pose proof (svd_singular_value _ _ _ _ Hs Hu Hv Ha) as Hs0.
      cbn [map cumsum cumsum_from vdiv where_ where_from sum].
      rewrite mask_low; [split; reflexivity|exact Ht|apply sq_nonneg|].
      unfold sq. rewrite Hs0, norm_sq. exact Hr.
  - cbn [map cumsum cumsum_from vdiv where_ where_from sum].
    rewrite mask_low; [split; reflexivity|exact Ht|apply sq_nonneg|].
    unfold sq. rewrite norm_sq. exact Hr.
Qed.

(** At most one singular value, hence at most one selected component. *)
Lemma spectrum_size (t : R) (r : vec) :
  (length (singular_values_of svd r) <= 1)%nat /\
  (length (noise_indices_of svd t r) <= length (singular_values_of svd r))%nat.
Proof.
  unfold noise_indices_of, singular_values_of, svd_or_fallback.
  destruct (svd r) as [[[U s] Vt]|] eqn:E.
  - pose proof (svd_ok _ _ _ _ E) as Hc.
    destruct r as [|r0 r'].
    + destruct Hc as (-> & -> & ->). simpl. lia.
    + destruct Hc as (u & s0 & v & -> & -> & -> & _).
      cbn [map cumsum cumsum_from vdiv where_ where_from length].
      destruct (Rgtb _ _); simpl; lia.
  - cbn [map cumsum cumsum_from vdiv where_ where_from length].
    destruct (Rgtb _ _); simpl; lia.
Qed.

End LowEnergy.



(** Component counts: every result reports one relevant component, no
    superfluous component, and zero or one noise component. *)
Theorem decompose_component_counts
    (svd : vec -> option svd_result) (self : YSRNEngine) (ctx q : vec)
    (res : DecompositionResult) :
  svd_sound svd ->
  decompose svd self ctx q = Ok res ->
  r_components res = 1%Z /\
  s_components res = 0%Z /\
  (n_components res = 0%Z \/ n_components res = 1%Z).
Proof.
  intros Hsvd Hres.
  destruct (decompose_metrics svd self ctx q res Hres)
    as (_ & _ & _ & _ & Hrc & Hl).
  destruct (decompose_inv svd Hsvd self ctx q res Hl Hres)
    as (_ & _ & _ & _ & _ & _ & _ & _ & _ & _ & _ & _ & _ & _ & Hn & Hs).
  match type of Hn with
  | _ = Z.of_nat (length (noise_indices_of svd ?t ?r)) =>
      destruct (spectrum_size svd Hsvd t r) as (H1 & H2)
  end.
  repeat split; [exact Hrc|lia|lia].
Qed.

Lemma decompose_component_counts_witness :
  exists res,
    decompose svd_col engine0 [3; 4] [1; 0] = Ok res /\
    r_components res = 1%Z /\
    s_components res = 0%Z /\
    (n_components res = 0%Z \/ n_components res = 1%Z).
Proof.
  destruct (decompose_returns svd_col svd_col_sound engine0 [3; 4] [1; 0]
              eq_refl I) as (res & Hres).
  exists res. split; [exact Hres|].
  exact (decompose_component_counts svd_col engine0 [3; 4] [1; 0] res
           svd_col_sound Hres).
Defined.

(** * Further properties of classification *)

(** A successful [classify_context] returns the same block (identifier,
    content and embedding unchanged) with the three scores overwritten by
    numbers that are non-negative and add up to less than 1, whatever the
    scores were before. *)
Theorem classify_context_scores
    (svd : vec -> option svd_result) (self : YSRNEngine)
    (context c' : ContextBlock) (query : Query) :
  classify_context svd self context query = Ok c' ->
  block_id c' = block_id context /\
  content c' = content context /\
  embedding c' = embedding context /\
  exists rr sr nr,
    relevance_score c' = Some rr /\
    superfluous_score c' = Some sr /\
    noise_score c' = Some nr /\
    0 <= rr /\ 0 <= sr /\ 0 <= nr /\ rr + sr + nr < 1.
Proof.
  unfold classify_context.
  destruct (embedding context) as [ce|]; [|discriminate].
  destruct (query_embedding query) as [qe|]; [|discriminate].
  destruct (decompose svd self (ctx_to_numpy ce) (q_to_numpy qe))
    as [res|e] eqn:Hres; [|discriminate].
  cbn [bind]. intros [= <-]. cbn.
  repeat split.
  exists (relevance_ratio res), (superfluous_ratio res), (noise_ratio res).
  destruct (decompose_metrics svd self _ _ res Hres)
    as (Hrr & Hsr & Hnr & _).
  pose proof (ratio_sum (norm (dr_R res)) (norm (dr_S res)) (norm (dr_N res))
                (norm_nonneg _) (norm_nonneg _) (norm_nonneg _)) as Hsum.
  cbv zeta in Hsum, Hrr, Hsr, Hnr. rewrite <- Hrr, <- Hsr, <- Hnr in Hsum.
  destruct Hsum as (H1 & H2 & H3 & H4 & _).
  repeat split; assumption.
Qed.

Lemma classify_context_scores_witness :
  exists c',
    classify_context svd_col engine0 (block "a" [1]) (query_of [1]) = Ok c' /\
    block_id c' = "a"%string /\
    exists rr sr nr,
      relevance_score c' = Some rr /\
      superfluous_score c' = Some sr /\
      noise_score c' = Some nr /\
      0 <= rr /\ 0 <= sr /\ 0 <= nr /\ rr + sr + nr < 1.
Proof.
  destruct (decompose_returns svd_col svd_col_sound engine0 [1] [1] eq_refl I)
    as (res & Hres).
  assert (H : classify_context svd_col engine0 (block "a" [1]) (query_of [1])
              = Ok {| block_id := "a";
                      content := "a";
                      embedding := embedding (block "a" [1]);
                      relevance_score := Some (relevance_ratio res);
                      superfluous_score := Some (superfluous_ratio res);
                      noise_score := Some (noise_ratio res) |}).
  { unfold classify_context. cbn [embedding block query_embedding query_of].
    unfold ctx_to_numpy, q_to_numpy.
    cbn [ctx_vector q_vector QueryEmbedding_from_numpy].
    rewrite Hres. reflexivity. }
  eexists. split; [exact H|].
  destruct (classify_context_scores svd_col engine0 _ _ _ H)
    as (H1 & _ & _ & H4).
  split; [exact H1|exact H4].
Defined.

(** Embeddings of different lengths are rejected, not truncated: [decompose]
    raises numpy's shape error, and so does [classify_context] when both
    embeddings are present. *)
Theorem classify_dimension_mismatch
    (svd : vec -> option svd_result) (self : YSRNEngine)
    (context : ContextBlock) (query : Query)
    (ce : ContextEmbedding) (qe : QueryEmbedding) :
  embedding context = Some ce ->
  query_embedding query = Some qe ->
  length (ctx_vector ce) <> length (q_vector qe) ->
  decompose svd self (ctx_vector ce) (q_vector qe) = Raise ShapeMismatch /\
  classify_context svd self context query = Raise ShapeMismatch.
Proof.
  intros Hce Hqe Hne.
  assert (Hd : decompose svd self (ctx_vector ce) (q_vector qe)
               = Raise ShapeMismatch).
  { unfold decompose, dot. rewrite !length_vdiv.
    destruct (Nat.eqb _ _) eqn:E; [apply Nat.eqb_eq in E; contradiction|].
    reflexivity. }
  split; [exact Hd|].
  unfold classify_context. rewrite Hce, Hqe.
  unfold ctx_to_numpy, q_to_numpy. rewrite Hd. reflexivity.
Qed.

Lemma classify_dimension_mismatch_witness :
  decompose svd_col engine0 [1; 2; 3] [1; 0] = Raise ShapeMismatch /\
  classify_context svd_col engine0 (block "a" [1; 2; 3]) (query_of [1; 0])
    = Raise ShapeMismatch.
Proof.
  apply (classify_dimension_mismatch svd_col engine0
           (block "a" [1; 2; 3]) (query_of [1; 0])
           {| ctx_vector := [1; 2; 3]; ctx_dimension := 3;
              model_id := "default" |}
           (QueryEmbedding_from_numpy [1; 0])).
  - reflexivity.
  - reflexivity.
  - simpl. discriminate.
Defined.

(** Batch forms are positional maps: [batch_classify] succeeds exactly when
    every single [classify_context] does, and then the [i]-th output is the
    classification of the [i]-th input; likewise [batch_decompose]. *)
Theorem batch_forms_pointwise
    (svd : vec -> option svd_result) (self : YSRNEngine) (query : Query)
    (q : vec) :
  (forall contexts out,
     batch_classify svd self contexts query = Ok out <->
     Forall2 (fun c c' => classify_context svd self c query = Ok c')
       contexts out) /\
  (forall embeddings out,
     batch_decompose svd self embeddings q = Ok out <->
     Forall2 (fun e r => decompose svd self e q = Ok r) embeddings out).
Proof.
  split.
  - intros l. induction l as [|c cs IH]; intros out; simpl.
    + split; [intros [= <-]; constructor|intros H; inversion H; reflexivity].
    + split.
      * destruct (classify_context svd self c query) as [c'|e] eqn:Ec;
          [|discriminate].
        cbn [bind].
        destruct (batch_classify svd self cs query) as [rest|e] eqn:Eb;
          [|discriminate].
        cbn [bind]. intros [= <-]. constructor; [exact Ec|].
        apply IH. reflexivity.
      * intros H. inversion H as [|? c' ? rest Hc Hrest]; subst.
        rewrite Hc. cbn [bind].
        apply IH in Hrest. rewrite Hrest. reflexivity.
  - intros l. induction l as [|c cs IH]; intros out; simpl.
    + split; [intros [= <-]; constructor|intros H; inversion H; reflexivity].
    + split.
      * destruct (decompose svd self c q) as [c'|e] eqn:Ec; [|discriminate].
        cbn [bind].
        destruct (batch_decompose svd self cs q) as [rest|e] eqn:Eb;
          [|discriminate].
        cbn [bind]. intros [= <-]. constructor; [exact Ec|].
        apply IH. reflexivity.
      * intros H. inversion H as [|? c' ? rest Hc Hrest]; subst.
        rewrite Hc. cbn [bind].
        apply IH in Hrest. rewrite Hrest. reflexivity.
Qed.

(** * Further properties of the gated retriever *)

Section SigmoidSoftmax.

Lemma sigmoid_bounds (t : R) : 0 < 1 / (1 + exp (- clip (-500) 500 t)) < 1.
Proof.
  pose proof (exp_pos (- clip (-500) 500 t)) as He.
  set (e := exp (- clip (-500) 500 t)) in *.
  assert (Hi : 0 < / (1 + e)) by (apply Rinv_0_lt_compat; lra).
  assert (Hk : / (1 + e) * (1 + e) = 1) by (field; lra).
  unfold Rdiv. rewrite Rmult_1_l. split; [exact Hi|]. nra.
Qed.

Lemma sigmoid_all_bounds (x : vec) : Forall (fun g => 0 < g < 1) (_sigmoid x).
Proof.
  apply Forall_forall. intros g Hg.
  unfold _sigmoid in Hg. apply in_map_iff in Hg.
  destruct Hg as (t & <- & _). apply sigmoid_bounds.
Qed.

Lemma clip_monotone (x y : R) : x <= y -> clip (-500) 500 x <= clip (-500) 500 y.
Proof.
  intros H. unfold clip.
  apply Rle_min_compat_l. apply Rle_max_compat_l. exact H.
Qed.

Lemma maximum_ge_init (x : R) (v : vec) : x <= maximum x v.
Proof.
  revert x; induction v as [|y v IH]; intros x; simpl; [lra|].
  eapply Rle_trans; [apply Rmax_l|apply IH].
Qed.

Lemma maximum_ge (x : R) (v : vec) (y : R) : In y v -> y <= maximum x v.
Proof.
  revert x; induction v as [|z v IH]; intros x; simpl; [contradiction|].
  intros [<-|Hy].
  - eapply Rle_trans; [apply Rmax_r|apply maximum_ge_init].
  - apply IH. exact Hy.
Qed.

Lemma maximum_in (x : R) (v : vec) : In (maximum x v) (x :: v).
Proof.
  revert x; induction v as [|z v IH]; intros x; simpl; [left; reflexivity|].
  destruct (IH (Rmax x z)) as [H|H].
  - rewrite <- H. unfold Rmax. destruct (Rle_dec x z); auto.
  - right; right. exact H.
Qed.

Lemma maximum_shift (c x : R) (v : vec) :
  maximum (x + c) (map (fun t => t + c) v) = maximum x v + c.
Proof.
  revert x; induction v as [|z v IH]; intros x; simpl; [reflexivity|].
  rewrite <- IH. f_equal.
  unfold Rmax. destruct (Rle_dec (x + c) (z + c)), (Rle_dec x z); lra.
Qed.

Lemma sum_vdiv (v : vec) (c : R) : sum (vdiv v c) = sum v / c.
Proof.
  unfold vdiv. induction v as [|x v IH]; simpl; [unfold Rdiv; ring|].
  rewrite IH. unfold Rdiv. ring.
Qed.

Lemma sum_exp_pos (m : R) (v : vec) :
  0 <= sum (map (fun t => exp (t - m)) v).
Proof.
  induction v as [|x v IH]; simpl; [lra|].
  pose proof (exp_pos (x - m)). lra.
Qed.

Lemma sum_exp_ge_member (m : R) (v : vec) (y : R) :
  In y v -> exp (y - m) <= sum (map (fun t => exp (t - m)) v).
Proof.
  induction v as [|x v IH]; simpl; [contradiction|].
  intros [<-|Hy].
  - pose proof (sum_exp_pos m v). lra.
  - pose proof (exp_pos (x - m)). specialize (IH Hy). lra.
Qed.

End SigmoidSoftmax.

(** Every entry of a sigmoid output lies strictly between 0 and 1 (over the
    reals), and the sigmoid is monotone entry by entry: larger logits never
    give a smaller gate. *)
Theorem sigmoid_unit_interval (x y : vec) :
  Forall (fun g => 0 < g < 1) (_sigmoid x) /\
  length (_sigmoid x) = length x /\
  (Forall2 Rle x y -> Forall2 Rle (_sigmoid x) (_sigmoid y)).
Proof.
  repeat split.
  - apply Forall_forall. intros g Hg.
    unfold _sigmoid in Hg. apply in_map_iff in Hg.
    destruct Hg as (t & <- & _). apply sigmoid_bounds.
  - apply length_map.
  - induction 1 as [|a b x' y' Hab _ IH]; simpl; constructor; [|exact IH].
    pose proof (clip_monotone a b Hab) as Hc.
    pose proof (exp_pos (- clip (-500) 500 a)) as Ha.
    pose proof (exp_pos (- clip (-500) 500 b)) as Hb.
    assert (He : exp (- clip (-500) 500 b) <= exp (- clip (-500) 500 a)).
    { destruct (Req_dec (clip (-500) 500 a) (clip (-500) 500 b)) as [->|Hne];
        [lra|].
      left. apply exp_increasing. lra. }
    unfold Rdiv. rewrite !Rmult_1_l.
    apply Rinv_le_contravar; lra.
Qed.

Lemma sigmoid_unit_interval_witness :
  Forall (fun g => 0 < g < 1) (_sigmoid [-1; 700]) /\
  Forall2 Rle (_sigmoid [-1; 700]) (_sigmoid [0; 900]).
Proof.
  destruct (sigmoid_unit_interval [-1; 700] [0; 900]) as (H1 & _ & H3).
  split; [exact H1|]. apply H3.
  repeat constructor; lra.
Defined.

(* Over the reals the weights are strictly between 0 and 1 and their sum is
   below 1 by less than 1e-8. *)
Lemma softmax_weights_real (a : R) (v : vec) :
  _softmax [] = Raise ShapeMismatch /\
  exists w,
    _softmax (a :: v) = Ok w /\
    length w = length (a :: v) /\
    Forall (fun x => 0 < x < 1) w /\
    1 - 1e-8 < sum w < 1.
Proof.
  split; [reflexivity|].
  unfold _softmax. cbn [amax bind].
  set (m := maximum a v).
  set (ex := map (fun t => exp (t - m)) (a :: v)).
  eexists. split; [reflexivity|].
  assert (HS1 : 1 <= sum ex).
  { pose proof (sum_exp_ge_member m (a :: v) m (maximum_in a v)) as H.
    replace (m - m) with 0 in H by ring. rewrite exp_0 in H. exact H. }
  pose proof eps_pos as He.
  split; [unfold ex; rewrite length_vdiv, length_map; reflexivity|].
  split.
  - apply Forall_forall. intros x Hx. unfold vdiv in Hx.
    apply in_map_iff in Hx. destruct Hx as (e & <- & Hin).
    pose proof Hin as Hin'. unfold ex in Hin'. apply in_map_iff in Hin'.
    destruct Hin' as (t & <- & Ht).
    pose proof (exp_pos (t - m)) as Hpos.
    pose proof (sum_exp_ge_member m (a :: v) t Ht) as Hle.
    fold ex in Hle.
    assert (Hi : 0 < / (sum ex + eps)) by (apply Rinv_0_lt_compat; lra).
    assert (Hk : / (sum ex + eps) * (sum ex + eps) = 1) by (field; lra).
    unfold Rdiv. split; nra.
  - rewrite sum_vdiv.
    assert (Hi : 0 < / (sum ex + eps)) by (apply Rinv_0_lt_compat; lra).
    assert (Hk : / (sum ex + eps) * (sum ex + eps) = 1) by (field; lra).
    unfold Rdiv. unfold eps in *. split; nra.
Qed.

(** The numerically stable softmax: it raises on an empty array; on a
    non-empty one it returns as many weights as scores, each in the closed
    interval [0, 1]. *)
Theorem softmax_weights_unit (a : R) (v : vec) :
  _softmax [] = Raise ShapeMismatch /\
  exists w,
    _softmax (a :: v) = Ok w /\
    length w = length (a :: v) /\
    Forall (fun x => 0 <= x <= 1) w.
Proof.
  destruct (softmax_weights_real a v) as (H0 & w & Hw & Hl & Hb & _).
  split; [exact H0|]. exists w. split; [exact Hw|]. split; [exact Hl|].
  eapply Forall_impl; [|exact Hb]. cbn. intros x Hx. lra.
Qed.

(** The softmax is invariant under adding one constant to every score. *)
Theorem softmax_shift_invariant (c : R) (x : vec) :
  _softmax (map (fun t => t + c) x) = _softmax x.
Proof.
  destruct x as [|a v]; [reflexivity|].
  unfold _softmax. cbn [map amax bind].
  rewrite maximum_shift.
  set (m := maximum a v).
  replace (exp (a + c - (m + c))) with (exp (a - m)) by (f_equal; ring).
  replace (map (fun t => exp (t - (m + c))) (map (fun t => t + c) v))
    with (map (fun t => exp (t - m)) v); [reflexivity|].
  rewrite map_map. apply map_ext. intros t. f_equal. ring.
Qed.

Lemma compute_gated_attention_gate (self : GatedContextRetriever) (q : vec)
    (keys values : matrix) (go gate : vec) :
  compute_gated_attention self q keys values = Ok (go, gate) ->
  exists proj logits,
    vecmat q (W_gate self) = Ok proj /\
    broadcast Rplus proj (gate_bias self) = Ok logits /\
    gate = _sigmoid logits.
Proof.
  unfold compute_gated_attention. intros H.
  destruct (dot_rows q keys) as [raw|]; [|discriminate]. cbn [bind] in H.
  destruct (_softmax _) as [w|]; [|discriminate]. cbn [bind] in H.
  destruct (weighted_rows w values) as [sdpa|]; [|discriminate].
  cbn [bind] in H.
  destruct (vecmat q (W_gate self)) as [proj|]; [|discriminate].
  cbn [bind] in H.
  destruct (broadcast Rplus proj (gate_bias self)) as [logits|] eqn:El;
    [|discriminate].
  cbn [bind] in H.
  destruct (if Nat.leb _ _ then _ else _) as [g|]; [|discriminate].
  cbn [bind] in H. injection H as _ <-.
  exists proj, logits. repeat split. exact El.
Qed.

(** The gate depends on the query alone: two calls with the same query and
    any two sets of keys and values return the same gate vector, with every
    entry in the closed interval [0, 1]. *)
Theorem gate_query_only (self : GatedContextRetriever) (q : vec)
    (keys1 values1 keys2 values2 : matrix) (go1 gate1 go2 gate2 : vec) :
  compute_gated_attention self q keys1 values1 = Ok (go1, gate1) ->
  compute_gated_attention self q keys2 values2 = Ok (go2, gate2) ->
  gate1 = gate2 /\ Forall (fun g => 0 <= g <= 1) gate1.
Proof.
  intros H1 H2.
  destruct (compute_gated_attention_gate _ _ _ _ _ _ H1)
    as (p1 & l1 & Hp1 & Hl1 & ->).
  destruct (compute_gated_attention_gate _ _ _ _ _ _ H2)
    as (p2 & l2 & Hp2 & Hl2 & ->).
  rewrite Hp1 in Hp2. injection Hp2 as <-.
  rewrite Hl1 in Hl2. injection Hl2 as <-.
  split; [reflexivity|].
  eapply Forall_impl; [|apply sigmoid_all_bounds]. cbn. intros g Hg. lra.
Qed.

Lemma gate_query_only_witness :
  exists go1 gate1 go2 gate2,
    compute_gated_attention retriever2 [1; 0] [[1; 0]] [[1; 0]]
      = Ok (go1, gate1) /\
    compute_gated_attention retriever2 [1; 0] [[0; 1]; [1; 1]] [[0; 1]; [1; 1]]
      = Ok (go2, gate2) /\
    gate1 = gate2 /\ Forall (fun g => 0 <= g <= 1) gate1.
Proof.
  destruct (compute_gated_attention_returns retriever2 [1; 0] [[1; 0]] 2)
    as (g1 & H1);
    [exact wf_retriever2|reflexivity|discriminate|repeat constructor|].
  destruct (compute_gated_attention_returns retriever2 [1; 0]
              [[0; 1]; [1; 1]] 2)
    as (g2 & H2);
    [exact wf_retriever2|reflexivity|discriminate|repeat constructor|].
  exists g1, (gate_of retriever2 [1; 0]), g2, (gate_of retriever2 [1; 0]).
  split; [exact H1|]. split; [exact H2|].
  exact (gate_query_only _ _ _ _ _ _ _ _ _ _ H1 H2).
Defined.

Lemma filter_idem {A : Type} (f : A -> bool) (l : list A) :
  filter f (filter f l) = filter f l.
Proof.
  induction l as [|x l IH]; [reflexivity|].
  simpl. destruct (f x) eqn:E; [|exact IH].
  simpl. rewrite E, IH. reflexivity.
Qed.

(** Candidates without an embedding are silently ignored: [retrieve] gives
    the same answer on a list and on that list with the candidates lacking
    an embedding removed. *)
Theorem retrieve_ignores_unembedded
    (argsort : vec -> list nat) (self : GatedContextRetriever)
    (query : Query) (candidates : list ContextBlock) (top_k : Z) :
  retrieve argsort self query candidates top_k =
  retrieve argsort self query (filter has_embedding candidates) top_k.
Proof.
  unfold retrieve.
  destruct candidates as [|c cs]; [reflexivity|].
  destruct (query_embedding query) as [qe|].
  - destruct (filter has_embedding (c :: cs)) as [|v vs] eqn:Ev;
      [reflexivity|].
    rewrite <- Ev, filter_idem, Ev. reflexivity.
  - destruct (filter has_embedding (c :: cs)); reflexivity.
Qed.

(** How many candidates [retrieve] returns, for every integer [top_k]: the
    smaller of [top_k] and the number [n] of candidates with an embedding
    when [top_k >= 0]; for a negative [top_k] the slice [[:top_k]] drops the
    last [-top_k] positions, so [n + top_k] candidates (none when that is
    negative). *)
Theorem retrieve_length
    (argsort : vec -> list nat) (self : GatedContextRetriever)
    (query : Query) (qe : QueryEmbedding) (candidates : list ContextBlock)
    (top_k : Z) (h : nat) :
  argsort_sound argsort ->
  wf_retriever self h ->
  query_embedding query = Some qe ->
  length (q_vector qe) = h ->
  embeddings_of_dim candidates h ->
  let n := length (filter has_embedding candidates) in
  exists out,
    retrieve argsort self query candidates top_k = Ok out /\
    ((0 <= top_k)%Z -> length out = Nat.min (Z.to_nat top_k) n) /\
    ((top_k < 0)%Z -> length out = Z.to_nat (Z.of_nat n + top_k)).
Proof.
  intros Hsort Hwf Hqe Hq Hdim n.
  eexists. split; [apply (retrieve_spec argsort Hsort self query qe candidates
                            top_k h (block "" [])); assumption|].
  rewrite length_map. unfold slice_to.
  assert (Hl : length (rev (argsort (scores_of self (q_vector qe)
                                       (filter has_embedding candidates)))) = n).
  { rewrite length_rev, (argsort_length argsort Hsort).
    unfold scores_of. apply length_map. }
  split; intros Hk.
  - destruct (top_k <? 0)%Z eqn:E; [apply Z.ltb_lt in E; lia|].
    rewrite length_firstn, Hl. reflexivity.
  - apply Z.ltb_lt in Hk. rewrite Hk.
    rewrite length_firstn, Hl. lia.
Qed.

Lemma retrieve_length_witness :
  exists out,
    retrieve argsort_insertion retriever1 (query_of [1])
      [block "a" [1]; block "b" [2]; block "c" [3]] (-1) = Ok out /\
    length out = 2%nat.
Proof.
  destruct (retrieve_length argsort_insertion retriever1 (query_of [1])
              (QueryEmbedding_from_numpy [1])
              [block "a" [1]; block "b" [2]; block "c" [3]] (-1) 1)
    as (out & H1 & _ & H3).
  - exact argsort_insertion_sound.
  - exact wf_retriever1.
  - reflexivity.
  - reflexivity.
  - repeat constructor.
  - exists out. split; [exact H1|]. apply H3. lia.
Defined.

Section RetrieveErrors.

Lemma final_scores_of_key_mismatch (self : GatedContextRetriever) (q k0 : vec)
    (ks : matrix) :
  length k0 <> length q ->
  final_scores_of self q (k0 :: ks) = Raise ShapeMismatch.
Proof.
  intros Hne. unfold final_scores_of, compute_gated_attention.
  cbn [dot_rows]. unfold dot.
  destruct (Nat.eqb (length q) (length k0)) eqn:E;
    [apply Nat.eqb_eq in E; congruence|].
  reflexivity.
Qed.

Lemma final_scores_of_gate_mismatch (self : GatedContextRetriever) (q : vec)
    (keys : matrix) :
  keys <> [] -> Forall (fun k => length k = length q) keys ->
  length q <> length (W_gate self) ->
  final_scores_of self q keys = Raise ShapeMismatch.
Proof.
  intros Hne Hkeys HW. unfold final_scores_of, compute_gated_attention.
  rewrite dot_rows_same_length by exact Hkeys. cbn [bind].
  remember (vdiv (map (dot_raw q) keys) (sqrt (INR (length q) + eps)))
    as scores eqn:Es.
  assert (Hls : length scores = length keys)
    by (rewrite Es, length_vdiv, length_map; reflexivity).
  unfold _softmax.
  destruct scores as [|s0 scores'].
  { destruct keys; [congruence|discriminate]. }
  cbn [amax bind].
  unfold weighted_rows, vecmat at 1.
  rewrite length_vdiv, length_map, Hls, Nat.eqb_refl. cbn [bind].
  unfold vecmat.
  destruct (Nat.eqb (length q) (length (W_gate self))) eqn:E;
    [apply Nat.eqb_eq in E; congruence|].
  reflexivity.
Qed.

Lemma stack_mixed (rows : list vec) (r1 r2 : vec) :
  In r1 rows -> In r2 rows -> length r1 <> length r2 ->
  stack rows = Raise ShapeMismatch.
Proof.
  intros H1 H2 Hne. destruct rows as [|r rest]; [reflexivity|].
  unfold stack.
  destruct (forallb (fun r' => Nat.eqb (length r') (length r)) rest) eqn:E;
    [|reflexivity].
  exfalso. rewrite forallb_forall in E.
  assert (Hall : forall x, In x (r :: rest) -> length x = length r).
  { intros x [<-|Hx]; [reflexivity|]. apply Nat.eqb_eq. apply E. exact Hx. }
  rewrite (Hall r1 H1), (Hall r2 H2) in Hne. congruence.
Qed.

End RetrieveErrors.

(** Dimension mismatches are reported, not truncated.  When some candidate
    has an embedding and the query has one, [retrieve] raises numpy's shape
    error if the candidates' embedding length differs from the query's, or if
    the query's length differs from the number of rows of the gate matrix
    (the retriever's hidden dimension [num_heads * head_dim]). *)
Theorem retrieve_dimension_mismatch
    (argsort : vec -> list nat) (self : GatedContextRetriever)
    (query : Query) (qe : QueryEmbedding) (candidates : list ContextBlock)
    (top_k : Z) (d : nat) :
  query_embedding query = Some qe ->
  filter has_embedding candidates <> [] ->
  embeddings_of_dim candidates d ->
  d <> length (q_vector qe) \/
  length (q_vector qe) <> length (W_gate self) ->
  retrieve argsort self query candidates top_k = Raise ShapeMismatch.
Proof.
  intros Hqe Hne Hdim Hmis.
  assert (Hall : Forall (fun c => length (embedding_vec c) = d)
                   (filter has_embedding candidates)).
  { apply Forall_forall. intros c Hc.
    apply filter_In in Hc. destruct Hc as (Hin & Hhas).
    unfold embeddings_of_dim in Hdim. rewrite Forall_forall in Hdim.
    specialize (Hdim c Hin). unfold embedding_vec, has_embedding in *.
    destruct (embedding c); [exact Hdim|discriminate]. }
  unfold retrieve. rewrite Hqe.
  destruct candidates as [|c0 cs]; [simpl in Hne; congruence|].
  remember (filter has_embedding (c0 :: cs)) as valid eqn:Ev.
  destruct valid as [|v0 vs]; [congruence|].
  rewrite Ev at 1. rewrite embeddings_to_numpy_valid. rewrite <- Ev.
  cbn [bind].
  rewrite (stack_same_length _ d);
    [|discriminate|rewrite Forall_map; exact Hall].
  cbn [bind]. unfold q_to_numpy.
  destruct (Nat.eq_dec d (length (q_vector qe))) as [Hd|Hd].
  - destruct Hmis as [Hmis|Hmis]; [congruence|].
    rewrite final_scores_of_gate_mismatch; [reflexivity|discriminate| |exact Hmis].
    rewrite Forall_map. eapply Forall_impl; [|exact Hall].
    simpl. intros; congruence.
  - cbn [map]. rewrite final_scores_of_key_mismatch; [reflexivity|].
    apply Forall_inv in Hall. congruence.
Qed.

Lemma retrieve_dimension_mismatch_witness :
  retrieve argsort_insertion retriever2 (query_of [1; 0; 0])
    [block "a" [1; 0; 0]] 10 = Raise ShapeMismatch.
Proof.
  apply (retrieve_dimension_mismatch argsort_insertion retriever2
           (query_of [1; 0; 0]) (QueryEmbedding_from_numpy [1; 0; 0])
           [block "a" [1; 0; 0]] 10 3).
  - reflexivity.
  - discriminate.
  - repeat constructor.
  - right. simpl. discriminate.
Defined.

(** Candidates whose embeddings have different lengths cannot be stacked:
    [retrieve] raises numpy's shape error. *)
Theorem retrieve_mixed_dimensions
    (argsort : vec -> list nat) (self : GatedContextRetriever)
    (query : Query) (qe : QueryEmbedding) (candidates : list ContextBlock)
    (top_k : Z) (c1 c2 : ContextBlock) (e1 e2 : ContextEmbedding) :
  query_embedding query = Some qe ->
  In c1 candidates -> In c2 candidates ->
  embedding c1 = Some e1 -> embedding c2 = Some e2 ->
  length (ctx_vector e1) <> length (ctx_vector e2) ->
  retrieve argsort self query candidates top_k = Raise ShapeMismatch.
Proof.
  intros Hqe H1 H2 He1 He2 Hne.
  assert (Hv1 : In c1 (filter has_embedding candidates)).
  { apply filter_In. split; [exact H1|]. unfold has_embedding.
    rewrite He1. reflexivity. }
  assert (Hv2 : In c2 (filter has_embedding candidates)).
  { apply filter_In. split; [exact H2|]. unfold has_embedding.
    rewrite He2. reflexivity. }
  unfold retrieve. rewrite Hqe.
  destruct candidates as [|c0 cs]; [destruct H1|].
  remember (filter has_embedding (c0 :: cs)) as valid eqn:Ev.
  destruct valid as [|v0 vs]; [destruct Hv1|].
  rewrite Ev at 1. rewrite embeddings_to_numpy_valid. rewrite <- Ev.
  cbn [bind].
  rewrite (stack_mixed _ (embedding_vec c1) (embedding_vec c2));
    [reflexivity|apply in_map; exact Hv1|apply in_map; exact Hv2|].
  unfold embedding_vec. rewrite He1, He2. exact Hne.
Qed.

Lemma retrieve_mixed_dimensions_witness :
  retrieve argsort_insertion retriever1 (query_of [1])
    [block "a" [1]; block "b" [1; 2]] 10 = Raise ShapeMismatch.
Proof.
  apply (retrieve_mixed_dimensions argsort_insertion retriever1 (query_of [1])
           (QueryEmbedding_from_numpy [1])
           [block "a" [1]; block "b" [1; 2]] 10
           (block "a" [1]) (block "b" [1; 2])
           {| ctx_vector := [1]; ctx_dimension := 1; model_id := "default" |}
           {| ctx_vector := [1; 2]; ctx_dimension := 2;
              model_id := "default" |}).
  - reflexivity.
  - left; reflexivity.
  - right; left; reflexivity.
  - reflexivity.
  - reflexivity.
  - simpl. discriminate.
Defined.

(** * Further properties of the query pipeline *)

Section PipelineFacts.

Lemma insert_desc_sorted (key : ContextBlock -> R) (x : ContextBlock)
    (l : list ContextBlock) :
  StronglySorted (fun a b => key b <= key a) l ->
  StronglySorted (fun a b => key b <= key a) (insert_desc key x l).
Proof.
  induction 1 as [|y l Hs IH Hy]; simpl; [repeat constructor|].
  destruct (Rlt_dec (key x) (key y)) as [Hlt|Hge].
  - constructor; [exact IH|].
    apply Forall_forall. intros z Hz.
    apply (Permutation_in _ (insert_desc_perm key x l)) in Hz.
    destruct Hz as [<-|Hz]; [lra|].
    rewrite Forall_forall in Hy. auto.
  - constructor; [constructor; assumption|].
    apply Rnot_lt_le in Hge.
    constructor; [exact Hge|].
    rewrite Forall_forall in *. intros z Hz. specialize (Hy z Hz). lra.
Qed.

Lemma sort_desc_sorted (key : ContextBlock -> R) (l : list ContextBlock) :
  StronglySorted (fun a b => key b <= key a) (sort_desc key l).
Proof.
  unfold sort_desc. induction l as [|x l IH]; simpl; [constructor|].
  apply insert_desc_sorted. exact IH.
Qed.

Lemma collect_results_length (valid : list ContextBlock) (scores : vec)
    (idxs : list nat) (out : list ContextBlock) :
  collect_results valid scores idxs = Ok out -> length out = length idxs.
Proof.
  revert out; induction idxs as [|i idxs IH]; simpl; intros out H.
  - injection H as <-. reflexivity.
  - destruct (nth_error valid i); [|discriminate].
    destruct (nth_error scores i); [|discriminate].
    destruct (collect_results valid scores idxs) as [rest|]; [|discriminate].
    cbn [bind] in H. injection H as <-. simpl. f_equal. apply IH. reflexivity.
Qed.

(** With a non-negative [top_k], [retrieve] never returns more than [top_k]
    candidates, whatever [argsort] does. *)
Lemma retrieve_at_most (argsort : vec -> list nat)
    (self : GatedContextRetriever) (query : Query)
    (candidates : list ContextBlock) (top_k : Z) (out : list ContextBlock) :
  (0 <= top_k)%Z ->
  retrieve argsort self query candidates top_k = Ok out ->
  (length out <= Z.to_nat top_k)%nat.
Proof.
  unfold retrieve. intros Hk H.
  destruct candidates as [|c1 cs]; [injection H as <-; simpl; lia|].
  destruct (query_embedding query) as [qe|]; [|injection H as <-; simpl; lia].
  destruct (filter has_embedding (c1 :: cs)) as [|v0 vs];
    [injection H as <-; simpl; lia|].
  destruct (embeddings_to_numpy (v0 :: vs)) as [rows|]; [|discriminate].
  cbn [bind] in H.
  destruct (stack rows) as [keys|]; [|discriminate]. cbn [bind] in H.
  destruct (final_scores_of self (q_to_numpy qe) keys) as [fs|];
    [|discriminate].
  cbn [bind] in H. apply collect_results_length in H. rewrite H.
  unfold slice_to.
  destruct (top_k <? 0)%Z eqn:E; [apply Z.ltb_lt in E; lia|].
  rewrite length_firstn. lia.
Qed.

Lemma batch_classify_length (svd : vec -> option svd_result)
    (self : YSRNEngine) (cs out : list ContextBlock) (query : Query) :
  batch_classify svd self cs query = Ok out -> length out = length cs.
Proof.
  revert out; induction cs as [|c cs IH]; simpl; intros out H.
  - injection H as <-. reflexivity.
  - destruct (classify_context svd self c query); [|discriminate].
    cbn [bind] in H.
    destruct (batch_classify svd self cs query) as [rest|]; [|discriminate].
    cbn [bind] in H. injection H as <-. simpl. f_equal. apply IH. reflexivity.
Qed.

(** Every block that comes out of [batch_classify] carries ratios of a
    decomposition: non-negative scores that add up to less than 1. *)
Lemma batch_classify_scores (svd : vec -> option svd_result)
    (self : YSRNEngine) (cs out : list ContextBlock) (query : Query) :
  batch_classify svd self cs query = Ok out ->
  Forall (fun c => exists rr sr nr,
            relevance_score c = Some rr /\ superfluous_score c = Some sr /\
            noise_score c = Some nr /\
            0 <= rr /\ 0 <= sr /\ 0 <= nr /\ rr + sr + nr < 1) out.
Proof.
  revert out; induction cs as [|c cs IH]; simpl; intros out H.
  - injection H as <-. constructor.
  - destruct (classify_context svd self c query) as [c'|] eqn:Ec;
      [|discriminate].
    cbn [bind] in H.
    destruct (batch_classify svd self cs query) as [rest|]; [|discriminate].
    cbn [bind] in H. injection H as <-.
    constructor; [|apply IH; reflexivity].
    unfold classify_context in Ec.
    destruct (embedding c) as [ce|]; [|discriminate].
    destruct (query_embedding query) as [qe|]; [|discriminate].
    destruct (decompose svd self (ctx_to_numpy ce) (q_to_numpy qe))
      as [res|] eqn:Hres; [|discriminate].
    cbn [bind] in Ec. injection Ec as <-. cbn.
    exists (relevance_ratio res), (superfluous_ratio res), (noise_ratio res).
    destruct (decompose_metrics svd self _ _ res Hres)
      as (Hrr & Hsr & Hnr & _).
    pose proof (ratio_sum (norm (dr_R res)) (norm (dr_S res))
                  (norm (dr_N res))
                  (norm_nonneg _) (norm_nonneg _) (norm_nonneg _)) as Hsum.
    cbv zeta in Hsum, Hrr, Hsr, Hnr. rewrite <- Hrr, <- Hsr, <- Hnr in Hsum.
    destruct Hsum as (H1 & H2 & H3 & H4 & _).
    repeat split; assumption.
Qed.

Lemma mean_R_bounds (l : vec) (lo hi : R) :
  l <> [] -> Forall (fun x => lo <= x < hi) l -> lo <= mean_R l < hi.
Proof.
  intros Hne Hall. unfold mean_R.
  assert (Hs : INR (length l) * lo <= sum l /\
               (l <> [] -> sum l < INR (length l) * hi)).
  { clear Hne. induction Hall as [|x l Hx _ IH].
    - simpl. split; [lra|congruence].
    - destruct IH as (IH1 & IH2).
      change (length (x :: l)) with (S (length l)). rewrite S_INR. simpl sum.
      split; [nra|]. intros _.
      destruct l as [|y l'].
      + simpl in *. lra.
      + specialize (IH2 ltac:(discriminate)). nra. }
  destruct Hs as (Hs1 & Hs2). specialize (Hs2 Hne).
  assert (Hn : 0 < INR (length l)).
  { apply lt_0_INR. destruct l; [congruence|simpl; lia]. }
  set (n := INR (length l)) in *.
  split.
  - apply (Rmult_le_reg_r n); [exact Hn|].
    replace (sum l / n * n) with (sum l) by (field; lra). lra.
  - apply (Rmult_lt_reg_r n); [exact Hn|].
    replace (sum l / n * n) with (sum l) by (field; lra). lra.
Qed.

End PipelineFacts.

Section PipelineErrors.

Lemma only_shape_bind {A B : Type} (m : result A) (k : A -> result B) :
  only_shape_error m -> (forall a, m = Ok a -> only_shape_error (k a)) ->
  only_shape_error (bind m k).
Proof.
  unfold only_shape_error. destruct m as [a|e0]; simpl; intros Hm Hk e H.
  - exact (Hk a eq_refl e H).
  - apply Hm. injection H as ->. reflexivity.
Qed.

Lemma only_shape_ok {A : Type} (a : A) : only_shape_error (Ok a).
Proof. intros e H. discriminate. Qed.

Lemma only_shape_raise {A : Type} : only_shape_error (@Raise A ShapeMismatch).
Proof. intros e H. injection H as <-. reflexivity. Qed.

Lemma only_shape_dot (a b : vec) : only_shape_error (dot a b).
Proof.
  unfold dot. destruct (Nat.eqb _ _);
    [apply only_shape_ok|apply only_shape_raise].
Qed.

Lemma only_shape_broadcast (f : R -> R -> R) (a b : vec) :
  only_shape_error (broadcast f a b).
Proof.
  unfold broadcast. destruct (Nat.eqb _ _); [apply only_shape_ok|].
  destruct a as [|x [|x' a]]; destruct b as [|y [|y' b]];
    first [apply only_shape_ok|apply only_shape_raise].
Qed.

Lemma only_shape_matvec (W : matrix) (x : vec) : only_shape_error (matvec W x).
Proof.
  induction W as [|row W IH]; simpl; [apply only_shape_ok|].
  apply only_shape_bind; [apply only_shape_dot|intros y _].
  apply only_shape_bind; [exact IH|intros ys _; apply only_shape_ok].
Qed.

Lemma only_shape_dot_rows (q : vec) (keys : matrix) :
  only_shape_error (dot_rows q keys).
Proof.
  induction keys as [|k keys IH]; simpl; [apply only_shape_ok|].
  apply only_shape_bind; [apply only_shape_dot|intros y _].
  apply only_shape_bind; [exact IH|intros ys _; apply only_shape_ok].
Qed.

Lemma only_shape_vecmat (x : vec) (W : matrix) : only_shape_error (vecmat x W).
Proof.
  unfold vecmat. destruct (Nat.eqb _ _);
    [apply only_shape_ok|apply only_shape_raise].
Qed.

Lemma only_shape_softmax (x : vec) : only_shape_error (_softmax x).
Proof.
  unfold _softmax. destruct x; simpl;
    [apply only_shape_raise|apply only_shape_ok].
Qed.

Lemma only_shape_stack (rows : list vec) : only_shape_error (stack rows).
Proof.
  unfold stack. destruct rows; [apply only_shape_raise|].
  destruct (forallb _ _); [apply only_shape_ok|apply only_shape_raise].
Qed.

Lemma only_shape_final_scores (self : GatedContextRetriever) (q : vec)
    (keys : matrix) :
  only_shape_error (final_scores_of self q keys).
Proof.
  unfold final_scores_of.
  apply only_shape_bind.
  - unfold compute_gated_attention.
    apply only_shape_bind; [apply only_shape_dot_rows|intros raw _].
    apply only_shape_bind; [apply only_shape_softmax|intros w _].
    apply only_shape_bind; [apply only_shape_vecmat|intros sdpa _].
    apply only_shape_bind; [apply only_shape_vecmat|intros proj _].
    apply only_shape_bind; [apply only_shape_broadcast|intros logits _].
    apply only_shape_bind; [|intros g _; apply only_shape_ok].
    destruct (Nat.leb _ _); apply only_shape_broadcast.
  - intros [g gates] _. cbv beta iota zeta.
    apply only_shape_bind; [apply only_shape_dot_rows|intros r _].
    apply only_shape_ok.
Qed.

Lemma dot_rows_length (q : vec) (keys : matrix) (out : vec) :
  dot_rows q keys = Ok out -> length out = length keys.
Proof.
  revert out; induction keys as [|k keys IH]; simpl; intros out H.
  - injection H as <-. reflexivity.
  - destruct (dot q k); [|discriminate]. cbn [bind] in H.
    destruct (dot_rows q keys) as [ys|]; [|discriminate].
    cbn [bind] in H. injection H as <-. simpl. f_equal. apply IH. reflexivity.
Qed.

Lemma final_scores_of_length (self : GatedContextRetriever) (q : vec)
    (keys : matrix) (fs : vec) :
  final_scores_of self q keys = Ok fs -> length fs = length keys.
Proof.
  unfold final_scores_of. intros H.
  destruct (compute_gated_attention self q keys keys) as [[g gates]|];
    [|discriminate].
  cbn [bind] in H.
  destruct (dot_rows q keys) as [r|] eqn:Er; [|discriminate].
  cbn [bind] in H. injection H as <-.
  rewrite length_map. apply (dot_rows_length q keys). exact Er.
Qed.

Lemma stack_ok_same (rows : list vec) (keys : matrix) :
  stack rows = Ok keys -> keys = rows.
Proof.
  unfold stack. destruct rows; [discriminate|].
  destruct (forallb _ _); [|discriminate]. intros [= <-]. reflexivity.
Qed.

(** With a sound [argsort], [retrieve] can fail only with a shape error. *)
Lemma only_shape_retrieve (argsort : vec -> list nat)
    (self : GatedContextRetriever) (query : Query)
    (candidates : list ContextBlock) (top_k : Z) :
  argsort_sound argsort ->
  only_shape_error (retrieve argsort self query candidates top_k).
Proof.
  intros Hsort. unfold retrieve.
  destruct candidates as [|c0 cs]; [apply only_shape_ok|].
  destruct (query_embedding query) as [qe|]; [|apply only_shape_ok].
  remember (filter has_embedding (c0 :: cs)) as valid eqn:Ev.
  destruct valid as [|v0 vs]; [apply only_shape_ok|].
  rewrite Ev at 1. rewrite embeddings_to_numpy_valid. rewrite <- Ev.
  cbn [bind].
  apply only_shape_bind; [apply only_shape_stack|intros keys Hk].
  apply stack_ok_same in Hk. subst keys.
  apply only_shape_bind; [apply only_shape_final_scores|intros fs Hfs].
  apply final_scores_of_length in Hfs. rewrite length_map in Hfs.
  rewrite (collect_results_indices (v0 :: vs) fs _ v0 Hfs).
  - apply only_shape_ok.
  - rewrite <- Hfs. apply (top_indices argsort Hsort).
Qed.

(** With a sound SVD, [decompose] can fail only with a shape error. *)
Lemma only_shape_decompose (svd : vec -> option svd_result)
    (self : YSRNEngine) (ctx q : vec) :
  svd_sound svd -> only_shape_error (decompose svd self ctx q).
Proof.
  intros Hsvd e H.
  destruct (Nat.eq_dec (length ctx) (length q)) as [Hl|Hl].
  - pose proof H as H0. unfold decompose in H.
    rewrite dot_same in H by (rewrite !length_vdiv; exact Hl).
    cbn [bind] in H.
    rewrite broadcast_same in H
      by (rewrite length_scale, !length_vdiv; exact Hl).
    cbn [bind] in H.
    match type of H with
    | context [svd_or_fallback svd ?r] =>
        destruct (noise_component_total svd Hsvd (noise_threshold self) r)
          as (Nv & HN & HlN);
        assert (Hlr : length r = length ctx)
          by (apply length_residual; exact Hl);
        unfold noise_component in HN;
        destruct (svd_or_fallback svd r) as [[U s] Vt]
    end.
    cbv zeta in HN. cbv beta iota zeta in H.
    rewrite HN in H. cbn [bind] in H.
    rewrite broadcast_same in H by congruence. cbn [bind] in H.
    destruct (W_relevance self) as [W|]; [|discriminate].
    destruct (matvec W _) as [Rv|e'] eqn:EW; [discriminate|].
    cbn [bind] in H. injection H as <-.
    exact (only_shape_matvec _ _ _ EW).
  - unfold decompose, dot in H. rewrite !length_vdiv in H.
    destruct (Nat.eqb (length ctx) (length q)) eqn:E;
      [apply Nat.eqb_eq in E; contradiction|].
    cbn [bind] in H. injection H as <-. reflexivity.
Qed.

Lemma only_shape_batch_classify (svd : vec -> option svd_result)
    (self : YSRNEngine) (cs : list ContextBlock) (query : Query) :
  svd_sound svd ->
  query_embedding query <> None ->
  Forall (fun c => embedding c <> None) cs ->
  only_shape_error (batch_classify svd self cs query).
Proof.
  intros Hsvd Hq. induction 1 as [|c cs Hc _ IH]; simpl;
    [apply only_shape_ok|].
  apply only_shape_bind.
  - unfold classify_context.
    destruct (embedding c) as [ce|]; [|congruence].
    destruct (query_embedding query) as [qe|]; [|congruence].
    apply only_shape_bind; [apply only_shape_decompose; exact Hsvd|].
    intros res _. apply only_shape_ok.
  - intros c' _.
    apply only_shape_bind; [exact IH|intros rest _; apply only_shape_ok].
Qed.

Lemma retrieve_outputs_embedded (argsort : vec -> list nat)
    (self : GatedContextRetriever) (query : Query)
    (candidates : list ContextBlock) (top_k : Z) (out : list ContextBlock) :
  retrieve argsort self query candidates top_k = Ok out ->
  Forall (fun c => embedding c <> None) out.
Proof.
  unfold retrieve. intros H. apply Forall_forall. intros c Hc.
  destruct candidates as [|c1 cs]; [injection H as <-; destruct Hc|].
  destruct (query_embedding query) as [qe|]; [|injection H as <-; destruct Hc].
  destruct (filter has_embedding (c1 :: cs)) as [|v0 vs] eqn:Ev;
    [injection H as <-; destruct Hc|].
  destruct (embeddings_to_numpy (v0 :: vs)) as [rows|]; [|discriminate].
  cbn [bind] in H.
  destruct (stack rows) as [keys|]; [|discriminate]. cbn [bind] in H.
  destruct (final_scores_of self (q_to_numpy qe) keys) as [fs|];
    [|discriminate].
  cbn [bind] in H.
  destruct (collect_results_sources _ _ _ _ H c Hc) as (c0 & x & Hin & ->).
  rewrite <- Ev in Hin. apply filter_In in Hin. destruct Hin as (_ & Hhas).
  unfold has_embedding in Hhas. cbn.
  destruct (embedding c0); [discriminate|discriminate].
Qed.

End PipelineErrors.

Section PipelineTotal.

Variable svd : vec -> option svd_result.
Variable argsort : vec -> list nat.
Hypothesis svd_ok : svd_sound svd.
Hypothesis argsort_ok : argsort_sound argsort.

Lemma batch_classify_total (self : YSRNEngine) (cs : list ContextBlock)
    (query : Query) (qe : QueryEmbedding) :
  query_embedding query = Some qe ->
  projection_applicable self (length (q_vector qe)) ->
  Forall (fun c => exists e, embedding c = Some e /\
                   length (ctx_vector e) = length (q_vector qe)) cs ->
  exists out, batch_classify svd self cs query = Ok out.
Proof.
  intros Hqe HW. induction 1 as [|c cs (e & He & Hl) _ (rest & IH)]; simpl.
  - eauto.
  - unfold classify_context. rewrite He, Hqe.
    destruct (decompose_returns svd svd_ok self (ctx_to_numpy e)
                (q_to_numpy qe) Hl HW) as (res & Hres).
    rewrite Hres. cbn [bind]. rewrite IH. cbn [bind]. eauto.
Qed.

(** On well-shaped inputs the pipeline returns, with as many contexts as
    [retrieve] keeps. *)
Lemma submit_query_total (ysrn : YSRNEngine) (retriever : GatedContextRetriever)
    (new_id text : string) (constraints : list string) (encoded : vec)
    (candidates : list ContextBlock) (h : nat) :
  wf_retriever retriever h ->
  length encoded = h ->
  embeddings_of_dim candidates h ->
  projection_applicable ysrn h ->
  exists res,
    submit_query svd argsort ysrn retriever new_id text constraints encoded
      candidates = Ok res /\
    length (contexts res) =
      Nat.min 10 (length (filter has_embedding candidates)).
Proof.
  intros Hwf Hq Hdim HW. unfold submit_query.
  set (query := {| query_id := new_id; text := text;
                   query_embedding := Some (QueryEmbedding_from_numpy encoded);
                   constraints := constraints |}).
  pose proof (retrieve_spec argsort argsort_ok retriever query
                (QueryEmbedding_from_numpy encoded) candidates 10 h
                (block "" []) Hwf eq_refl Hq Hdim) as Hret.
  rewrite Hret. cbn [bind].
  set (valid := filter has_embedding candidates) in *.
  set (scores := scores_of retriever
                   (q_vector (QueryEmbedding_from_numpy encoded)) valid) in *.
  destruct (top_indices argsort argsort_ok scores 10)
    as (Hrange & _ & _ & _).
  assert (Hls : length scores = length valid)
    by (unfold scores, scores_of; apply length_map).
  rewrite Hls in Hrange.
  destruct (batch_classify_total ysrn
              (map (fun i => set_relevance_score (nth i valid (block "" []))
                               (nth i scores 0))
                 (slice_to 10 (rev (argsort scores))))
              query (QueryEmbedding_from_numpy encoded) eq_refl)
    as (out & Hout).
  { cbn. rewrite Hq. exact HW. }
  { apply Forall_map. eapply Forall_impl; [|exact Hrange].
    cbn beta. intros i Hi.
    assert (Hin : In (nth i valid (block "" [])) valid) by (apply nth_In; exact Hi).
    generalize dependent (nth i valid (block "" [])). intros c0 Hin.
    unfold valid in Hin. apply filter_In in Hin. destruct Hin as (Hin & Hhas).
    unfold embeddings_of_dim in Hdim. rewrite Forall_forall in Hdim.
    specialize (Hdim _ Hin). unfold has_embedding in Hhas.
    cbn [embedding set_relevance_score].
    destruct (embedding c0) as [e|]; [|discriminate].
    exists e. split; [reflexivity|]. cbn. congruence. }
  rewrite Hout. cbn [bind]. eexists. split; [reflexivity|].
  cbn [contexts].
  rewrite (Permutation_length (sort_desc_perm _ out)).
  rewrite (batch_classify_length _ _ _ _ _ Hout), length_map.
  unfold slice_to. change (10 <? 0)%Z with false. cbv iota.
  rewrite length_firstn, length_rev, (argsort_length argsort argsort_ok), Hls.
  reflexivity.
Qed.

End PipelineTotal.

Lemma batch_classify_sources (svd : vec -> option svd_result)
    (self : YSRNEngine) (cs out : list ContextBlock) (query : Query) :
  batch_classify svd self cs query = Ok out ->
  forall c', In c' out ->
    exists c, In c cs /\ block_id c' = block_id c /\
              content c' = content c /\ embedding c' = embedding c.
Proof.
  revert out; induction cs as [|c cs IH]; simpl; intros out H c' Hc'.
  - injection H as <-. destruct Hc'.
  - destruct (classify_context svd self c query) as [c1|] eqn:Ec;
      [|discriminate].
    cbn [bind] in H.
    destruct (batch_classify svd self cs query) as [rest|]; [|discriminate].
    cbn [bind] in H. injection H as <-.
    destruct Hc' as [<-|Hc'].
    + exists c. split; [left; reflexivity|].
      unfold classify_context in Ec.
      destruct (embedding c); [|discriminate].
      destruct (query_embedding query); [|discriminate].
      destruct (decompose svd self _ _); [|discriminate].
      cbn [bind] in Ec. injection Ec as <-. cbn. repeat split.
    + destruct (IH rest eq_refl c' Hc') as (c0 & Hin & Hrest).
      exists c0. split; [right; exact Hin|exact Hrest].
Qed.

(** On well-shaped inputs (hidden dimension [h] for the retriever, the
    encoded query and every stored embedding) the pipeline returns a result:
    it reports the size of the candidate pool and keeps [min 10 n] contexts,
    [n] being the number of candidates with an embedding. *)
Theorem submit_query_returns
    (svd : vec -> option svd_result) (argsort : vec -> list nat)
    (ysrn : YSRNEngine) (retriever : GatedContextRetriever)
    (new_id text : string) (constraints : list string) (encoded : vec)
    (candidates : list ContextBlock) (h : nat) :
  svd_sound svd ->
  argsort_sound argsort ->
  wf_retriever retriever h ->
  length encoded = h ->
  embeddings_of_dim candidates h ->
  projection_applicable ysrn h ->
  exists res,
    submit_query svd argsort ysrn retriever new_id text constraints encoded
      candidates = Ok res /\
    result_query_id res = new_id /\
    total_candidates res = Z.of_nat (length candidates) /\
    length (contexts res) =
      Nat.min 10 (length (filter has_embedding candidates)).
Proof.
  intros Hsvd Hsort Hwf Hq Hdim HW.
  destruct (submit_query_total svd argsort Hsvd Hsort ysrn retriever new_id
              text constraints encoded candidates h Hwf Hq Hdim HW)
    as (res & Hres & Hlen).
  exists res. split; [exact Hres|].
  split; [|split; [|exact Hlen]].
  - unfold submit_query in Hres.
    destruct (retrieve _ _ _ _ _); [|discriminate]. cbn [bind] in Hres.
    destruct (batch_classify _ _ _ _); [|discriminate]. cbn [bind] in Hres.
    injection Hres as <-. reflexivity.
  - unfold submit_query in Hres.
    destruct (retrieve _ _ _ _ _); [|discriminate]. cbn [bind] in Hres.
    destruct (batch_classify _ _ _ _); [|discriminate]. cbn [bind] in Hres.
    injection Hres as <-. reflexivity.
Qed.

Lemma submit_query_returns_witness :
  exists res,
    submit_query svd_col argsort_insertion engine0 retriever1 "id" "text" []
      [1] [block "a" [1]; block "b" [2]] = Ok res /\
    total_candidates res = 2%Z /\
    length (contexts res) = 2%nat.
Proof.
  destruct (submit_query_returns svd_col argsort_insertion engine0 retriever1
              "id" "text" [] [1] [block "a" [1]; block "b" [2]] 1)
    as (res & H1 & _ & H3 & H4).
  - exact svd_col_sound.
  - exact argsort_insertion_sound.
  - exact wf_retriever1.
  - reflexivity.
  - repeat constructor.
  - exact I.
  - exists res. repeat split; assumption.
Defined.

(** The final list of the pipeline: at most 10 contexts, each one a
    candidate of the pool (same identifier, content and embedding) that has
    an embedding, ordered by relevance score from high to low; so
    [top_context] is a context of maximal relevance score, and it is [None]
    exactly when the list is empty. *)
Theorem submit_query_ranking
    (svd : vec -> option svd_result) (argsort : vec -> list nat)
    (ysrn : YSRNEngine) (retriever : GatedContextRetriever)
    (new_id text : string) (constraints : list string) (encoded : vec)
    (candidates : list ContextBlock) (res : QueryResult) :
  submit_query svd argsort ysrn retriever new_id text constraints encoded
    candidates = Ok res ->
  (length (contexts res) <= 10)%nat /\
  (forall c, In c (contexts res) ->
     embedding c <> None /\
     exists c0, In c0 candidates /\ block_id c = block_id c0 /\
                content c = content c0 /\ embedding c = embedding c0) /\
  StronglySorted
    (fun a b => or_0 (relevance_score b) <= or_0 (relevance_score a))
    (contexts res) /\
  (forall c, top_context res = Some c ->
     In c (contexts res) /\
     forall c', In c' (contexts res) ->
       or_0 (relevance_score c') <= or_0 (relevance_score c)) /\
  (top_context res = None <-> contexts res = []).
Proof.
  unfold submit_query. intros H.
  destruct (retrieve argsort retriever _ candidates 10) as [results|] eqn:Er;
    [|discriminate].
  cbn [bind] in H.
  destruct (batch_classify svd ysrn results _) as [classified|] eqn:Eb;
    [|discriminate].
  cbn [bind] in H. injection H as <-. cbn [contexts]. unfold top_context.
  cbn [contexts].
  set (key := fun x : ContextBlock => or_0 (relevance_score x)).
  pose proof (sort_desc_perm key classified) as Hperm.
  pose proof (sort_desc_sorted key classified) as Hsorted.
  split; [|split; [|split; [exact Hsorted|split]]].
  - rewrite (Permutation_length Hperm).
    rewrite (batch_classify_length _ _ _ _ _ Eb).
    apply retrieve_at_most in Er; [exact Er|lia].
  - intros c Hc. apply (Permutation_in _ Hperm) in Hc.
    destruct (batch_classify_sources _ _ _ _ _ Eb c Hc)
      as (c1 & Hin1 & Hid & Hco & Hem).
    pose proof (retrieve_outputs_embedded _ _ _ _ _ _ Er) as Hemb.
    rewrite Forall_forall in Hemb. specialize (Hemb c1 Hin1).
    destruct (retrieve_sources _ _ _ _ _ _ Er c1 Hin1) as (c0 & x & Hin0 & ->).
    split; [congruence|].
    exists c0. repeat split; assumption.
  - intros c Hc. destruct (sort_desc key classified) as [|c1 l] eqn:El;
      [discriminate|].
    injection Hc as <-. split; [left; reflexivity|].
    intros c' [<-|Hc']; [unfold key; lra|].
    apply StronglySorted_inv in Hsorted. destruct Hsorted as (_ & Hall).
    rewrite Forall_forall in Hall. exact (Hall c' Hc').
  - destruct (sort_desc key classified); split; congruence.
Qed.

Lemma submit_query_ranking_witness :
  exists res,
    submit_query svd_col argsort_insertion engine0 retriever1 "id" "text" []
      [1] [block "a" [1]; block "b" [2]] = Ok res /\
    (length (contexts res) <= 10)%nat /\
    StronglySorted
      (fun a b => or_0 (relevance_score b) <= or_0 (relevance_score a))
      (contexts res).
Proof.
  destruct (submit_query_total svd_col argsort_insertion svd_col_sound
              argsort_insertion_sound engine0 retriever1 "id" "text" [] [1]
              [block "a" [1]; block "b" [2]] 1)
    as (res & Hres & _);
    [exact wf_retriever1|reflexivity|repeat constructor|exact I|].
  destruct (submit_query_ranking _ _ _ _ _ _ _ _ _ _ Hres)
    as (H1 & _ & H3 & _).
  exists res. repeat split; assumption.
Defined.

(** Statistics of a non-empty final list: both means are finite numbers,
    each at least 0 and below 1. *)
Theorem submit_query_stats_range
    (svd : vec -> option svd_result) (argsort : vec -> list nat)
    (ysrn : YSRNEngine) (retriever : GatedContextRetriever)
    (new_id text : string) (constraints : list string) (encoded : vec)
    (candidates : list ContextBlock) (res : QueryResult) :
  submit_query svd argsort ysrn retriever new_id text constraints encoded
    candidates = Ok res ->
  contexts res <> [] ->
  exists a b,
    avg_relevance (decomposition_stats res) = Fin a /\
    avg_noise (decomposition_stats res) = Fin b /\
    0 <= a < 1 /\ 0 <= b < 1.
Proof.
  unfold submit_query. intros H Hne.
  destruct (retrieve argsort retriever _ candidates 10) as [results|];
    [|discriminate].
  cbn [bind] in H.
  destruct (batch_classify svd ysrn results _) as [classified|] eqn:Eb;
    [|discriminate].
  cbn [bind] in H. injection H as <-.
  cbn [contexts decomposition_stats avg_relevance avg_noise] in *.
  set (key := fun x : ContextBlock => or_0 (relevance_score x)) in *.
  pose proof (sort_desc_perm key classified) as Hperm.
  pose proof (batch_classify_scores _ _ _ _ _ Eb) as Hsc.
  assert (Hall : Forall (fun c => exists rr sr nr,
                   relevance_score c = Some rr /\ superfluous_score c = Some sr /\
                   noise_score c = Some nr /\
                   0 <= rr /\ 0 <= sr /\ 0 <= nr /\ rr + sr + nr < 1)
                   (sort_desc key classified)).
  { rewrite Forall_forall in *. intros c Hc. apply Hsc.
    exact (Permutation_in _ Hperm Hc). }
  destruct (sort_desc key classified) as [|c0 l] eqn:El; [congruence|].
  rewrite <- El in *.
  assert (Hne' : sort_desc key classified <> []) by (rewrite El; discriminate).
  exists (mean_R (map (fun c => or_0 (relevance_score c))
                    (sort_desc key classified))),
         (mean_R (map (fun c => or_0 (noise_score c))
                    (sort_desc key classified))).
  split; [rewrite El; reflexivity|]. split; [rewrite El; reflexivity|].
  split; apply mean_R_bounds;
    try (intros E; apply map_eq_nil in E; contradiction);
    apply Forall_map; (eapply Forall_impl; [|exact Hall]);
    cbn beta; intros c (rr & sr & nr & Hr1 & _ & Hn1 & Hr & Hs & Hn & Hsum);
    try rewrite Hr1; try rewrite Hn1; simpl; lra.
Qed.

Lemma submit_query_stats_range_witness :
  exists res a b,
    submit_query svd_col argsort_insertion engine0 retriever1 "id" "text" []
      [1] [block "a" [1]; block "b" [2]] = Ok res /\
    avg_relevance (decomposition_stats res) = Fin a /\
    avg_noise (decomposition_stats res) = Fin b /\
    0 <= a < 1 /\ 0 <= b < 1.
Proof.
  destruct (submit_query_total svd_col argsort_insertion svd_col_sound
              argsort_insertion_sound engine0 retriever1 "id" "text" [] [1]
              [block "a" [1]; block "b" [2]] 1)
    as (res & Hres & Hlen);
    [exact wf_retriever1|reflexivity|repeat constructor|exact I|].
  destruct (submit_query_stats_range _ _ _ _ _ _ _ _ _ _ Hres)
    as (a & b & H).
  - intros E. rewrite E in Hlen. simpl in Hlen. discriminate.
  - exists res, a, b. split; [exact Hres|exact H].
Defined.

(** With a sound SVD and a sound [argsort] the only error the pipeline can
    raise is numpy's shape error: never the missing-embedding error (the
    query always has an embedding and only candidates with an embedding are
    classified), never an index error. *)
Theorem submit_query_only_shape_errors
    (svd : vec -> option svd_result) (argsort : vec -> list nat)
    (ysrn : YSRNEngine) (retriever : GatedContextRetriever)
    (new_id text : string) (constraints : list string) (encoded : vec)
    (candidates : list ContextBlock) (e : error) :
  svd_sound svd ->
  argsort_sound argsort ->
  submit_query svd argsort ysrn retriever new_id text constraints encoded
    candidates = Raise e ->
  e = ShapeMismatch.
Proof.
  intros Hsvd Hsort. revert e.
  change (only_shape_error
            (submit_query svd argsort ysrn retriever new_id text constraints
               encoded candidates)).
  unfold submit_query.
  apply only_shape_bind; [apply only_shape_retrieve; exact Hsort|].
  intros results Hr.
  apply only_shape_bind; [|intros cl _; apply only_shape_ok].
  apply only_shape_batch_classify; [exact Hsvd|discriminate|].
  exact (retrieve_outputs_embedded _ _ _ _ _ _ Hr).
Qed.

Lemma submit_query_only_shape_errors_witness :
  exists e,
    submit_query svd_col argsort_insertion engine0 retriever2 "id" "text" []
      [1; 0; 0] [block "a" [1; 0; 0]] = Raise e /\
    e = ShapeMismatch.
Proof.
  assert (H : exists e,
             submit_query svd_col argsort_insertion engine0 retriever2 "id"
               "text" [] [1; 0; 0] [block "a" [1; 0; 0]] = Raise e).
  { eexists. reflexivity. }
  destruct H as (e & He). exists e. split; [exact He|].
  exact (submit_query_only_shape_errors _ _ _ _ _ _ _ _ _ _
           svd_col_sound argsort_insertion_sound He).
Defined.

(** * The in-memory store *)

Section StoreFacts.

Import Persistence.

Lemma dict_get_set_same (k : string) (v : ContextBlock) (d : store) :
  dict_get k (dict_set k v d) = Some v.
Proof.
  induction d as [|[k' v'] d IH]; simpl.
  - rewrite String.eqb_refl. reflexivity.
  - destruct (String.eqb k' k) eqn:E; simpl.
    + rewrite String.eqb_refl. reflexivity.
    + rewrite E. exact IH.
Qed.

Lemma dict_get_set_other (k k0 : string) (v : ContextBlock) (d : store) :
  k0 <> k -> dict_get k0 (dict_set k v d) = dict_get k0 d.
Proof.
  intros Hne. induction d as [|[k' v'] d IH]; simpl.
  - destruct (String.eqb k k0) eqn:E; [|reflexivity].
    apply String.eqb_eq in E. congruence.
  - destruct (String.eqb k' k) eqn:E; simpl.
    + apply String.eqb_eq in E. subst k'.
      destruct (String.eqb k k0) eqn:E0; [|reflexivity].
      apply String.eqb_eq in E0. congruence.
    + destruct (String.eqb k' k0); [reflexivity|exact IH].
Qed.

Lemma dict_set_keys (k : string) (v : ContextBlock) (d : store) :
  (In k (map fst d) -> map fst (dict_set k v d) = map fst d) /\
  (~ In k (map fst d) -> map fst (dict_set k v d) = map fst d ++ [k]).
Proof.
  induction d as [|[k' v'] d (IH1 & IH2)]; simpl.
  - split; [contradiction|reflexivity].
  - destruct (String.eqb k' k) eqn:E; simpl.
    + apply String.eqb_eq in E. subst k'. split; [reflexivity|].
      intros H. exfalso. apply H. left. reflexivity.
    + apply String.eqb_neq in E. split.
      * intros [H|H]; [congruence|]. rewrite IH1 by exact H. reflexivity.
      * intros H. rewrite IH2; [reflexivity|]. intros Hin. apply H. right.
        exact Hin.
Qed.

End StoreFacts.

(** The in-memory store is a map from identifiers to blocks: a saved block is
    loaded back under its identifier, the other identifiers are not affected,
    saving under an identifier that is present keeps the keys and their
    order, saving under a new one appends it, and identifiers stay
    distinct. *)
Theorem store_save_load (contexts : Persistence.store) (c : ContextBlock) :
  Persistence.load_context (Persistence.save_context contexts c) (block_id c)
    = Some c /\
  (forall id, id <> block_id c ->
     Persistence.load_context (Persistence.save_context contexts c) id
       = Persistence.load_context contexts id) /\
  (In (block_id c) (map fst contexts) ->
     map fst (Persistence.save_context contexts c) = map fst contexts) /\
  (~ In (block_id c) (map fst contexts) ->
     map fst (Persistence.save_context contexts c)
       = map fst contexts ++ [block_id c]) /\
  (NoDup (map fst contexts) ->
     NoDup (map fst (Persistence.save_context contexts c))).
Proof.
  unfold Persistence.load_context, Persistence.save_context.
  destruct (dict_set_keys (block_id c) c contexts) as (H1 & H2).
  split; [apply dict_get_set_same|].
  split; [intros id Hne; apply dict_get_set_other; exact Hne|].
  split; [exact H1|]. split; [exact H2|].
  intros Hnd.
  destruct (in_dec string_dec (block_id c) (map fst contexts)) as [Hin|Hnin].
  - rewrite H1 by exact Hin. exact Hnd.
  - rewrite H2 by exact Hnin.
    apply NoDup_app; [exact Hnd|repeat constructor; intros []|].
    intros x Hx [<-|[]]. contradiction.
Qed.

Lemma store_save_load_witness :
  Persistence.load_context
    (Persistence.save_context [("a"%string, block "a" [1])] (block "b" [2]))
    "a" = Some (block "a" [1]) /\
  map fst
    (Persistence.save_context [("a"%string, block "a" [1])] (block "b" [2]))
    = ["a"%string; "b"%string].
Proof.
  destruct (store_save_load [("a"%string, block "a" [1])] (block "b" [2]))
    as (_ & H2 & _ & H4 & _).
  split.
  - rewrite H2; [reflexivity|]. cbn. discriminate.
  - rewrite H4; [reflexivity|]. cbn. intros [H|[]]. discriminate.
Defined.

Section SearchFacts.

Import Persistence.

Lemma insert_desc_by_perm {A : Type} (key : A -> R) (x : A) (l : list A) :
  Permutation (insert_desc_by key x l) (x :: l).
Proof.
  induction l as [|y l IH]; simpl; [reflexivity|].
  destruct (Rlt_dec _ _); [|reflexivity].
  rewrite IH. apply perm_swap.
Qed.

Lemma sort_desc_by_perm {A : Type} (key : A -> R) (l : list A) :
  Permutation (sort_desc_by key l) l.
Proof.
  unfold sort_desc_by. induction l as [|x l IH]; simpl; [reflexivity|].
  rewrite insert_desc_by_perm. constructor. exact IH.
Qed.

Lemma insert_desc_by_sorted {A : Type} (key : A -> R) (x : A) (l : list A) :
  StronglySorted (fun a b => key b <= key a) l ->
  StronglySorted (fun a b => key b <= key a) (insert_desc_by key x l).
Proof.
  induction 1 as [|y l Hs IH Hy]; simpl; [repeat constructor|].
  destruct (Rlt_dec (key x) (key y)) as [Hlt|Hge].
  - constructor; [exact IH|].
    apply Forall_forall. intros z Hz.
    apply (Permutation_in _ (insert_desc_by_perm key x l)) in Hz.
    destruct Hz as [<-|Hz]; [lra|].
    rewrite Forall_forall in Hy. auto.
  - constructor; [constructor; assumption|].
    apply Rnot_lt_le in Hge.
    constructor; [exact Hge|].
    rewrite Forall_forall in *. intros z Hz. specialize (Hy z Hz). lra.
Qed.

Lemma sort_desc_by_sorted {A : Type} (key : A -> R) (l : list A) :
  StronglySorted (fun a b => key b <= key a) (sort_desc_by key l).
Proof.
  unfold sort_desc_by. induction l as [|x l IH]; simpl; [constructor|].
  apply insert_desc_by_sorted. exact IH.
Qed.

(** A successful scoring pass pairs every stored block that has an embedding
    with its cosine similarity, in store order. *)
Lemma score_contexts_spec (emb : vec) (values : list ContextBlock)
    (scores : list (ContextBlock * R)) :
  score_contexts emb values = Ok scores ->
  scores = map (fun c => (c, cosine emb c)) (filter has_embedding values).
Proof.
  revert scores; induction values as [|c values IH]; simpl; intros scores H.
  - injection H as <-. reflexivity.
  - unfold has_embedding at 1.
    destruct (embedding c) as [e|] eqn:Ee; [|apply IH; exact H].
    unfold similarity, dot in H.
    destruct (Nat.eqb _ _); [|discriminate]. cbn [bind] in H.
    destruct (score_contexts emb values) as [rest|]; [|discriminate].
    cbn [bind] in H. injection H as <-. simpl. f_equal; [|apply IH; reflexivity].
    unfold cosine, embedding_vec. rewrite Ee. reflexivity.
Qed.

Lemma cosine_bounds (emb : vec) (c : ContextBlock) : -1 < cosine emb c < 1.
Proof.
  unfold cosine. set (v := embedding_vec c).
  pose proof (cauchy_schwarz emb v) as Hcs.
  pose proof (norm_nonneg emb) as Ha. pose proof (norm_nonneg v) as Hb.
  pose proof (norm_sq emb) as Hsa. pose proof (norm_sq v) as Hsb.
  set (d := dot_raw emb v) in *. set (a := norm emb) in *.
  set (b := norm v) in *.
  assert (Hd : d * d <= (a * b) * (a * b)) by nra.
  assert (Hab : 0 <= a * b) by nra.
  assert (Hd1 : d <= a * b) by nra.
  assert (Hd2 : - (a * b) <= d) by nra.
  assert (Hden : 0 < a * b + 1e-8) by lra.
  split.
  - apply (Rmult_lt_reg_r (a * b + 1e-8)); [exact Hden|].
    replace (d / (a * b + 1e-8) * (a * b + 1e-8)) with d by (field; lra).
    lra.
  - apply (Rmult_lt_reg_r (a * b + 1e-8)); [exact Hden|].
    replace (d / (a * b + 1e-8) * (a * b + 1e-8)) with d by (field; lra).
    lra.
Qed.

Lemma firstn_incl {A : Type} (m : nat) (l : list A) (x : A) :
  In x (firstn m l) -> In x l.
Proof.
  intros H. rewrite <- (firstn_skipn m l). apply in_or_app. left. exact H.
Qed.

End SearchFacts.

(** What [search_similar] returns when it returns: blocks of the store that
    have an embedding, ordered by cosine similarity to the query vector from
    high to low, at most [top_k] of them for [top_k >= 0]; the empty list for
    an empty store. *)
Theorem search_similar_results
    (contexts : Persistence.store) (emb : vec) (top_k : Z)
    (out : list ContextBlock) :
  Persistence.search_similar contexts emb top_k = Ok out ->
  (contexts = [] -> out = []) /\
  (forall c, In c out -> In c (map snd contexts) /\ embedding c <> None) /\
  (length out <= length contexts)%nat /\
  ((0 <= top_k)%Z -> (length out <= Z.to_nat top_k)%nat) /\
  StronglySorted (fun a b => cosine emb b <= cosine emb a) out.
Proof.
  unfold Persistence.search_similar. intros H.
  split.
  { intros ->. injection H as <-. reflexivity. }
  assert (Hgoal :
    (forall c, In c out -> In c (map snd contexts) /\ embedding c <> None) /\
    (length out <= length contexts)%nat /\
    ((0 <= top_k)%Z -> (length out <= Z.to_nat top_k)%nat) /\
    StronglySorted (fun a b => cosine emb b <= cosine emb a) out).
  { destruct contexts as [|kv rest] eqn:Ec.
    { injection H as <-.
      split; [intros c []|]. split; [simpl; lia|].
      split; [intros _; simpl; lia|constructor]. }
    rewrite <- Ec in *. clear Ec.
    destruct (Persistence.score_contexts emb (map snd contexts))
      as [scores|] eqn:Es; [|discriminate].
    cbn [bind] in H. injection H as <-.
    apply score_contexts_spec in Es.
    destruct (slice_to_firstn top_k (sort_desc_by snd scores))
      as (m & Hm & Hmk).
    rewrite Hm.
    pose proof (sort_desc_by_perm snd scores) as Hperm.
    pose proof (sort_desc_by_sorted snd scores) as Hsorted.
    assert (Hmem : forall p, In p (sort_desc_by snd scores) ->
              In (fst p) (map snd contexts) /\ embedding (fst p) <> None /\
              snd p = cosine emb (fst p)).
    { intros p Hp. apply (Permutation_in _ Hperm) in Hp.
      rewrite Es in Hp. apply in_map_iff in Hp.
      destruct Hp as (c & <- & Hc). apply filter_In in Hc.
      destruct Hc as (Hin & Hhas). unfold has_embedding in Hhas. simpl.
      repeat split; [exact Hin|].
      destruct (embedding c); [discriminate|discriminate]. }
    split; [|split; [|split]].
    - intros c Hc. apply in_map_iff in Hc. destruct Hc as (p & <- & Hp).
      apply firstn_incl in Hp. destruct (Hmem p Hp) as (H1 & H2 & _).
      split; assumption.
    - rewrite length_map, length_firstn.
      rewrite (Permutation_length Hperm), Es, length_map.
      pose proof (filter_length_le has_embedding (map snd contexts)) as Hf.
      rewrite length_map in Hf. lia.
    - intros Hk. rewrite length_map, length_firstn, (Hmk Hk). lia.
    - eapply StronglySorted_map;
        [|apply StronglySorted_firstn; exact Hsorted].
      intros p p' Hp Hp' Hle. apply firstn_incl in Hp, Hp'.
      destruct (Hmem p Hp) as (_ & _ & E). destruct (Hmem p' Hp') as (_ & _ & E').
      rewrite <- E, <- E'. exact Hle. }
  destruct Hgoal as (G1 & G2 & G3 & G4).
  split; [exact G1|]. split; [exact G2|]. split; [exact G3|exact G4].
Qed.

Lemma score_contexts_total (emb : vec) (values : list ContextBlock) :
  embeddings_of_dim values (length emb) ->
  exists scores, Persistence.score_contexts emb values = Ok scores.
Proof.
  unfold embeddings_of_dim.
  induction 1 as [|c values Hc _ (rest & IH)]; simpl; [eauto|].
  destruct (embedding c) as [e|]; [|eauto].
  unfold Persistence.similarity. unfold ctx_to_numpy.
  rewrite dot_same by congruence. cbn [bind]. rewrite IH. cbn [bind]. eauto.
Qed.

Lemma search_similar_total (contexts : Persistence.store) (emb : vec)
    (top_k : Z) :
  embeddings_of_dim (map snd contexts) (length emb) ->
  exists out, Persistence.search_similar contexts emb top_k = Ok out.
Proof.
  intros Hdim. unfold Persistence.search_similar.
  destruct contexts as [|kv rest] eqn:Ec; [eauto|].
  rewrite <- Ec in *.
  destruct (score_contexts_total emb (map snd contexts) Hdim) as (sc & Hsc).
  rewrite Hsc. cbn [bind]. eauto.
Qed.

Lemma search_similar_results_witness :
  exists out,
    Persistence.search_similar
      [("a"%string, block "a" [1; 0]); ("b"%string, block "b" [0; 1])]
      [1; 1] 1 = Ok out /\
    (length out <= 1)%nat /\
    (forall c, In c out -> embedding c <> None).
Proof.
  destruct (search_similar_total
              [("a"%string, block "a" [1; 0]); ("b"%string, block "b" [0; 1])]
              [1; 1] 1) as (out & Hout).
  { repeat constructor. }
  destruct (search_similar_results _ _ _ _ Hout) as (_ & H2 & _ & H4 & _).
  exists out. split; [exact Hout|]. split.
  - apply H4. lia.
  - intros c Hc. apply (H2 c Hc).
Defined.

Lemma search_similar_members (stored : Persistence.store) (emb : vec)
    (top_k : Z) (out : list ContextBlock) :
  Persistence.search_similar stored emb top_k = Ok out ->
  (forall c, In c out -> In c (map snd stored) /\ has_embedding c = true) /\
  ((0 <= top_k)%Z -> (length out <= Z.to_nat top_k)%nat).
Proof.
  unfold Persistence.search_similar. intros H.
  destruct stored as [|kv rest] eqn:Ec.
  { injection H as <-. split; [intros c []|intros _; simpl; lia]. }
  rewrite <- Ec in *. clear Ec.
  destruct (Persistence.score_contexts emb (map snd stored))
    as [scores|] eqn:Es; [|discriminate].
  cbn [bind] in H. injection H as <-.
  apply score_contexts_spec in Es.
  destruct (slice_to_firstn top_k (sort_desc_by snd scores)) as (m & Hm & Hmk).
  rewrite Hm. split.
  - intros c Hc. apply in_map_iff in Hc. destruct Hc as (p & <- & Hp).
    apply firstn_incl in Hp.
    apply (Permutation_in _ (sort_desc_by_perm snd scores)) in Hp.
    rewrite Es in Hp. apply in_map_iff in Hp.
    destruct Hp as (c & <- & Hc). apply filter_In in Hc. exact Hc.
  - intros Hk. rewrite length_map, length_firstn, (Hmk Hk). lia.
Qed.

Lemma filter_all {A : Type} (f : A -> bool) (l : list A) :
  (forall x, In x l -> f x = true) -> filter f l = l.
Proof.
  induction l as [|x l IH]; simpl; intros H; [reflexivity|].
  rewrite (H x (or_introl eq_refl)). f_equal. apply IH. auto.
Qed.

(** The pipeline on top of the in-memory store, as [submit_query] wires it
    ([search_similar] with [top_k = 50], then gated retrieval with
    [top_k = 10]): on well-shaped inputs both steps return, the candidate
    pool has at most 50 blocks, and the result keeps [min 10] of the pool
    size; an empty store gives an empty result. *)
Theorem search_then_submit
    (svd : vec -> option svd_result) (argsort : vec -> list nat)
    (ysrn : YSRNEngine) (retriever : GatedContextRetriever)
    (stored : Persistence.store)
    (new_id text : string) (constraints : list string) (encoded : vec)
    (h : nat) :
  svd_sound svd ->
  argsort_sound argsort ->
  wf_retriever retriever h ->
  length encoded = h ->
  embeddings_of_dim (map snd stored) h ->
  projection_applicable ysrn h ->
  exists candidates res,
    Persistence.search_similar stored encoded 50 = Ok candidates /\
    submit_query svd argsort ysrn retriever new_id text constraints encoded
      candidates = Ok res /\
    (total_candidates res <= 50)%Z /\
    length (contexts res) = Nat.min 10 (length candidates) /\
    (stored = [] -> contexts res = []).
Proof.
  intros Hsvd Hsort Hwf Hq Hdim HW.
  destruct (search_similar_total stored encoded 50) as (candidates & Hc).
  { rewrite Hq. exact Hdim. }
  destruct (search_similar_members _ _ _ _ Hc) as (Hmem & Hlen).
  specialize (Hlen ltac:(lia)).
  assert (Hdim' : embeddings_of_dim candidates h).
  { unfold embeddings_of_dim in *. rewrite Forall_forall in *.
    intros c Hin. apply Hdim. apply (Hmem c Hin). }
  destruct (submit_query_total svd argsort Hsvd Hsort ysrn retriever new_id
              text constraints encoded candidates h Hwf Hq Hdim' HW)
    as (res & Hres & Hl).
  rewrite (filter_all has_embedding candidates) in Hl
    by (intros c Hin; apply (Hmem c Hin)).
  exists candidates, res. split; [exact Hc|]. split; [exact Hres|].
  assert (Htot : total_candidates res = Z.of_nat (length candidates)).
  { unfold submit_query in Hres.
    destruct (retrieve _ _ _ _ _); [|discriminate]. cbn [bind] in Hres.
    destruct (batch_classify _ _ _ _); [|discriminate]. cbn [bind] in Hres.
    injection Hres as <-. reflexivity. }
  split; [rewrite Htot; lia|]. split; [exact Hl|].
  intros ->. cbn in Hc. injection Hc as <-. simpl in Hl.
  destruct (contexts res); [reflexivity|discriminate].
Qed.

Lemma search_then_submit_witness :
  exists candidates res,
    Persistence.search_similar
      [("a"%string, block "a" [1]); ("b"%string, block "b" [2])] [1] 50
      = Ok candidates /\
    submit_query svd_col argsort_insertion engine0 retriever1 "id" "text" []
      [1] candidates = Ok res /\
    (total_candidates res <= 50)%Z.
Proof.
  destruct (search_then_submit svd_col argsort_insertion engine0 retriever1
              [("a"%string, block "a" [1]); ("b"%string, block "b" [2])]
              "id" "text" [] [1] 1)
    as (candidates & res & H1 & H2 & H3 & _).
  - exact svd_col_sound.
  - exact argsort_insertion_sound.
  - exact wf_retriever1.
  - reflexivity.
  - repeat constructor.
  - exact I.
  - exists candidates, res. split; [exact H1|]. split; [exact H2|exact H3].
Defined.

(** ** Constraint sets and human feedback *)

Section FeedbackFacts.

Import Feedback.

Lemma get_weight_snoc_other (cs : ConstraintSet) (c : Constraint)
    (t : string) :
  c_type c <> t -> get_weight (cs ++ [c]) t = get_weight cs t.
Proof.
  intros Hne. induction cs as [|d cs IH]; simpl.
  - apply String.eqb_neq in Hne. rewrite Hne. reflexivity.
  - destruct (String.eqb (c_type d) t); [reflexivity|exact IH].
Qed.

Lemma get_weight_filter_other (cs : ConstraintSet) (t t' : string) :
  t <> t' ->
  get_weight (filter (fun c => negb (String.eqb (c_type c) t')) cs) t
    = get_weight cs t.
Proof.
  intros Hne. induction cs as [|d cs IH]; simpl; [reflexivity|].
  destruct (String.eqb (c_type d) t') eqn:E1; simpl.
  - apply String.eqb_eq in E1.
    assert (E2 : String.eqb (c_type d) t = false)
      by (apply String.eqb_neq; congruence).
    rewrite E2. exact IH.
  - destruct (String.eqb (c_type d) t); [reflexivity|exact IH].
Qed.

Lemma get_weight_filter_same (cs : ConstraintSet) (c : Constraint) :
  get_weight
    (filter (fun c' => negb (String.eqb (c_type c') (c_type c))) cs ++ [c])
    (c_type c) = weight c.
Proof.
  induction cs as [|d cs IH]; simpl.
  - rewrite String.eqb_refl. reflexivity.
  - destruct (String.eqb (c_type d) (c_type c)) eqn:E; simpl; [exact IH|].
    rewrite E. exact IH.
Qed.

Lemma add_types (cs : ConstraintSet) (c : Constraint) :
  map c_type (add cs c)
    = filter (fun t => negb (String.eqb t (c_type c))) (map c_type cs)
        ++ [c_type c].
Proof.
  unfold add. rewrite map_app. f_equal.
  induction cs as [|d cs IH]; simpl; [reflexivity|].
  destruct (String.eqb (c_type d) (c_type c)); simpl; [exact IH|].
  f_equal. exact IH.
Qed.

Lemma NoDup_filter_str (f : string -> bool) (l : list string) :
  NoDup l -> NoDup (filter f l).
Proof.
  induction 1 as [|x l Hx Hnd IH]; simpl; [constructor|].
  destruct (f x); [|exact IH].
  constructor; [|exact IH]. intros Hin. apply filter_In in Hin. tauto.
Qed.

Lemma add_get_same (cs : ConstraintSet) (c : Constraint) :
  get_weight (add cs c) (c_type c) = weight c.
Proof. apply get_weight_filter_same. Qed.

Lemma add_get_other (cs : ConstraintSet) (c : Constraint) (t : string) :
  t <> c_type c -> get_weight (add cs c) t = get_weight cs t.
Proof.
  intros Hne. unfold add.
  rewrite get_weight_snoc_other by congruence.
  apply get_weight_filter_other. exact Hne.
Qed.

Lemma add_In_types (cs : ConstraintSet) (c : Constraint) (t : string) :
  In t (map c_type (add cs c)) <-> t = c_type c \/ In t (map c_type cs).
Proof.
  rewrite add_types, in_app_iff, filter_In. simpl.
  destruct (String.eqb_spec t (c_type c)) as [->|Hne]; simpl.
  - tauto.
  - split.
    + intros [[H _]|[H|[]]]; [right; exact H|left; congruence].
    + intros [H|H]; [contradiction|left; split; [exact H|reflexivity]].
Qed.

Lemma add_NoDup (cs : ConstraintSet) (c : Constraint) :
  NoDup (map c_type cs) -> NoDup (map c_type (add cs c)).
Proof.
  intros Hnd. rewrite add_types.
  apply NoDup_app; [apply NoDup_filter_str; exact Hnd
                   |repeat constructor; intros []|].
  intros t Ht [<-|[]]. apply filter_In in Ht. destruct Ht as (_ & Ht).
  rewrite String.eqb_refl in Ht. discriminate.
Qed.

Lemma add_count (cs : ConstraintSet) (c : Constraint) :
  count_occ string_dec (map c_type (add cs c)) (c_type c) = 1%nat.
Proof.
  rewrite add_types, count_occ_app. simpl.
  destruct (string_dec (c_type c) (c_type c)) as [_|Hne]; [|contradiction].
  rewrite (proj1 (count_occ_not_In string_dec _ _)); [reflexivity|].
  intros Hin. apply filter_In in Hin. destruct Hin as (_ & Hin).
  rewrite String.eqb_refl in Hin. discriminate.
Qed.

Lemma add_weights (P : R -> Prop) (cs : ConstraintSet) (c : Constraint) :
  Forall (fun d => P (weight d)) cs -> P (weight c) ->
  Forall (fun d => P (weight d)) (add cs c).
Proof.
  intros Hcs Hc. unfold add. apply Forall_app. split.
  - rewrite Forall_forall in *. intros d Hd. apply filter_In in Hd.
    apply Hcs. tauto.
  - repeat constructor. exact Hc.
Qed.

Lemma get_weight_in (P : R -> Prop) (cs : ConstraintSet) (t : string) :
  P 0 -> Forall (fun d => P (weight d)) cs -> P (get_weight cs t).
Proof.
  intros H0. induction 1 as [|d cs Hd _ IH]; simpl; [exact H0|].
  destruct (String.eqb (c_type d) t); assumption.
Qed.

Lemma clamp_range (w : R) : 0 <= Rmax 0 (Rmin 1 w) <= 1.
Proof.
  unfold Rmax, Rmin.
  destruct (Rle_dec 1 w); destruct (Rle_dec 0 _); lra.
Qed.

End FeedbackFacts.

(** [ConstraintSet.add] followed by [get_weight]: the added constraint's
    type reads back the added weight, every other type reads as before, the
    type occurs exactly once afterwards, the types present are the old ones
    and the new one, and distinct types stay distinct. *)
Theorem constraint_set_add_get
    (cs : Feedback.ConstraintSet) (c : Feedback.Constraint) :
  Feedback.get_weight (Feedback.add cs c) (Feedback.c_type c)
    = Feedback.weight c /\
  (forall t, t <> Feedback.c_type c ->
     Feedback.get_weight (Feedback.add cs c) t = Feedback.get_weight cs t) /\
  count_occ string_dec (map Feedback.c_type (Feedback.add cs c))
    (Feedback.c_type c) = 1%nat /\
  (forall t, In t (map Feedback.c_type (Feedback.add cs c)) <->
             t = Feedback.c_type c \/ In t (map Feedback.c_type cs)) /\
  (NoDup (map Feedback.c_type cs) ->
   NoDup (map Feedback.c_type (Feedback.add cs c))) /\
  (forall t, ~ In t (map Feedback.c_type (Feedback.add cs c)) ->
     Feedback.get_weight (Feedback.add cs c) t = 0).
Proof.
  split; [apply add_get_same|].
  split; [apply add_get_other|].
  split; [apply add_count|].
  split; [apply add_In_types|].
  split; [apply add_NoDup|].
  intros t. generalize (Feedback.add cs c). intros l.
  induction l as [|d l IH]; simpl; [reflexivity|].
  intros Hnin. destruct (String.eqb_spec (Feedback.c_type d) t) as [E|E].
  - exfalso. apply Hnin. left. exact E.
  - apply IH. tauto.
Qed.

Lemma constraint_set_add_get_witness :
  Feedback.get_weight
    (Feedback.add Feedback.load_constraints
       {| Feedback.c_type := "basic"; Feedback.weight := 0.3;
          Feedback.source := "human" |}) "moderate" = 0.5 /\
  NoDup (map Feedback.c_type
    (Feedback.add Feedback.load_constraints
       {| Feedback.c_type := "basic"; Feedback.weight := 0.3;
          Feedback.source := "human" |})).
Proof.
  destruct (constraint_set_add_get Feedback.load_constraints
              {| Feedback.c_type := "basic"; Feedback.weight := 0.3;
                 Feedback.source := "human" |})
    as (_ & H2 & _ & _ & H5 & _).
  split.
  - rewrite H2; [reflexivity|]. cbn. discriminate.
  - apply H5. cbn.
    repeat constructor; cbn; intuition discriminate.
Defined.

(** [FeedbackHandler.set_constraint_weight]: the weight stored is the
    requested one clamped to [0, 1]; it is what [get_weight] reads back and
    what the published event reports as new, the event reports the weight
    read before the call as old, and no other constraint type changes. *)
Theorem set_constraint_weight_effect
    (cs cs' : Feedback.ConstraintSet) (constraint : string) (w : R)
    (ev : Feedback.ConstraintUpdatedEvent) :
  Feedback.set_constraint_weight cs constraint w = (cs', ev) ->
  0 <= Feedback.new_weight ev <= 1 /\
  (0 <= w <= 1 -> Feedback.new_weight ev = w) /\
  (w < 0 -> Feedback.new_weight ev = 0) /\
  (1 < w -> Feedback.new_weight ev = 1) /\
  Feedback.get_weight cs' constraint = Feedback.new_weight ev /\
  Feedback.old_weight ev = Feedback.get_weight cs constraint /\
  Feedback.constraint_type ev = constraint /\
  (forall t, t <> constraint ->
     Feedback.get_weight cs' t = Feedback.get_weight cs t).
Proof.
  unfold Feedback.set_constraint_weight. intros [= <- <-]. cbn.
  split; [apply clamp_range|].
  split; [intros Hw; unfold Rmax, Rmin;
          destruct (Rle_dec 1 w); destruct (Rle_dec 0 _); lra|].
  split; [intros Hw; unfold Rmax, Rmin;
          destruct (Rle_dec 1 w); destruct (Rle_dec 0 _); lra|].
  split; [intros Hw; unfold Rmax, Rmin;
          destruct (Rle_dec 1 w); destruct (Rle_dec 0 _); lra|].
  split.
  { exact (add_get_same cs
             {| Feedback.c_type := constraint;
                Feedback.weight := Rmax 0 (Rmin 1 w);
                Feedback.source := "human" |}). }
  split; [reflexivity|]. split; [reflexivity|].
  intros t Ht.
  exact (add_get_other cs
           {| Feedback.c_type := constraint;
              Feedback.weight := Rmax 0 (Rmin 1 w);
              Feedback.source := "human" |} t Ht).
Qed.

Lemma set_constraint_weight_effect_witness :
  Feedback.get_weight
    (fst (Feedback.set_constraint_weight Feedback.load_constraints
            "advanced" 7)) "advanced" = 1 /\
  Feedback.old_weight
    (snd (Feedback.set_constraint_weight Feedback.load_constraints
            "advanced" 7)) = 0.2.
Proof.
  destruct (set_constraint_weight_effect Feedback.load_constraints
              (fst (Feedback.set_constraint_weight Feedback.load_constraints
                      "advanced" 7))
              "advanced" 7
              (snd (Feedback.set_constraint_weight Feedback.load_constraints
                      "advanced" 7)))
    as (_ & _ & _ & H4 & H5 & H6 & _).
  - reflexivity.
  - split.
    + rewrite H5. apply H4. lra.
    + rewrite H6. reflexivity.
Defined.

Section FeedbackInvariant.

Import Feedback.

Lemma load_constraints_ok : constraint_set_ok load_constraints.
Proof.
  unfold constraint_set_ok. cbn.
  split; [repeat constructor; cbn; intuition discriminate|].
  split; [repeat constructor; cbn; lra|].
  split; [tauto|]. split; [tauto|]. split; [tauto|].
  intuition discriminate.
Qed.

Lemma submit_feedback_ok (cs : ConstraintSet) (f : feedback) :
  constraint_set_ok cs ->
  constraint_set_ok
    (fst (submit_feedback cs (fb_type f) (fb_constraint f) (fb_rating f)
            (fb_comment f))).
Proof.
  intros Hok. unfold submit_feedback.
  destruct (fb_constraint f) as [c|]; [|exact Hok].
  destruct (fb_rating f) as [r|]; [|exact Hok].
  destruct (String.eqb (fb_type f) "constraint_weight"); [|exact Hok].
  destruct (String.eqb_spec c "") as [E|E]; [exact Hok|].
  cbn. destruct Hok as (H1 & H2 & H3 & H4 & H5 & H6).
  set (obj := {| c_type := c; weight := Rmax 0 (Rmin 1 r);
                 source := "human" |}).
  split; [apply add_NoDup; exact H1|].
  split; [apply (add_weights (fun x => 0 <= x <= 1));
          [exact H2|apply clamp_range]|].
  split; [apply add_In_types; right; exact H3|].
  split; [apply add_In_types; right; exact H4|].
  split; [apply add_In_types; right; exact H5|].
  intros Hin. apply add_In_types in Hin. destruct Hin as [Hin|Hin].
  - apply E. symmetry. exact Hin.
  - contradiction.
Qed.

Lemma after_feedback_ok_from (calls : list feedback) (cs : ConstraintSet) :
  constraint_set_ok cs ->
  constraint_set_ok
    (fold_left
       (fun cs f =>
          fst (submit_feedback cs (fb_type f) (fb_constraint f)
                 (fb_rating f) (fb_comment f)))
       calls cs).
Proof.
  revert cs. induction calls as [|f calls IH]; simpl; intros cs Hok.
  - exact Hok.
  - apply IH. apply submit_feedback_ok. exact Hok.
Qed.

Lemma after_feedback_unchanged_from (calls : list feedback)
    (cs : ConstraintSet) :
  Forall (fun f => fb_type f <> "constraint_weight"%string) calls ->
  fold_left
    (fun cs f =>
       fst (submit_feedback cs (fb_type f) (fb_constraint f)
              (fb_rating f) (fb_comment f)))
    calls cs = cs.
Proof.
  induction 1 as [|f calls Hf _ IH]; simpl; [reflexivity|].
  rewrite <- IH at 2. f_equal.
  unfold submit_feedback.
  destruct (fb_constraint f); [|reflexivity].
  destruct (fb_rating f); [|reflexivity].
  apply String.eqb_neq in Hf. rewrite Hf. reflexivity.
Qed.

End FeedbackInvariant.

(** The constraint set of a feedback handler after any sequence of
    [submit_feedback] calls: the constraint types are distinct, every weight
    (stored or read by [get_weight], for any type) lies in [0, 1], the three
    default types are still present, and the empty type is never added.
    Feedback of a type other than [constraint_weight] changes nothing. *)
Theorem feedback_keeps_constraints_valid (calls : list Feedback.feedback) :
  NoDup (map Feedback.c_type (Feedback.after_feedback calls)) /\
  Forall (fun d => 0 <= Feedback.weight d <= 1)
    (Feedback.after_feedback calls) /\
  (forall t, 0 <= Feedback.get_weight (Feedback.after_feedback calls) t <= 1) /\
  (forall t, In t ["basic"%string; "moderate"%string; "advanced"%string] ->
     In t (map Feedback.c_type (Feedback.after_feedback calls))) /\
  ~ In ""%string (map Feedback.c_type (Feedback.after_feedback calls)) /\
  (Forall (fun f => Feedback.fb_type f <> "constraint_weight"%string) calls ->
   Feedback.after_feedback calls = Feedback.load_constraints).
Proof.
  destruct (after_feedback_ok_from calls Feedback.load_constraints
              load_constraints_ok) as (H1 & H2 & H3 & H4 & H5 & H6).
  fold (Feedback.after_feedback calls) in H1, H2, H3, H4, H5, H6.
  split; [exact H1|]. split; [exact H2|].
  split; [intros t; apply (get_weight_in (fun x => 0 <= x <= 1));
          [lra|exact H2]|].
  split; [intros t [<-|[<-|[<-|[]]]]; assumption|].
  split; [exact H6|].
  intros Hall. apply after_feedback_unchanged_from. exact Hall.
Qed.

Lemma feedback_keeps_constraints_valid_witness :
  Feedback.after_feedback
    [ {| Feedback.fb_type := "general"; Feedback.fb_constraint := Some "basic"%string;
         Feedback.fb_rating := Some 0.1; Feedback.fb_comment := "slow" |} ]
    = Feedback.load_constraints /\
  In "advanced"%string
    (map Feedback.c_type
       (Feedback.after_feedback
          [ {| Feedback.fb_type := "general";
               Feedback.fb_constraint := Some "basic"%string;
               Feedback.fb_rating := Some 0.1;
               Feedback.fb_comment := "slow" |} ])).
Proof.
  destruct (feedback_keeps_constraints_valid
              [ {| Feedback.fb_type := "general";
                   Feedback.fb_constraint := Some "basic"%string;
                   Feedback.fb_rating := Some 0.1;
                   Feedback.fb_comment := "slow" |} ])
    as (_ & _ & _ & H4 & _ & H6).
  split.
  - apply H6. repeat constructor. cbn. discriminate.
  - apply H4. cbn. tauto.
Defined.

(** ** Curriculum progression *)

Section CurriculumFacts.

Import Curriculum.

Lemma after_results_snoc (self : CurriculumHandler) (results : list (R * R))
    (r : R * R) :
  after_results self (results ++ [r])
    = fst (evaluate_progression (after_results self results) (fst r) (snd r)).
Proof. unfold after_results. rewrite fold_left_app. reflexivity. Qed.

Lemma fold_plus_lower (c : R) (l : list R) (a : R) :
  Forall (fun x => c <= x) l ->
  a + c * INR (length l) <= fold_left Rplus l a.
Proof.
  intros H. revert a. induction H as [|x l Hx _ IH]; intros a.
  - simpl. lra.
  - cbn [fold_left]. specialize (IH (a + x)).
    change (length (x :: l)) with (S (length l)). rewrite S_INR. lra.
Qed.

Lemma fold_plus_upper (c : R) (l : list R) (a : R) :
  Forall (fun x => x <= c) l ->
  fold_left Rplus l a <= a + c * INR (length l).
Proof.
  intros H. revert a. induction H as [|x l Hx _ IH]; intros a.
  - simpl. lra.
  - cbn [fold_left]. specialize (IH (a + x)).
    change (length (x :: l)) with (S (length l)). rewrite S_INR. lra.
Qed.

Lemma last_n_length (n : nat) (l : list R) :
  (n <= length l)%nat -> length (last_n n l) = n.
Proof. intros H. unfold last_n. rewrite length_skipn. lia. Qed.

Lemma last_n_Forall (P : R -> Prop) (n : nat) (l : list R) :
  Forall P l -> Forall P (last_n n l).
Proof.
  intros H. unfold last_n. rewrite Forall_forall in *. intros x Hx.
  apply H. rewrite <- (firstn_skipn (length l - n) l).
  apply in_or_app. right. exact Hx.
Qed.

(** Ten or more results, all at least as good as the thresholds, make
    [should_advance] true. *)
Lemma should_advance_good (p : LearningProgress) :
  (10 <= length (accuracy_history p))%nat ->
  (10 <= length (solve_time_history p))%nat ->
  Forall (fun a => 0.9 <= a) (accuracy_history p) ->
  Forall (fun t => t <= 5) (solve_time_history p) ->
  should_advance p 0.9 5 = true.
Proof.
  intros Ha Ht Hacc Htime. unfold should_advance.
  destruct (Nat.ltb_spec (length (accuracy_history p)) 10) as [Hlt|_];
    [lia|].
  pose proof (fold_plus_lower 0.9 _ 0
                (last_n_Forall _ 10 _ Hacc)) as H1.
  pose proof (fold_plus_upper 5 _ 0
                (last_n_Forall _ 10 _ Htime)) as H2.
  rewrite last_n_length in H1, H2 by assumption.
  assert (E10 : INR 10 = 10) by (simpl; lra).
  rewrite E10 in H1, H2.
  unfold py_sum, Rleb.
  destruct (Rle_dec 0.9 _) as [_|Hn]; [|exfalso; apply Hn; lra].
  destruct (Rle_dec _ 5) as [_|Hn]; [reflexivity|exfalso; apply Hn; lra].
Qed.

(** One call of [evaluate_progression] on a handler with the default
    stages. *)
Lemma evaluate_progression_step (self : CurriculumHandler)
    (p : LearningProgress) (accuracy solve_time : R) :
  stages self = stages init ->
  progress self = Some p ->
  exists p',
    progress (fst (evaluate_progression self accuracy solve_time)) = Some p' /\
    stages (fst (evaluate_progression self accuracy solve_time))
      = stages init /\
    accuracy_history p' = accuracy_history p ++ [accuracy] /\
    solve_time_history p' = solve_time_history p ++ [solve_time] /\
    current_stage p' =
      (if Z.ltb (current_stage p) 3
          && should_advance (add_result p accuracy solve_time) 0.9 5
       then current_stage p + 1 else current_stage p)%Z.
Proof.
  intros Hst Hp. unfold evaluate_progression. rewrite Hp, Hst.
  change (Z.of_nat (length (stages init))) with 3%Z.
  cbn [add_result current_stage].
  destruct (Z.ltb (current_stage p) 3
            && should_advance (add_result p accuracy solve_time) 0.9 5);
    cbn; eexists; repeat split.
Qed.

Lemma after_results_inv (results : list (R * R)) :
  stages (after_results init results) = stages init /\
  exists p,
    progress (after_results init results) = Some p /\
    accuracy_history p = map fst results /\
    solve_time_history p = map snd results /\
    (1 <= current_stage p <= 3)%Z /\
    ((length results < 10)%nat -> current_stage p = 1%Z).
Proof.
  induction results as [|r results IH] using rev_ind.
  - split; [reflexivity|]. eexists. split; [reflexivity|].
    cbn. repeat split; lia.
  - destruct IH as (Hst & p & Hp & Hacc & Htime & Hrange & Hfew).
    rewrite after_results_snoc.
    destruct (evaluate_progression_step _ p (fst r) (snd r) Hst Hp)
      as (p' & Hp' & Hst' & Hacc' & Htime' & Hstage).
    split; [exact Hst'|]. exists p'. split; [exact Hp'|].
    rewrite !map_app, Hacc', Htime', Hacc, Htime.
    split; [reflexivity|]. split; [reflexivity|].
    rewrite Hstage. rewrite length_app. cbn [length].
    unfold should_advance. cbn [add_result accuracy_history].
    rewrite Hacc, length_app, length_map. cbn [length].
    destruct (Nat.ltb_spec (length results + 1) 10) as [Hlt|Hge].
    + rewrite andb_false_r. split; [exact Hrange|].
      intros _. apply Hfew. lia.
    + split; [|intros; lia].
      destruct (Z.ltb_spec (current_stage p) 3); cbn [andb];
        [|exact Hrange].
      match goal with |- context [if ?b then _ else _] => destruct b end; lia.
Qed.

Lemma get_stage_info_default (self : CurriculumHandler)
    (p : LearningProgress) :
  stages self = stages init ->
  progress self = Some p ->
  (1 <= current_stage p <= 3)%Z ->
  exists st, get_stage_info self = Ok st /\
             stage_number st = current_stage p /\ In st (stages init).
Proof.
  intros Hst Hp Hrange. unfold get_stage_info, get_current_stage.
  rewrite Hp, Hst.
  assert (Hc : current_stage p = 1%Z \/ current_stage p = 2%Z \/
               current_stage p = 3%Z) by lia.
  destruct Hc as [E | [E | E]]; rewrite E; cbn; eexists;
    (split; [reflexivity|]); cbn; tauto.
Qed.

End CurriculumFacts.

(** The curriculum handler after any sequence of [evaluate_progression]
    calls: the histories hold the reported results in order, the stage is
    1, 2 or 3 and [get_stage_info] finds the stage with that number; the
    stage is still 1 while fewer than 10 results were reported, and more
    results never lower it. *)
Theorem curriculum_progress_invariant (results more : list (R * R)) :
  exists p st,
    Curriculum.progress (Curriculum.after_results Curriculum.init results)
      = Some p /\
    Curriculum.accuracy_history p = map fst results /\
    Curriculum.solve_time_history p = map snd results /\
    (1 <= Curriculum.current_stage p <= 3)%Z /\
    ((length results < 10)%nat -> Curriculum.current_stage p = 1%Z) /\
    Curriculum.get_stage_info
      (Curriculum.after_results Curriculum.init results) = Ok st /\
    Curriculum.stage_number st = Curriculum.current_stage p /\
    (Curriculum.current_stage p <=
       Curriculum.get_current_stage
         (Curriculum.after_results Curriculum.init (results ++ more)))%Z.
Proof.
  destruct (after_results_inv results)
    as (Hst & p & Hp & Hacc & Htime & Hrange & Hfew).
  destruct (get_stage_info_default _ p Hst Hp Hrange) as (st & Hinfo & Hnum & _).
  exists p, st. split; [exact Hp|]. split; [exact Hacc|].
  split; [exact Htime|]. split; [exact Hrange|]. split; [exact Hfew|].
  split; [exact Hinfo|]. split; [exact Hnum|].
  induction more as [|r more IH] using rev_ind.
  - rewrite app_nil_r. unfold Curriculum.get_current_stage. rewrite Hp. lia.
  - rewrite app_assoc, after_results_snoc.
    destruct (after_results_inv (results ++ more))
      as (Hst1 & p1 & Hp1 & _).
    unfold Curriculum.get_current_stage in IH. rewrite Hp1 in IH.
    destruct (evaluate_progression_step _ p1 (fst r) (snd r) Hst1 Hp1)
      as (p' & Hp' & _ & _ & _ & Hstage).
    unfold Curriculum.get_current_stage. rewrite Hp', Hstage.
    match goal with |- context [if ?b then _ else _] => destruct b end; lia.
Qed.

Lemma curriculum_progress_invariant_witness :
  exists p,
    Curriculum.progress
      (Curriculum.after_results Curriculum.init [(1, 1); (0.95, 2)])
      = Some p /\
    Curriculum.current_stage p = 1%Z.
Proof.
  destruct (curriculum_progress_invariant [(1, 1); (0.95, 2)] [])
    as (p & st & H1 & _ & _ & _ & H5 & _).
  exists p. split; [exact H1|]. apply H5. simpl. lia.
Defined.

(** A streak of results that meet the thresholds (accuracy at least 0.9,
    solve time at most 5): the handler stays at stage 1 for the first nine
    results, moves to stage 2 with the tenth and to stage 3 with the
    eleventh, because the histories are not cleared on advancing; it then
    stays at stage 3. *)
Theorem curriculum_streak (results : list (R * R)) :
  Forall (fun r => 0.9 <= fst r /\ snd r <= 5) results ->
  Curriculum.get_current_stage
    (Curriculum.after_results Curriculum.init results)
  = (if Nat.ltb (length results) 10 then 1
     else if Nat.eqb (length results) 10 then 2 else 3)%Z.
Proof.
  induction results as [|r results IH] using rev_ind; intros Hgood.
  - reflexivity.
  - apply Forall_app in Hgood. destruct Hgood as (Hgood & Hr).
    specialize (IH Hgood).
    destruct (after_results_inv results)
      as (Hst & p & Hp & Hacc & Htime & Hrange & _).
    unfold Curriculum.get_current_stage in IH. rewrite Hp in IH.
    rewrite after_results_snoc.
    destruct (evaluate_progression_step _ p (fst r) (snd r) Hst Hp)
      as (p' & Hp' & _ & _ & _ & Hstage).
    unfold Curriculum.get_current_stage. rewrite Hp', Hstage.
    rewrite length_app. cbn [length].
    destruct (Nat.ltb_spec (length results + 1) 10) as [Hlt|Hge].
    + unfold Curriculum.should_advance.
      cbn [Curriculum.add_result Curriculum.accuracy_history].
      rewrite Hacc, length_app, length_map. cbn [length].
      destruct (Nat.ltb_spec (length results + 1) 10) as [_|Hge]; [|lia].
      rewrite andb_false_r, IH.
      destruct (Nat.ltb_spec (length results) 10); [reflexivity|lia].
    + rewrite should_advance_good.
      * rewrite andb_true_r, IH.
        destruct (Nat.ltb_spec (length results) 10).
        { assert (E : (length results + 1)%nat = 10%nat) by lia.
          rewrite E. reflexivity. }
        destruct (Nat.eqb_spec (length results) 10) as [E|E].
        { rewrite E. reflexivity. }
        destruct (Nat.eqb_spec (length results + 1) 10); [lia|reflexivity].
      * cbn. rewrite Hacc, length_app, length_map. simpl. lia.
      * cbn. rewrite Htime, length_app, length_map. simpl. lia.
      * cbn. rewrite Hacc. apply Forall_app. split.
        { apply Forall_map. eapply Forall_impl; [|exact Hgood].
          cbn. tauto. }
        { inversion Hr as [|? ? Hr0 _]; subst.
          constructor; [exact (proj1 Hr0)|constructor]. }
      * cbn. rewrite Htime. apply Forall_app. split.
        { apply Forall_map. eapply Forall_impl; [|exact Hgood].
          cbn. tauto. }
        { inversion Hr as [|? ? Hr0 _]; subst.
          constructor; [exact (proj2 Hr0)|constructor]. }
Qed.

Lemma curriculum_streak_witness :
  Curriculum.get_current_stage
    (Curriculum.after_results Curriculum.init (repeat (1, 1) 11)) = 3%Z.
Proof.
  rewrite (curriculum_streak (repeat (1, 1) 11)).
  - reflexivity.
  - repeat constructor; cbn; lra.
Defined.

(** ** Circuit breaker *)

Section BreakerFacts.

Import Breaker.

Lemma run_snoc (self : CircuitBreaker) (calls : list (R * outcome))
    (c : R * outcome) :
  run self (calls ++ [c]) = fst (call (run self calls) (fst c) (snd c)).
Proof. unfold run. rewrite fold_left_app. reflexivity. Qed.

Lemma call_config (self : CircuitBreaker) (now : R) (func : outcome) :
  config (fst (call self now func)) = config self.
Proof.
  destruct self as [cfg st fc sc lft lsc].
  unfold call, _should_attempt_reset, _on_success, _on_failure.
  destruct st, func; cbn;
    repeat match goal with
           | |- context [match ?x with _ => _ end] => destruct x; cbn
           end; reflexivity.
Qed.

Lemma call_ok (self : CircuitBreaker) (now : R) (func : outcome) :
  (0 < failure_threshold (config self))%Z ->
  (0 < success_threshold (config self))%Z ->
  breaker_ok self ->
  breaker_ok (fst (call self now func)).
Proof.
  destruct self as [cfg st fc sc lft lsc].
  unfold breaker_ok, call, _should_attempt_reset, _on_success, _on_failure.
  cbn. intros Hf Hs Hok.
  destruct st, func; cbn;
    repeat match goal with
           | |- context [match ?x with _ => _ end] => destruct x eqn:?; cbn
           end;
    repeat match goal with
           | H : (_ <=? _)%Z = true |- _ => apply Z.leb_le in H
           | H : (_ <=? _)%Z = false |- _ => apply Z.leb_gt in H
           end;
    try (intuition (try lia; try discriminate; try congruence)).
Qed.

Lemma run_ok (cfg : CircuitBreakerConfig) (now0 : R)
    (calls : list (R * outcome)) :
  (0 < failure_threshold cfg)%Z ->
  (0 < success_threshold cfg)%Z ->
  config (run (init cfg now0) calls) = cfg /\
  breaker_ok (run (init cfg now0) calls).
Proof.
  intros Hf Hs. induction calls as [|c calls IH] using rev_ind.
  - split; [reflexivity|]. unfold breaker_ok. cbn. lia.
  - destruct IH as (Hcfg & Hok). rewrite run_snoc. split.
    + rewrite call_config. exact Hcfg.
    + apply call_ok; rewrite ?Hcfg; assumption.
Qed.

End BreakerFacts.

(** A circuit breaker after any run of calls, for positive thresholds: the
    configuration is unchanged; a closed circuit has fewer recorded failures
    than the failure threshold; an open or half-open circuit has at least
    that many and has a last failure time, so the branch of
    [_should_attempt_reset] for a missing time is never taken; the success
    count is 0 unless the circuit is half-open, where it stays below the
    success threshold. *)
Theorem breaker_invariant (cfg : Breaker.CircuitBreakerConfig) (now0 : R)
    (calls : list (R * Breaker.outcome)) :
  (0 < Breaker.failure_threshold cfg)%Z ->
  (0 < Breaker.success_threshold cfg)%Z ->
  let cb := Breaker.run (Breaker.init cfg now0) calls in
  Breaker.config cb = cfg /\
  (Breaker.state cb = Breaker.CLOSED ->
     (0 <= Breaker.failure_count cb < Breaker.failure_threshold cfg)%Z /\
     Breaker.success_count cb = 0%Z) /\
  (Breaker.state cb = Breaker.OPEN ->
     (Breaker.failure_threshold cfg <= Breaker.failure_count cb)%Z /\
     Breaker.success_count cb = 0%Z /\
     Breaker.last_failure_time cb <> None) /\
  (Breaker.state cb = Breaker.HALF_OPEN ->
     (Breaker.failure_threshold cfg <= Breaker.failure_count cb)%Z /\
     (0 <= Breaker.success_count cb < Breaker.success_threshold cfg)%Z /\
     Breaker.last_failure_time cb <> None).
Proof.
  intros Hf Hs cb. destruct (run_ok cfg now0 calls Hf Hs) as (Hcfg & Hok).
  fold cb in Hcfg, Hok. unfold breaker_ok in Hok. rewrite Hcfg in Hok.
  split; [exact Hcfg|].
  split; [intros E; rewrite E in Hok; exact Hok|].
  split; intros E; rewrite E in Hok; exact Hok.
Qed.

Lemma breaker_invariant_witness :
  Breaker.config
    (Breaker.run (Breaker.init Breaker.default_config 0)
       [(1, Breaker.RaisesExpected); (2, Breaker.Returns)])
  = Breaker.default_config.
Proof.
  apply (breaker_invariant Breaker.default_config 0
           [(1, Breaker.RaisesExpected); (2, Breaker.Returns)]).
  - reflexivity.
  - reflexivity.
Defined.

Section BreakerTrip.

Import Breaker.

Lemma failure_on_closed (self : CircuitBreaker) (now : R) :
  state self = CLOSED ->
  let cb := fst (call self now RaisesExpected) in
  failure_count cb = (failure_count self + 1)%Z /\
  last_failure_time cb = Some now /\
  config cb = config self /\
  state cb = (if Z.ltb (failure_count self + 1)
                       (failure_threshold (config self))
              then CLOSED else OPEN).
Proof.
  destruct self as [cfg st fc sc lft lsc]. cbn. intros ->.
  unfold call, _on_failure. cbn.
  destruct (Z.leb_spec (failure_threshold cfg) (fc + 1));
    destruct (Z.ltb_spec (fc + 1) (failure_threshold cfg)); try lia;
    cbn; repeat split.
Qed.

End BreakerTrip.

(** Consecutive failures on a closed circuit: each one is counted, the
    circuit stays closed while the count is below the failure threshold and
    opens with the failure that reaches it; a success on a closed circuit
    sets the count back to 0, so only consecutive failures add up. *)
Theorem breaker_trips_at_threshold (self : Breaker.CircuitBreaker)
    (fails : list R) (now : R) :
  Breaker.state self = Breaker.CLOSED ->
  (Breaker.failure_count self + Z.of_nat (length fails)
     <= Breaker.failure_threshold (Breaker.config self))%Z ->
  (Breaker.failure_count self
     < Breaker.failure_threshold (Breaker.config self))%Z ->
  let cb :=
    Breaker.run self (map (fun t => (t, Breaker.RaisesExpected)) fails) in
  Breaker.failure_count cb
    = (Breaker.failure_count self + Z.of_nat (length fails))%Z /\
  Breaker.state cb
    = (if Z.ltb (Breaker.failure_count cb)
                (Breaker.failure_threshold (Breaker.config self))
       then Breaker.CLOSED else Breaker.OPEN) /\
  (Breaker.state cb = Breaker.CLOSED ->
   Breaker.failure_count (fst (Breaker.call cb now Breaker.Returns)) = 0%Z /\
   Breaker.state (fst (Breaker.call cb now Breaker.Returns))
     = Breaker.CLOSED /\
   snd (Breaker.call cb now Breaker.Returns) = Breaker.Returned).
Proof.
  intros Hst Hle Hlt cb.
  assert (Hmain :
    Breaker.config cb = Breaker.config self /\
    Breaker.failure_count cb
      = (Breaker.failure_count self + Z.of_nat (length fails))%Z /\
    Breaker.state cb
      = (if Z.ltb (Breaker.failure_count cb)
                  (Breaker.failure_threshold (Breaker.config self))
         then Breaker.CLOSED else Breaker.OPEN)).
  { subst cb. induction fails as [|t fails IH] using rev_ind.
    - cbn. split; [reflexivity|]. split; [lia|].
      rewrite Hst. destruct (Z.ltb_spec (Breaker.failure_count self)
        (Breaker.failure_threshold (Breaker.config self))); [reflexivity|lia].
    - rewrite length_app in Hle. cbn [length] in Hle.
      destruct IH as (Hcfg & Hfc & Hstate); [lia|].
      rewrite map_app. cbn [map]. rewrite run_snoc. cbn [fst snd].
      set (cb0 := Breaker.run self
                    (map (fun t0 => (t0, Breaker.RaisesExpected)) fails)) in *.
      assert (Hclosed : Breaker.state cb0 = Breaker.CLOSED).
      { rewrite Hstate.
        destruct (Z.ltb_spec (Breaker.failure_count cb0)
                    (Breaker.failure_threshold (Breaker.config self)));
          [reflexivity|lia]. }
      destruct (failure_on_closed cb0 t Hclosed) as (H1 & _ & H3 & H4).
      rewrite H3, Hcfg. split; [reflexivity|].
      rewrite H1, Hfc, length_app. cbn [length].
      split; [lia|]. rewrite H4, Hcfg, Hfc. reflexivity. }
  destruct Hmain as (Hcfg & Hfc & Hstate).
  split; [exact Hfc|]. split; [exact Hstate|].
  intros Hclosed. clear Hcfg Hfc Hstate. clearbody cb.
  destruct cb as [cfg st fc sc lft lsc]. cbn in Hclosed. subst st.
  unfold Breaker.call, Breaker._on_success. cbn.
  repeat split.
Qed.

Lemma breaker_trips_at_threshold_witness :
  Breaker.state
    (Breaker.run (Breaker.init Breaker.default_config 0)
       (map (fun t => (t, Breaker.RaisesExpected)) [1; 2; 3; 4; 5]))
  = Breaker.OPEN.
Proof.
  destruct (breaker_trips_at_threshold
              (Breaker.init Breaker.default_config 0) [1; 2; 3; 4; 5] 6)
    as (H1 & H2 & _).
  - reflexivity.
  - cbn. lia.
  - cbn. lia.
  - rewrite H2, H1. reflexivity.
Defined.

(** An open circuit whose last failure was at time [t]: a call made less
    than [timeout] seconds later is rejected without calling the function
    and changes nothing; a call made at or after the timeout goes through a
    half-open circuit, where one failure opens the circuit again (whatever
    the failure threshold) and a success closes it when the success
    threshold is 1 and leaves it half-open with one success counted
    otherwise. *)
Theorem breaker_open_circuit (self : Breaker.CircuitBreaker) (t now : R) :
  Breaker.state self = Breaker.OPEN ->
  Breaker.last_failure_time self = Some t ->
  (0 < Breaker.success_threshold (Breaker.config self))%Z ->
  (now - t < Breaker.timeout (Breaker.config self) ->
     forall func, Breaker.call self now func = (self, Breaker.Rejected)) /\
  (Breaker.timeout (Breaker.config self) <= now - t ->
     (forall func, snd (Breaker.call self now func) <> Breaker.Rejected) /\
     Breaker.state (fst (Breaker.call self now Breaker.RaisesExpected))
       = Breaker.OPEN /\
     Breaker.last_failure_time
       (fst (Breaker.call self now Breaker.RaisesExpected)) = Some now /\
     Breaker.state (fst (Breaker.call self now Breaker.RaisesOther))
       = Breaker.HALF_OPEN /\
     Breaker.state (fst (Breaker.call self now Breaker.Returns))
       = (if Z.eqb (Breaker.success_threshold (Breaker.config self)) 1
          then Breaker.CLOSED else Breaker.HALF_OPEN) /\
     Breaker.success_count (fst (Breaker.call self now Breaker.Returns))
       = (if Z.eqb (Breaker.success_threshold (Breaker.config self)) 1
          then 0 else 1)%Z /\
     Breaker.failure_count (fst (Breaker.call self now Breaker.Returns))
       = (if Z.eqb (Breaker.success_threshold (Breaker.config self)) 1
          then 0 else Breaker.failure_count self)%Z).
Proof.
  destruct self as [cfg st fc sc lft lsc]. cbn. intros -> -> Hs.
  unfold Breaker.call, Breaker._should_attempt_reset. cbn.
  split.
  - intros Hlt func.
    destruct (Rle_dec (Breaker.timeout cfg) (now - t)); [lra|reflexivity].
  - intros Hge.
    destruct (Rle_dec (Breaker.timeout cfg) (now - t)) as [_|Hn];
      [|contradiction].
    split; [intros func; destruct func; cbn; discriminate|].
    unfold Breaker._on_failure, Breaker._on_success. cbn.
    split; [reflexivity|]. split; [reflexivity|]. split; [reflexivity|].
    destruct (Z.leb_spec (Breaker.success_threshold cfg) 1);
      destruct (Z.eqb_spec (Breaker.success_threshold cfg) 1); try lia;
      cbn; repeat split.
Qed.

Lemma breaker_open_circuit_witness :
  Breaker.call
    (Breaker.run (Breaker.init Breaker.default_config 0)
       (map (fun t => (t, Breaker.RaisesExpected)) [1; 2; 3; 4; 5]))
    30 Breaker.Returns
  = (Breaker.run (Breaker.init Breaker.default_config 0)
       (map (fun t => (t, Breaker.RaisesExpected)) [1; 2; 3; 4; 5]),
     Breaker.Rejected).
Proof.
  apply (breaker_open_circuit
           (Breaker.run (Breaker.init Breaker.default_config 0)
              (map (fun t => (t, Breaker.RaisesExpected)) [1; 2; 3; 4; 5]))
           5 30).
  - reflexivity.
  - reflexivity.
  - reflexivity.
  - cbn. lra.
Defined.

(** ** Retry with exponential backoff *)

Section RetryFacts.

Import Retry.

Context {V : Type}.

Lemma backoff_step (d b M : R) (i : nat) :
  0 <= M -> 1 <= b ->
  Rmin (Rmin (d * b) M * b ^ i) M = Rmin (d * b ^ S i) M.
Proof.
  intros HM Hb. pose proof (pow_R1_Rle b i Hb) as HP.
  cbn [pow]. set (P := b ^ i) in *.
  unfold Rmin at 2. destruct (Rle_dec (d * b) M) as [H|H].
  - f_equal. ring.
  - assert (H1 : M < d * b) by lra.
    assert (H2 : M <= M * P) by nra.
    assert (H3 : d * b <= d * b * P) by nra.
    unfold Rmin.
    destruct (Rle_dec (M * P) M); destruct (Rle_dec (d * (b * P)) M);
      try lra; nra.
Qed.

Lemma backoff_range (d b M : R) :
  0 <= d <= M -> 1 <= b -> 0 <= Rmin (d * b) M <= M.
Proof.
  intros Hd Hb. unfold Rmin. destruct (Rle_dec (d * b) M); split; nra.
Qed.

(** The loop from attempt number [attempt] on, with [todo] attempts left. *)
Lemma retry_loop_spec (config : RetryConfig) (time_sleep : R -> bool)
    (func : Z -> attempt_outcome V)
    (todo : nat) (attempt : Z) (delay : R) (r : wrapper_result V)
    (sleeps : list R) :
  (0 < todo)%nat ->
  Z.of_nat todo = (max_attempts config - attempt + 1)%Z ->
  retry_loop config time_sleep func todo attempt delay = (r, sleeps) ->
  (attempt + Z.of_nat (length sleeps) <= max_attempts config)%Z /\
  (forall j, (attempt <= j < attempt + Z.of_nat (length sleeps))%Z ->
     func j = RaisesRetryable) /\
  Forall (fun d => time_sleep d = true) sleeps /\
  match r with
  | Value v => func (attempt + Z.of_nat (length sleeps))%Z = Returns v
  | Raised a =>
      a = (attempt + Z.of_nat (length sleeps))%Z /\
      (func a = RaisesOther \/
       (func a = RaisesRetryable /\ a = max_attempts config))
  | SleepRaised a =>
      a = (attempt + Z.of_nat (length sleeps))%Z /\
      func a = RaisesRetryable /\ (a < max_attempts config)%Z
  | ReturnsNone => False
  end /\
  (0 <= delay <= max_delay config ->
   1 <= exponential_base config ->
   (forall i, (i < length sleeps)%nat ->
      nth i sleeps 0
        = Rmin (delay * exponential_base config ^ i) (max_delay config)) /\
   ((forall d, 0 <= d <= max_delay config -> time_sleep d = true) ->
    forall a, r <> SleepRaised a)).
Proof.
  revert attempt delay r sleeps.
  induction todo as [|todo IH]; intros attempt delay r sleeps Hpos Htodo H;
    [lia|].
  cbn [retry_loop] in H.
  destruct (func attempt) as [v| |] eqn:Ef.
  - injection H as <- <-. cbn [length]. rewrite Z.add_0_r.
    split; [lia|]. split; [intros j Hj; lia|]. split; [constructor|].
    split; [exact Ef|].
    intros _ _. split; [intros i Hi; cbn in Hi; lia|].
    intros _ a. discriminate.
  - destruct (Z.ltb_spec attempt (max_attempts config)) as [Hlt|Hge].
    + destruct (time_sleep delay) eqn:Esleep.
      * destruct (retry_loop config time_sleep func todo (attempt + 1)
                    (Rmin (delay * exponential_base config)
                       (max_delay config))) as [r' sleeps'] eqn:Eloop.
        injection H as <- <-.
        destruct (IH (attempt + 1)%Z
                    (Rmin (delay * exponential_base config)
                       (max_delay config))
                    r' sleeps') as (H1 & H2 & H3 & H4 & H5);
          [lia|lia|exact Eloop|].
        cbn [length].
        replace (attempt + Z.of_nat (S (length sleeps')))%Z
          with (attempt + 1 + Z.of_nat (length sleeps'))%Z by lia.
        split; [exact H1|]. split.
        { intros j Hj. destruct (Z.eq_dec j attempt) as [->|Hne];
            [exact Ef|apply H2; lia]. }
        split; [constructor; assumption|].
        split; [exact H4|].
        intros Hd Hb.
        destruct (H5 (backoff_range _ _ _ Hd Hb) Hb) as (H6 & H7).
        split; [|exact H7].
        intros i Hi. destruct i as [|i].
        -- cbn. rewrite Rmult_1_r. unfold Rmin.
           destruct (Rle_dec delay (max_delay config)); [reflexivity|lra].
        -- cbn [nth]. rewrite H6 by lia.
           apply backoff_step; lra.
      * injection H as <- <-. cbn [length]. rewrite Z.add_0_r.
        split; [lia|]. split; [intros j Hj; lia|]. split; [constructor|].
        split; [split; [reflexivity|split; [exact Ef|exact Hlt]]|].
        intros Hd Hb. split; [intros i Hi; cbn in Hi; lia|].
        intros Hall a. rewrite (Hall delay Hd) in Esleep. discriminate.
    + injection H as <- <-. cbn [length]. rewrite Z.add_0_r.
      split; [lia|]. split; [intros j Hj; lia|]. split; [constructor|].
      split; [split; [reflexivity|right; split; [exact Ef|lia]]|].
      intros _ _. split; [intros i Hi; cbn in Hi; lia|].
      intros _ a. discriminate.
  - injection H as <- <-. cbn [length]. rewrite Z.add_0_r.
    split; [lia|]. split; [intros j Hj; lia|]. split; [constructor|].
    split; [split; [reflexivity|left; exact Ef]|].
    intros _ _. split; [intros i Hi; cbn in Hi; lia|].
    intros _ a. discriminate.
Qed.

(** A negative initial delay: the first sleep raises. *)
Lemma retry_sync_negative_delay (config : RetryConfig)
    (time_sleep : R -> bool) (func : Z -> attempt_outcome V) :
  sleep_sound time_sleep ->
  initial_delay config < 0 ->
  (1 < max_attempts config)%Z ->
  func 1%Z = RaisesRetryable ->
  retry_sync config time_sleep func = (SleepRaised 1, []).
Proof.
  intros Hsound Hneg Hmax Hf. unfold retry_sync.
  destruct (Z.to_nat (max_attempts config)) as [|todo] eqn:E; [lia|].
  cbn [retry_loop]. rewrite Hf.
  destruct (Z.ltb_spec 1 (max_attempts config)) as [_|Hge]; [|lia].
  rewrite (Hsound _ Hneg). reflexivity.
Qed.

End RetryFacts.

(** The retry wrapper.  With [max_attempts <= 0] the function is never
    called and the wrapper returns [None].  Otherwise it calls the function
    [k <= max_attempts] times; each of the first [k - 1] calls raised a
    retryable exception and was followed by a sleep that returned.  It then
    returns the value of call [k], or re-raises the exception of call [k]
    (not retryable, or that of the last allowed attempt), or passes on the
    exception that [time.sleep] raised after call [k].  With
    [0 <= initial_delay <= max_delay] and [exponential_base >= 1] the [i]-th
    sleep lasts [min(initial_delay * base^i, max_delay)], and no sleep raises
    when [time.sleep] accepts every delay between 0 and [max_delay].  With a
    negative [initial_delay], more than one attempt allowed and a first call
    that raises a retryable exception, the wrapper raises the [ValueError] of
    [time.sleep] after that one call. *)
Theorem retry_sync_behaviour {V : Type} (config : Retry.RetryConfig)
    (time_sleep : R -> bool)
    (func : Z -> Retry.attempt_outcome V) (r : Retry.wrapper_result V)
    (sleeps : list R) :
  Retry.retry_sync config time_sleep func = (r, sleeps) ->
  ((Retry.max_attempts config <= 0)%Z ->
     r = Retry.ReturnsNone /\ sleeps = []) /\
  ((0 < Retry.max_attempts config)%Z ->
     (Z.of_nat (length sleeps) + 1 <= Retry.max_attempts config)%Z /\
     (forall j, (1 <= j < Z.of_nat (length sleeps) + 1)%Z ->
        func j = Retry.RaisesRetryable) /\
     Forall (fun d => time_sleep d = true) sleeps /\
     match r with
     | Retry.Value v =>
         func (Z.of_nat (length sleeps) + 1)%Z = Retry.Returns v
     | Retry.Raised a =>
         a = (Z.of_nat (length sleeps) + 1)%Z /\
         (func a = Retry.RaisesOther \/
          (func a = Retry.RaisesRetryable /\ a = Retry.max_attempts config))
     | Retry.SleepRaised a =>
         a = (Z.of_nat (length sleeps) + 1)%Z /\
         func a = Retry.RaisesRetryable /\
         (a < Retry.max_attempts config)%Z
     | Retry.ReturnsNone => False
     end /\
     (0 <= Retry.initial_delay config <= Retry.max_delay config ->
      1 <= Retry.exponential_base config ->
      (forall i, (i < length sleeps)%nat ->
         nth i sleeps 0
           = Rmin (Retry.initial_delay config
                     * Retry.exponential_base config ^ i)
                  (Retry.max_delay config)) /\
      ((forall d, 0 <= d <= Retry.max_delay config -> time_sleep d = true) ->
       forall a, r <> Retry.SleepRaised a))) /\
  (Retry.sleep_sound time_sleep ->
   Retry.initial_delay config < 0 ->
   (1 < Retry.max_attempts config)%Z ->
   func 1%Z = Retry.RaisesRetryable ->
   r = Retry.SleepRaised 1 /\ sleeps = []).
Proof.
  intros H. split; [|split].
  - intros Hle. unfold Retry.retry_sync in H.
    replace (Z.to_nat (Retry.max_attempts config)) with 0%nat in H by lia.
    cbn in H. injection H as <- <-. split; reflexivity.
  - intros Hpos. unfold Retry.retry_sync in H.
    destruct (retry_loop_spec config time_sleep func
                (Z.to_nat (Retry.max_attempts config)) 1
                (Retry.initial_delay config) r sleeps)
      as (H1 & H2 & H3 & H4 & H5);
      [lia|lia|exact H|].
    rewrite (Z.add_comm 1) in H1, H2, H4.
    split; [exact H1|]. split; [exact H2|]. split; [exact H3|].
    split; [exact H4|exact H5].
  - intros Hsound Hneg Hmax Hf.
    rewrite (retry_sync_negative_delay config time_sleep func
               Hsound Hneg Hmax Hf) in H.
    injection H as <- <-. split; reflexivity.
Qed.

Lemma retry_sync_behaviour_witness :
  Retry.retry_sync Retry.default_config Retry.sleep_nonneg
    (fun j => if Z.eqb j 3 then Retry.Returns 7%Z else Retry.RaisesRetryable)
  = (Retry.Value 7%Z, [1; 2]) /\
  (Z.of_nat (length [1; 2]) + 1 <= 3)%Z.
Proof.
  assert (S1 : Retry.sleep_nonneg 1 = true).
  { unfold Retry.sleep_nonneg. destruct (Rlt_dec 1 0); [lra|reflexivity]. }
  assert (E1 : Rmin (1 * 2) 60 = 2)
    by (unfold Rmin; destruct (Rle_dec (1 * 2) 60); lra).
  assert (S2 : Retry.sleep_nonneg 2 = true).
  { unfold Retry.sleep_nonneg. destruct (Rlt_dec 2 0); [lra|reflexivity]. }
  assert (E : Retry.retry_sync Retry.default_config Retry.sleep_nonneg
            (fun j => if Z.eqb j 3 then Retry.Returns 7%Z
                      else Retry.RaisesRetryable)
          = (Retry.Value 7%Z, [1; 2])).
  { unfold Retry.retry_sync.
    change (Z.to_nat (Retry.max_attempts Retry.default_config)) with 3%nat.
    change (Retry.initial_delay Retry.default_config) with 1.
    cbn [Retry.retry_loop Z.eqb Pos.eqb Z.add Pos.add Pos.succ].
    change (Z.ltb 1 (Retry.max_attempts Retry.default_config)) with true.
    change (Z.ltb 2 (Retry.max_attempts Retry.default_config)) with true.
    cbv iota. rewrite S1.
    change (Retry.exponential_base Retry.default_config) with 2.
    change (Retry.max_delay Retry.default_config) with 60.
    rewrite E1, S2. reflexivity. }
  split; [exact E|].
  destruct (retry_sync_behaviour Retry.default_config _ _ _ _ E) as (_ & H & _).
  apply H. reflexivity.
Defined.

(** ** Binary64 replays

    The exact statements about [decompose] replayed over binary64 on
    concrete inputs. *)

Section Binary64.

Import PrimFloat.
Local Open Scope float_scope.
Local Set Warnings "-inexact-float".


(** C8, as stated, fails in binary64: for the context
    [[1.0, 9e-05, -4e-05]] and the query [[1.0, -0.00013, -3e-05]] nothing is
    classified as noise, [S] is the rounded difference [Y - R], and
    [R + S + N] differs from [Y] in the last bit of the second entry. *)
Lemma decompose_sum_differs_from_context :
  exists res,
    F64.decompose F64.svd_col F64.engine0 F64.ctx_near F64.q_near = Ok res /\
    F64.dr_N res = [0; 0; 0] /\
    nth 1 (F64.dr_Y res) 0 = 8.999999866350003e-05 /\
    nth 1 (F64.add3 (F64.dr_R res) (F64.dr_S res) (F64.dr_N res)) 0
      = 8.9999998663500044e-05 /\
    F64.array_equal
      (F64.add3 (F64.dr_R res) (F64.dr_S res) (F64.dr_N res)) (F64.dr_Y res)
      = false.
Proof.
  remember (F64.decompose F64.svd_col F64.engine0 F64.ctx_near F64.q_near)
    as d eqn:E.
  vm_compute in E. rewrite E.
  eexists. split; [reflexivity|].
  split; [vm_compute; reflexivity|].
  split; [vm_compute; reflexivity|].
  split; vm_compute; reflexivity.
Qed.


End Binary64.
